(** * PlainRSA: a shallow embedding of [RSA/PlainRSA.py]

    The class [RsaKeyPair] is embedded function by function.  Python
    integers are [Z]; a Python [str] is the list of its code points; an
    exception is a value of [exn]; a loop that Python may run for ever
    takes fuel and answers [Diverge] when the fuel is spent; the three
    random sources ([randrange], [getrandbits], [SystemRandom.randint])
    read a tape of arbitrary integers. *)

From Stdlib Require Import ZArith Lia Zpow_facts String Ascii.
From Stdlib Require Import Zmod.ZmodInv.
From Stdlib Require Znumtheory.
From Bignums Require Import BigZ.
From stdpp Require Import base numbers list gmap strings.

#[local] Open Scope Z_scope.

(** ** Outcomes of running Python code *)

(** The places where the code (or a builtin it calls) raises a
    [ValueError]. *)
Inductive value_error : Type :=
  | keylength_below_1024        (* __init__, line 54 *)
  | pubkey_needs_e_and_n        (* __init__, line 62 *)
  | e_d_phi_mismatch            (* quick_test, line 95 *)
  | quick_test_mismatch         (* quick_test, line 100 *)
  | msg_too_big (nbits : Z)     (* _encrypt, line 108 *)
  | not_same_after_decryption   (* encrypt, line 145 *)
  | invalid_int_literal         (* int(str) on a string that is no number *)
  | int_digits_limit            (* int(str), more than 4300 digits *)
  | str_digits_limit            (* str(int), more than 4300 digits *)
  | chr_out_of_range            (* chr(i), i outside range(0x110000) *)
  | pow_zero_modulus            (* pow(a, b, 0) *)
  | pow_not_invertible          (* pow(a, b, m), b < 0, a has no inverse *)
  | empty_range                 (* randrange / randint on an empty range *)
  | bits_negative               (* getrandbits(k) with k < 0 *)
  | negative_shift_count.       (* a << b with b < 0 *)

Inductive exn : Type :=
  | ValueError (why : value_error)
  | AttributeError (attribute : string)   (* the object has no such attribute *)
  | ZeroDivisionError
  | TypeError.

Inductive outcome (A : Type) : Type :=
  | Ret (a : A)
  | Raise (x : exn)
  | Diverge.
Arguments Ret {A} a.
Arguments Raise {A} x.
Arguments Diverge {A}.

#[global] Instance outcome_ret : MRet outcome := @Ret.
#[global] Instance outcome_bind : MBind outcome := λ A B f m,
  match m with
  | Ret a => f a
  | Raise x => Raise x
  | Diverge => Diverge
  end.

(** A [for] loop over a list, threading the loop's variables. *)
Fixpoint for_in {St A : Type} (l : list A) (body : A → St → outcome St) (s : St)
  : outcome St :=
  match l with
  | [] => Ret s
  | x :: l' => s' ← body x s; for_in l' body s'
  end.

(** A [while] loop whose body neither returns nor breaks. *)
Fixpoint while {St : Type} (fuel : nat) (cond : St → bool)
    (body : St → outcome St) (s : St) : outcome St :=
  match fuel with
  | O => Diverge
  | S fuel' => if cond s then s' ← body s; while fuel' cond body s' else Ret s
  end.

(** A [while] loop with a [return] inside: the body answers [inl s] to go
    on with the loop's variables [s], or [inr r] for [return r]; the loop
    answers [inl s] when its condition fails on [s]. *)
Fixpoint while_ret {St R : Type} (fuel : nat) (cond : St → bool)
    (body : St → outcome (St + R)) (s : St) : outcome (St + R) :=
  match fuel with
  | O => Diverge
  | S fuel' =>
      if cond s then
        c ← body s;
        match c with
        | inl s' => while_ret fuel' cond body s'
        | inr r => Ret (inr r)
        end
      else Ret (inl s)
  end.

(** ** Randomness

    Every call of a random source reads the next cell of a tape; the cell
    is reduced into the range asked for, so that each value of the range
    can be drawn and no other. *)

Definition tape : Type := nat → Z.

Definition M (A : Type) : Type := tape → outcome (A * tape).

#[global] Instance M_ret : MRet M := λ A a t, Ret (a, t).
#[global] Instance M_bind : MBind M := λ A B f m t,
  match m t with
  | Ret (a, t') => f a t'
  | Raise x => Raise x
  | Diverge => Diverge
  end.

Definition lift {A : Type} (o : outcome A) : M A := λ t,
  match o with
  | Ret a => Ret (a, t)
  | Raise x => Raise x
  | Diverge => Diverge
  end.

Definition raise {A : Type} (x : exn) : M A := λ _, Raise x.

Definition draw : M Z := λ t, Ret (t 0%nat, λ i, t (S i)).

(** A [while] loop whose condition and body may draw. *)
Fixpoint whileM {St : Type} (fuel : nat) (cond : St → M bool)
    (body : St → M St) (s : St) : M St :=
  match fuel with
  | O => λ _, Diverge
  | S fuel' =>
      b ← cond s;
      if b : bool then s' ← body s; whileM fuel' cond body s' else mret s
  end.

(** A [for] loop with a [return] inside, whose body may draw. *)
Fixpoint for_inM {St R A : Type} (l : list A) (body : A → St → M (St + R))
    (s : St) : M (St + R) :=
  match l with
  | [] => mret (inl s)
  | x :: l' =>
      c ← body x s;
      match c with
      | inl s' => for_inM l' body s'
      | inr r => mret (inr r)
      end
  end.

(** ** Python values and builtins *)

Definition pystr : Type := list Z.

(** A string literal of the source, as code points. *)
Definition py (s : string) : pystr :=
  (λ a, Z.of_N (N_of_ascii a)) <$> list_ascii_of_string s.

Inductive pyval : Type :=
  | PyInt (z : Z)
  | PyStr (s : pystr).

Definition is_codepoint (c : Z) : Prop := 0 ≤ c < 1114112.

Definition ord (c : Z) : Z := c.

(** [chr(i)].  (The class calls it on what [int] reads from four
    characters, between -999 and 9999; far outside, beyond a C [int],
    Python raises [OverflowError] instead.) *)
Definition chr (i : Z) : outcome Z :=
  if (0 <=? i) && (i <? 1114112) then Ret i else Raise (ValueError chr_out_of_range).

Definition digit_char (d : Z) : Z := 48 + d.

Definition is_digit_char (c : Z) : bool := (48 <=? c) && (c <=? 57).

(** The builtins are those of Python 3.11: conversions between [int] and
    [str] stop at [sys.int_info.default_max_str_digits] digits, and the
    three-argument [pow] takes a negative exponent. *)
Definition max_str_digits : nat := 4300.

(** The decimal digits of a non-negative integer, most significant
    first.  An integer below [2 ^ fuel] has at most [fuel] digits. *)
Fixpoint str_digits (fuel : nat) (n : Z) (acc : pystr) : pystr :=
  match fuel with
  | O => acc
  | S fuel' =>
      let acc' := digit_char (n `mod` 10) :: acc in
      if n <? 10 then acc' else str_digits fuel' (n `div` 10) acc'
  end.

Definition str_nonneg (n : Z) : pystr :=
  str_digits (S (Z.to_nat (Z.log2 n))) n [].

(** An integer in decimal, with its sign. *)
Definition decimal (z : Z) : pystr :=
  if z <? 0 then 45 :: str_nonneg (- z) else str_nonneg z.

(** [str] of an integer: a [ValueError] when it has more digits than the
    limit (the sign is not counted). *)
Definition str_int (z : Z) : outcome pystr :=
  if (max_str_digits <? length (str_nonneg (Z.abs z)))%nat
  then Raise (ValueError str_digits_limit)
  else Ret (decimal z).

Definition str (v : pyval) : outcome pystr :=
  match v with
  | PyInt z => str_int z
  | PyStr s => Ret s
  end.

(** The value of a string of decimal digits. *)
Definition digits_value (s : pystr) : Z :=
  foldl (λ acc c, 10 * acc + (c - 48)) 0 s.

(** The digits that a string starts with. *)
Fixpoint leading_digits (s : pystr) : nat :=
  match s with
  | c :: s' => if is_digit_char c then S (leading_digits s') else O
  | [] => O
  end.

(** [int] of a string: an optional sign and at least one decimal digit.
    The digits that follow the sign are counted first, zeros included,
    and more of them than the limit is a [ValueError] whatever comes
    after them.  (Blanks and underscores, which [int] also accepts, occur
    in no string the class builds.) *)
Definition int_of_digits (s : pystr) : outcome Z :=
  if (max_str_digits <? leading_digits s)%nat
  then Raise (ValueError int_digits_limit)
  else
    match s with
    | [] => Raise (ValueError invalid_int_literal)
    | _ => if forallb is_digit_char s then Ret (digits_value s)
           else Raise (ValueError invalid_int_literal)
    end.

Definition int_of_str (s : pystr) : outcome Z :=
  match s with
  | c :: s' =>
      if c =? 45 then v ← int_of_digits s'; Ret (- v)
      else if c =? 43 then int_of_digits s'
      else int_of_digits s
  | [] => int_of_digits s
  end.

(** [s.zfill(width)]: zeros on the left, after the sign if there is one. *)
Definition zfill (width : nat) (s : pystr) : pystr :=
  let zeros := replicate (width - length s) 48 in
  match s with
  | c :: s' => if (c =? 45) || (c =? 43) then c :: zeros ++ s' else zeros ++ s
  | [] => zeros ++ s
  end.

(** [s[i:j]] for [0 <= i <= j]. *)
Definition slice (s : pystr) (i j : Z) : pystr :=
  take (Z.to_nat (j - i)) (drop (Z.to_nat i) s).

(** [range(lo, hi)]. *)
Definition range (lo hi : Z) : list Z := seqZ lo (hi - lo).

(** ** The codec: [stringToNumber] and [numberToString] *)

Definition stringToNumber (msg : pyval) : outcome Z :=
  let ns := py "1421" in
  msg ← str msg;
  ns ← for_in msg (λ c ns, d ← str_int (ord c); Ret (ns ++ zfill 4 d)) ns;
  int_of_str ns.

Definition numberToString (msg : pyval) : outcome pystr :=
  msg ← str msg;
  let msg := if bool_decide (slice msg 0 4 = py "1421")
             then drop 4 msg else msg in
  let cs := [] in
  for_in (range 0 (Z.of_nat (length msg) `div` 4))
    (λ n cs,
       i ← int_of_str (slice msg (n * 4) (n * 4 + 4));
       c ← chr i;
       Ret (cs ++ [c]))
    cs.


(** ** Arithmetic builtins *)

(** [a // b] and [a % b]: floor division, the remainder has the sign of
    the divisor, as [Z.div] and [Z.modulo]. *)
Definition floordiv (a b : Z) : outcome Z :=
  if b =? 0 then Raise ZeroDivisionError else Ret (a `div` b).

Definition pymod (a b : Z) : outcome Z :=
  if b =? 0 then Raise ZeroDivisionError else Ret (a `mod` b).

(** [pow(b, e, m)] by repeated squaring; the result has the sign of
    [m].  With a negative exponent it is the inverse of [b] modulo [m]
    that is raised to the power [- e], and a [b] that has a common
    divisor with [m] is a [ValueError].  (For [m] equal to 1 or -1 every
    [b] has the inverse 0 and the result is 0.) *)
Definition pow (b e m : Z) : outcome Z :=
  if m =? 0 then Raise (ValueError pow_zero_modulus)
  else if e <? 0 then
    if Z.gcd b m =? 1 then Ret (Zpow_mod (Z.invmod b m) (- e) m)
    else Raise (ValueError pow_not_invertible)
  else Ret (Zpow_mod b e m).

(** [a << b]. *)
Definition lshift (a b : Z) : outcome Z :=
  if b <? 0 then Raise (ValueError negative_shift_count) else Ret (a ≪ b).

(** [random.randrange(lo, hi)], [random.getrandbits(k)] (which is 0 for
    no bits, without a draw) and [SystemRandom().randint(a, b)], which
    is [randrange(a, b + 1)]. *)
Definition randrange (lo hi : Z) : M Z :=
  if hi <=? lo then raise (ValueError empty_range)
  else x ← draw; mret (lo + x `mod` (hi - lo)).

Definition randint (a b : Z) : M Z := randrange a (b + 1).

Definition getrandbits (k : Z) : M Z :=
  if k <? 0 then raise (ValueError bits_negative)
  else if k =? 0 then mret 0
  else x ← draw; mret (x `mod` 2 ^ k).

(** ** [bitcount] *)

Definition bitcount_run (fuel : nat) (n : Z) : outcome Z :=
  let a := 1 in
  a ← while fuel (λ a, 1 ≪ a <=? n) (λ a, Ret (a ≪ 1)) a;
  let s := 0 in
  '(a, n, s) ← while fuel (λ '(a, n, s), 1 <? a)
    (λ '(a, n, s),
       let a := a ≫ 1 in
       if 1 ≪ a <=? n then Ret (a, n ≫ a, s + a) else Ret (a, n, s))
    (a, n, s);
  Ret (if 0 <? n then s + 1 else s).

(** Both loops of [bitcount] stop within [log2 n + 2] rounds
    ([bitcount_run_enough] below), so the function is total. *)
Definition bitcount (n : Z) : Z :=
  match bitcount_run (Z.to_nat (Z.log2 n) + 2) n with
  | Ret s => s
  | _ => 0
  end.

(** ** [factors] and [get_e] *)

(** [range(lo, hi, step)] for a positive step. *)
Definition range_step (lo hi step : Z) : list Z :=
  (λ k, lo + step * k) <$> seqZ 0 ((hi - lo + step - 1) `div` step).

(** The divisors of [n], for [n >= 1] (on other arguments the source
    raises).  [int(pow(n, 0.5) + 1)] is [Z.sqrt n + 1]: [get_e] calls
    [factors] below 10000 only, where the floating-point square root
    has the exact integer part. *)
Definition factors (n : Z) : gset Z :=
  list_to_set
    (concat ((λ i, [i; n `div` i]) <$>
             filter (λ i, n `mod` i = 0) (range 1 (Z.sqrt n + 1)))).

(** The [for j in d] loop breaks as soon as some [j] divides [phi], and
    [i] is returned when it never breaks; the order in which the set is
    walked does not matter.  [None] is Python's [None], returned when the
    outer loop runs to its end. *)
Definition get_e (phi : Z) : option Z :=
  List.find
    (λ i, let d := factors i in
          let d := d ∖ {[1]} in
          negb (existsb (λ j, phi `mod` j =? 0) (elements d)))
    (range_step 3 10001 2).

(** ** [get_d] *)

Definition get_d (fuel : nat) (phi e : Z) : outcome Z :=
  let t1 := (phi, e) in
  let t2 := (phi, 1) in
  '(t1, t2) ← while fuel (λ '(t1, t2), negb (t1.2 =? 1))
    (λ '(t1, t2),
       tb1 ← floordiv t1.1 t1.2;
       let tb2 := tb1 * t1.2 in
       let tb3 := tb1 * t2.2 in
       let td1 := t1.1 - tb2 in
       let td2 := t2.1 - tb3 in
       td2 ← while fuel (λ td2, td2 <? 0) (λ td2, Ret (td2 + phi)) td2;
       Ret ((t1.2, td1), (t2.2, td2)))
    (t1, t2);
  Ret t2.2.

(** ** [is_prime], [generate_prime_candidate], [generate_prime_number] *)

(** One round of the [for _ in range(k)] loop: [inl ()] to go on with the
    next round, [inr false] for [return False]. *)
Definition is_prime_round (n s r : Z) : M (() + bool) :=
  a ← randrange 2 (n - 1);
  x ← lift (pow a r n);
  if negb (x =? 1) && negb (x =? n - 1) then
    let j := 1 in
    c ← lift (while_ret (S (Z.to_nat s))
                (λ '(j, x), (j <? s) && negb (x =? n - 1))
                (λ '(j, x),
                   x ← pow x 2 n;
                   if x =? 1 then Ret (inr false) else Ret (inl (j + 1, x)))
                (j, x));
    match c with
    | inr b => mret (inr b)
    | inl (j, x) => if negb (x =? n - 1) then mret (inr false) else mret (inl ())
    end
  else mret (inl ()).

(** The fuel of the two [while] loops is enough for them to end
    ([is_prime_total] below): the first halves [r] and the second counts
    [j] up to [s]. *)
Definition is_prime (n k : Z) : M bool :=
  if (n =? 2) || (n =? 3) then mret true
  else if (n <=? 1) || (n `mod` 2 =? 0) then mret false
  else
    let s := 0 in
    let r := n - 1 in
    '(s, r) ← lift (while (S (Z.to_nat (Z.log2 n)))
                      (λ '(s, r), Z.land r 1 =? 0)
                      (λ '(s, r), Ret (s + 1, r `div` 2))
                      (s, r));
    c ← for_inM (range 0 k) (λ _ _, is_prime_round n s r) ();
    match c with
    | inr b => mret b
    | inl _ => mret true
    end.

Definition generate_prime_candidate (length : Z) : M Z :=
  p ← getrandbits length;
  top ← lift (lshift 1 (length - 1));
  let p := Z.lor p (Z.lor top 1) in
  mret p.

Definition generate_prime_number (fuel : nat) (length : Z) : M Z :=
  let p := 4 in
  whileM fuel (λ p, b ← is_prime p 128; mret (negb b))
    (λ _, generate_prime_candidate length) p.

(** ** The key object *)

(** The attributes of an [RsaKeyPair].  In public-only mode [__init__]
    sets [e], [n] and [nbits] and returns; the others are then absent,
    and reading one raises [AttributeError]. *)
Record RsaKeyPair : Type := {
  key_only_pubkey : bool;
  key_e : Z;
  key_n : Z;
  key_nbits : Z;
  key_p : option Z;
  key_pbits : option Z;
  key_q : option Z;
  key_phi : option Z;
  key_d : option Z
}.

Definition attr (name : string) (a : option Z) : outcome Z :=
  match a with
  | Some v => Ret v
  | None => Raise (AttributeError name)
  end.

Definition _encrypt (self : RsaKeyPair) (msg : Z) : outcome Z :=
  if key_nbits self <=? bitcount msg then
    Raise (ValueError (msg_too_big (key_nbits self)))
  else pow msg (key_e self) (key_n self).

Definition _decrypt (self : RsaKeyPair) (cipher : Z) : M Z :=
  if 1023 <=? key_nbits self then
    r ← randint 10000000000000000000000000000000000000000000000
                10000000000000000000000000000000000000000000000000;
    s ← lift (pow r (key_e self) (key_n self));
    X ← lift (pymod (cipher * s) (key_n self));
    d ← lift (attr "d" (key_d self));
    Y ← lift (pow X d (key_n self));
    q ← lift (floordiv Y r);
    lift (pymod q (key_n self))
  else
    d ← lift (attr "d" (key_d self));
    lift (pow cipher d (key_n self)).

Definition decrypt (self : RsaKeyPair) (cipher : Z) : M pystr :=
  m ← _decrypt self cipher;
  msg ← lift (str (PyInt m));
  lift (numberToString (PyStr msg)).

Definition encrypt (self : RsaKeyPair) (msg : pyval) : M Z :=
  msg ← lift (str msg);
  toc ← lift (stringToNumber (PyStr msg));
  c ← lift (_encrypt self toc);
  if negb (key_only_pubkey self) then
    m ← _decrypt self c;
    if negb (m =? toc) then raise (ValueError not_same_after_decryption)
    else mret c
  else mret c.

Definition quick_test (self : RsaKeyPair) : M () :=
  d ← lift (attr "d" (key_d self));
  phi ← lift (attr "phi" (key_phi self));
  ed ← lift (pymod (key_e self * d) phi);
  if negb (ed =? 1) then raise (ValueError e_d_phi_mismatch)
  else
    let msg := 12 in
    cipher ← lift (_encrypt self msg);
    m ← _decrypt self cipher;
    if negb (m =? msg) then raise (ValueError quick_test_mismatch)
    else mret ().

(** The arguments of [__init__].  [None] and [0] are both false in
    [if p:] and [not e]. *)
Record init_args : Type := {
  arg_p : option Z;
  arg_q : option Z;
  arg_e : option Z;
  arg_n : option Z;
  arg_d : option Z;
  arg_keylength : Z;
  arg_ignore_warning : bool;
  arg_only_pubkey : bool
}.

Definition given (x : option Z) : option Z :=
  match x with
  | Some v => if v =? 0 then None else Some v
  | None => None
  end.

(** When [get_e] answers [None], [self.e] is [None] and the next use of
    it, [phi // None] in [get_d] or [None * d] in [quick_test], raises
    [TypeError]; nothing is drawn in between. *)
Definition __init__ (fuel : nat) (a : init_args) : M RsaKeyPair :=
  if (arg_keylength a <? 1024) && negb (arg_ignore_warning a) then
    raise (ValueError keylength_below_1024)
  else if arg_only_pubkey a then
    match given (arg_e a), given (arg_n a) with
    | Some e, Some n =>
        mret {| key_only_pubkey := true; key_e := e; key_n := n;
                key_nbits := bitcount n;
                key_p := None; key_pbits := None; key_q := None;
                key_phi := None; key_d := None |}
    | _, _ => raise (ValueError pubkey_needs_e_and_n)
    end
  else
    p ← match given (arg_p a) with
        | Some p => mret p
        | None => generate_prime_number fuel (arg_keylength a `div` 2)
        end;
    let pbits := bitcount p in
    let pcheck := p in
    q ← match given (arg_q a) with
        | Some q => mret q
        | None =>
            whileM fuel (λ pcheck, mret (pcheck =? p))
              (λ _, generate_prime_number fuel (arg_keylength a `div` 2))
              pcheck
        end;
    let phi := (p - 1) * (q - 1) in
    e ← match given (arg_e a) with
        | Some e => mret e
        | None =>
            match get_e phi with
            | Some e => mret e
            | None => raise TypeError
            end
        end;
    let n := match given (arg_n a) with Some n => n | None => p * q end in
    d ← match given (arg_d a) with
        | Some d => mret d
        | None => lift (get_d fuel phi e)
        end;
    let self := {| key_only_pubkey := false; key_e := e; key_n := n;
                   key_nbits := bitcount n;
                   key_p := Some p; key_pbits := Some pbits; key_q := Some q;
                   key_phi := Some phi; key_d := Some d |} in
    _ ← quick_test self;
    mret self.

(** ** [return_all] *)

(** [return_all]: the dict is a finite map from attribute names; its
    values are read in the order of the display, so the first attribute
    that is absent raises. *)
Definition return_all (self : RsaKeyPair) : outcome (gmap string Z) :=
  if key_only_pubkey self then
    Ret (<["e" := key_e self]> (<["n" := key_n self]>
          (<["nbits" := key_nbits self]> ∅)))
  else
    p ← attr "p" (key_p self);
    q ← attr "q" (key_q self);
    phi ← attr "phi" (key_phi self);
    d ← attr "d" (key_d self);
    Ret (<["p" := p]> (<["q" := q]> (<["e" := key_e self]>
          (<["phi" := phi]> (<["n" := key_n self]> (<["d" := d]>
            (<["nbits" := key_nbits self]> ∅))))))).

(** ** Reading digit strings (used to state what the codec does) *)

Definition is_digits (s : pystr) : Prop := Forall (λ c, 48 ≤ c ≤ 57) s.

(** The marker ['1421'] taken off the front, once, if it is there. *)
Definition strip_marker (s : pystr) : pystr :=
  if bool_decide (take 4 s = py "1421") then drop 4 s else s.

(** The consecutive groups of four characters; what is left over at the
    end (fewer than four) is dropped. *)
Fixpoint groups4 (s : pystr) : list pystr :=
  match s with
  | a :: b :: c :: d :: s' => [a; b; c; d] :: groups4 s'
  | _ => []
  end.

(** The four (or more) digits that [stringToNumber] writes for a
    character. *)
Definition char_digits (c : Z) : pystr := zfill 4 (decimal (ord c)).

(** The number of bits of [n]; 0 when [n <= 0]. *)
Definition bit_length (n : Z) : Z := if 0 <? n then Z.log2 n + 1 else 0.

(** The decimal string that [stringToNumber] builds before [int]. *)
Definition encoded (s : pystr) : pystr :=
  py "1421" ++ concat (char_digits <$> s).

(** One round of the loop of [get_d], with the fuel of the inner loop;
    [get_d_unfold] below shows [get_d] written with it. *)
Definition get_d_round (fuel : nat) (phi : Z)
    (s : (Z * Z) * (Z * Z)) : outcome ((Z * Z) * (Z * Z)) :=
  let '(t1, t2) := s in
  tb1 ← floordiv t1.1 t1.2;
  let tb2 := tb1 * t1.2 in
  let tb3 := tb1 * t2.2 in
  let td1 := t1.1 - tb2 in
  let td2 := t2.1 - tb3 in
  td2 ← while fuel (λ td2, td2 <? 0) (λ td2, Ret (td2 + phi)) td2;
  Ret ((t1.2, td1), (t2.2, td2)).

Definition get_d_going (s : (Z * Z) * (Z * Z)) : bool :=
  let '(t1, t2) := s in negb (t1.2 =? 1).

(** The blinding factor that [_decrypt] draws from a tape, and the tape
    it leaves. *)
Definition blinding_factor (t : tape) : Z :=
  10 ^ 46 + t 0%nat `mod` (10 ^ 49 + 1 - 10 ^ 46).

Definition tape_tail (t : tape) : tape := λ i, t (S i).

(** A small key, for examples: [RsaKeyPair(p=61, q=53)]. *)
Definition toy_args : init_args :=
  {| arg_p := Some 61; arg_q := Some 53; arg_e := None; arg_n := None;
     arg_d := None; arg_keylength := 2048; arg_ignore_warning := false;
     arg_only_pubkey := false |}.

Definition toy_key : RsaKeyPair :=
  {| key_only_pubkey := false; key_e := 7; key_n := 3233; key_nbits := 12;
     key_p := Some 61; key_pbits := Some 6; key_q := Some 53;
     key_phi := Some 3120; key_d := Some 1783 |}.

(** A public-only key with a 1024-bit modulus:
    [RsaKeyPair(e=65537, n=2**1023 + 1, only_pubkey=True)]. *)
Definition public_args : init_args :=
  {| arg_p := None; arg_q := None; arg_e := Some 65537;
     arg_n := Some (2 ^ 1023 + 1); arg_d := None; arg_keylength := 2048;
     arg_ignore_warning := false; arg_only_pubkey := true |}.

Definition public_key : RsaKeyPair :=
  {| key_only_pubkey := true; key_e := 65537; key_n := 2 ^ 1023 + 1;
     key_nbits := 1024;
     key_p := None; key_pbits := None; key_q := None;
     key_phi := None; key_d := None |}.

Definition zero_tape : tape := λ _, 0.

(** A key with negative exponents:
    [RsaKeyPair(p=61, q=53, e=-7, d=-1783)].  The product of the
    exponents is 1 modulo [phi], and [quick_test] passes with the modular
    inverses that [pow] takes. *)
Definition negative_args : init_args :=
  {| arg_p := Some 61; arg_q := Some 53; arg_e := Some (-7); arg_n := None;
     arg_d := Some (-1783); arg_keylength := 2048;
     arg_ignore_warning := false; arg_only_pubkey := false |}.

Definition negative_key : RsaKeyPair :=
  {| key_only_pubkey := false; key_e := -7; key_n := 3233; key_nbits := 12;
     key_p := Some 61; key_pbits := Some 6; key_q := Some 53;
     key_phi := Some 3120; key_d := Some (-1783) |}.

(** A public-only key with a negative exponent and a modulus of 1024
    bits, a multiple of 3:
    [RsaKeyPair(e=-1, n=2**1023 + 1, only_pubkey=True)]; and a tape on
    which [_decrypt] draws the blinding factor [10**46 + 2], a multiple
    of 3 too. *)
Definition negative_public_args : init_args :=
  {| arg_p := None; arg_q := None; arg_e := Some (-1);
     arg_n := Some (2 ^ 1023 + 1); arg_d := None; arg_keylength := 2048;
     arg_ignore_warning := false; arg_only_pubkey := true |}.

Definition negative_public_key : RsaKeyPair :=
  {| key_only_pubkey := true; key_e := -1; key_n := 2 ^ 1023 + 1;
     key_nbits := 1024;
     key_p := None; key_pbits := None; key_q := None;
     key_phi := None; key_d := None |}.

Definition two_tape : tape := λ _, 2.

(** A private key as the specification's data model has it: two
    distinct primes, their product, and exponents inverse to each other
    modulo [phi]. *)
Record proper_key (self : RsaKeyPair) (p q d : Z) : Prop := {
  proper_private : key_only_pubkey self = false;
  proper_p : Z.prime p;
  proper_q : Z.prime q;
  proper_distinct : p ≠ q;
  proper_n : key_n self = p * q;
  proper_nbits : key_nbits self = bitcount (key_n self);
  proper_d : key_d self = Some d;
  proper_e_nonneg : 0 ≤ key_e self;
  proper_d_nonneg : 0 ≤ d;
  proper_ed : (key_e self * d) `mod` ((p - 1) * (q - 1)) = 1
}.

(** What the blinded path of [_decrypt] computes from the plaintext [m]
    of its argument and the blinding factor [r], on such a key. *)
Definition unblinded (n m r : Z) : Z := (((m * r) `mod` n) `div` r) `mod` n.

(** A key of 1128 bits from two Mersenne primes, the exponents derived
    by the class: [RsaKeyPair(p=2**521 - 1, q=2**607 - 1)]; and a message
    of 74 characters, ['A' * 74]. *)
Definition mersenne_p : Z := 2 ^ 521 - 1.
Definition mersenne_q : Z := 2 ^ 607 - 1.

Definition mersenne_args : init_args :=
  {| arg_p := Some mersenne_p; arg_q := Some mersenne_q; arg_e := None;
     arg_n := None; arg_d := None; arg_keylength := 2048;
     arg_ignore_warning := false; arg_only_pubkey := false |}.

Definition mersenne_phi : Z :=
  Eval vm_compute in (mersenne_p - 1) * (mersenne_q - 1).

Definition mersenne_d : Z :=
  Eval vm_compute in
    match get_d 100 mersenne_phi 13 with Ret d => d | _ => 0 end.

Definition mersenne_key : RsaKeyPair :=
  {| key_only_pubkey := false; key_e := 13;
     key_n := mersenne_p * mersenne_q;
     key_nbits := bitcount (mersenne_p * mersenne_q);
     key_p := Some mersenne_p; key_pbits := Some (bitcount mersenne_p);
     key_q := Some mersenne_q;
     key_phi := Some ((mersenne_p - 1) * (mersenne_q - 1));
     key_d := Some mersenne_d |}.

Definition long_message : pystr := replicate 74 65.

(** Modular powers on machine words, to run the model on such a key;
    [fast_powmod_spec] below relates them to [Z.pow]. *)
Fixpoint bz_powmod_pos (b : bigZ) (e : positive) (m : bigZ) : bigZ :=
  match e with
  | xH => BigZ.modulo b m
  | xO e' =>
      let z := bz_powmod_pos b e' m in
      BigZ.modulo (BigZ.mul z z) m
  | xI e' =>
      let z := bz_powmod_pos b e' m in
      BigZ.modulo (BigZ.mul (BigZ.modulo (BigZ.mul z z) m) b) m
  end.

Definition fast_powmod (b e m : Z) : Z :=
  match e with
  | Zpos e' => BigZ.to_Z (bz_powmod_pos (BigZ.of_Z b) e' (BigZ.of_Z m))
  | Z0 => 1 `mod` m
  | Zneg _ => 0
  end.

(** ** Further definitions, to state more properties *)

(** The arguments of [RsaKeyPair(e=e, n=n, only_pubkey=True)], with the two
    arguments of the warning. *)
Definition public_args_of (e n keylength : Z) (ignore_warning : bool)
    : init_args :=
  {| arg_p := None; arg_q := None; arg_e := Some e; arg_n := Some n;
     arg_d := None; arg_keylength := keylength;
     arg_ignore_warning := ignore_warning; arg_only_pubkey := true |}.

(** Primality by trial division, for small numbers. *)
Definition trial_prime (p : Z) : bool :=
  (1 <? p) && forallb (λ d, negb (p `mod` d =? 0)) (seqZ 2 (p - 2)).

(** The public part of [toy_key]. *)
Definition toy_public_key : RsaKeyPair :=
  {| key_only_pubkey := true; key_e := 7; key_n := 3233; key_nbits := 12;
     key_p := None; key_pbits := None; key_q := None;
     key_phi := None; key_d := None |}.

(** The base that round [i] of [is_prime n] draws from the tape. *)
Definition drawn_base (n : Z) (t : tape) (i : nat) : Z :=
  2 + t i `mod` (n - 1 - 2).

(** [n] passes the Miller-Rabin test to the base [a]. *)
Definition strong_probable_prime (n a : Z) : Prop :=
  ∃ s r, 1 ≤ s ∧ 0 ≤ r ∧ n - 1 = 2 ^ s * r ∧ Z.odd r = true ∧
         (a ^ r `mod` n = 1 ∨
          ∃ j, 0 ≤ j < s ∧ a ^ (2 ^ j * r) `mod` n = n - 1).

(** Two primes of 833 and 536 bits (Proth numbers), the key that the
    class derives from them,
    [RsaKeyPair(p=7 * 2**830 + 1, q=3 * 2**534 + 1)], of 1369 bits, and
    messages of 92 and 90 characters. *)
Definition proth_p : Z := 7 * 2 ^ 830 + 1.
Definition proth_q : Z := 3 * 2 ^ 534 + 1.

Definition proth_args : init_args :=
  {| arg_p := Some proth_p; arg_q := Some proth_q; arg_e := None;
     arg_n := None; arg_d := None; arg_keylength := 2048;
     arg_ignore_warning := false; arg_only_pubkey := false |}.

Definition proth_d : Z :=
  Eval vm_compute in
    match get_d 100 ((proth_p - 1) * (proth_q - 1)) 5 with
    | Ret d => d
    | _ => 0
    end.

Definition proth_key : RsaKeyPair :=
  {| key_only_pubkey := false; key_e := 5;
     key_n := proth_p * proth_q;
     key_nbits := bitcount (proth_p * proth_q);
     key_p := Some proth_p; key_pbits := Some (bitcount proth_p);
     key_q := Some proth_q;
     key_phi := Some ((proth_p - 1) * (proth_q - 1));
     key_d := Some proth_d |}.

Definition message_92 : pystr := replicate 92 65.

Definition message_90 : pystr := replicate 90 65.

(** The tape on which [_decrypt] draws the largest blinding factor. *)
Definition top_tape : tape := λ _, 10 ^ 49 - 10 ^ 46.

(** * Properties *)

(** ** Loops *)

Lemma while_more {St : Type} (cond : St → bool) (body : St → outcome St)
    (f f' : nat) (s r : St) :
  (f ≤ f')%nat → while f cond body s = Ret r → while f' cond body s = Ret r.
Proof.
  revert f' s. induction f as [|f IH]; intros f' s Hle; [done|].
  destruct f' as [|f']; [lia|]. cbn.
  destruct (cond s); [|done].
  destruct (body s) as [s'| |]; cbn; try done.
  apply IH. lia.
Qed.

Lemma while_ret_S {St R : Type} (fuel : nat) (cond : St → bool)
    (body : St → outcome (St + R)) (s : St) :
  while_ret (S fuel) cond body s
  = if cond s then
      c ← body s;
      match c with
      | inl s' => while_ret fuel cond body s'
      | inr r => Ret (inr r)
      end
    else Ret (inl s).
Proof. reflexivity. Qed.

(** A loop ends when every round succeeds, keeps an invariant and makes a
    measure of the loop's variables go down. *)
Lemma while_measure {St : Type} (cond : St → bool) (body : St → outcome St)
    (inv : St → Prop) (mu : St → nat) :
  (∀ s, inv s → cond s = true →
        ∃ s', body s = Ret s' ∧ inv s' ∧ (mu s' < mu s)%nat) →
  ∀ (f : nat) (s : St), inv s → (mu s < f)%nat →
    ∃ r, while f cond body s = Ret r ∧ inv r ∧ cond r = false.
Proof.
  intros Hstep f. induction f as [|f IH]; intros s Hinv Hmu; [lia|].
  cbn. destruct (cond s) eqn:Hc.
  - destruct (Hstep s Hinv Hc) as (s' & -> & Hinv' & Hlt). cbn.
    apply IH; [done|lia].
  - by exists s.
Qed.

(** ** Decimal strings *)

Lemma str_digits_acc (f : nat) (n : Z) (acc : pystr) :
  str_digits f n acc = str_digits f n [] ++ acc.
Proof.
  revert n acc. induction f as [|f IH]; intros n acc; [done|].
  cbn. destruct (n <? 10); [done|].
  rewrite (IH _ (_ :: acc)), (IH _ [_]). by rewrite <- app_assoc.
Qed.

Lemma str_digits_fuel (f1 f2 : nat) (n : Z) (acc : pystr) :
  0 ≤ n < 2 ^ Z.of_nat (S f1) → n < 2 ^ Z.of_nat (S f2) →
  str_digits (S f1) n acc = str_digits (S f2) n acc.
Proof.
  revert f2 n acc. induction f1 as [|f1 IH]; intros f2 n acc H1 H2.
  - assert (n < 10) by (change (2 ^ Z.of_nat 1) with 2 in H1; lia).
    cbn. by destruct (Z.ltb_spec n 10); [|lia].
  - cbn [str_digits]. destruct (Z.ltb_spec n 10) as [|Hn]; [done|].
    destruct f2 as [|f2].
    { change (2 ^ Z.of_nat 1) with 2 in H2. lia. }
    assert (Hdiv : 0 ≤ n `div` 10 ∧ 2 * (n `div` 10) ≤ n).
    { pose proof (Z.div_pos n 10). pose proof (Z.mul_div_le n 10). lia. }
    apply IH.
    + rewrite (Nat2Z.inj_succ (S f1)), Z.pow_succ_r in H1 by lia. lia.
    + rewrite (Nat2Z.inj_succ (S f2)), Z.pow_succ_r in H2 by lia. lia.
Qed.

Lemma log2_fuel (n : Z) : 0 ≤ n → n < 2 ^ Z.of_nat (S (Z.to_nat (Z.log2 n))).
Proof.
  intros Hn. rewrite Nat2Z.inj_succ, Z2Nat.id by apply Z.log2_nonneg.
  destruct (Z.eq_dec n 0) as [->|]; [done|].
  apply Z.log2_spec. lia.
Qed.

Lemma str_nonneg_small (n : Z) :
  0 ≤ n < 10 → str_nonneg n = [digit_char n].
Proof.
  intros Hn. unfold str_nonneg. cbn [str_digits].
  destruct (Z.ltb_spec n 10); [|lia]. by rewrite Z.mod_small.
Qed.

Lemma str_nonneg_step (n : Z) :
  10 ≤ n → str_nonneg n = str_nonneg (n `div` 10) ++ [digit_char (n `mod` 10)].
Proof.
  intros Hn. unfold str_nonneg at 1. cbn [str_digits].
  destruct (Z.ltb_spec n 10); [lia|].
  rewrite str_digits_acc. f_equal.
  assert (Hdiv : 0 < n `div` 10 ∧ 2 * (n `div` 10) ≤ n).
  { pose proof (Z.div_str_pos n 10). pose proof (Z.mul_div_le n 10). lia. }
  pose proof (log2_fuel n) as Hf. pose proof (log2_fuel (n `div` 10)) as Hf'.
  destruct (Z.to_nat (Z.log2 n)) as [|f] eqn:Hlog.
  { change (2 ^ Z.of_nat 1) with 2 in Hf. lia. }
  unfold str_nonneg. apply str_digits_fuel; [|lia].
  rewrite (Nat2Z.inj_succ (S f)), Z.pow_succ_r in Hf by lia. lia.
Qed.

Lemma digits_value_snoc (s : pystr) (c : Z) :
  digits_value (s ++ [c]) = 10 * digits_value s + (c - 48).
Proof. unfold digits_value. by rewrite foldl_app. Qed.

Lemma digits_value_nonneg (s : pystr) : is_digits s → 0 ≤ digits_value s.
Proof.
  induction s as [|c s IH] using rev_ind; intros Hs; unfold is_digits in *; [done|].
  apply Forall_app in Hs as [Hs Hc]. rewrite Forall_singleton in Hc; simpl in Hc.
  rewrite digits_value_snoc. specialize (IH Hs). lia.
Qed.

Lemma digits_value_pos (c : Z) (s : pystr) :
  is_digits (c :: s) → c ≠ 48 → 0 < digits_value (c :: s).
Proof.
  induction s as [|c' s IH] using rev_ind; intros Hs Hc; unfold is_digits in *.
  - rewrite Forall_singleton in Hs; simpl in Hs. cbn. lia.
  - rewrite app_comm_cons in Hs |- *.
    apply Forall_app in Hs as [Hs Hc']. rewrite Forall_singleton in Hc'; simpl in Hc'.
    rewrite digits_value_snoc. specialize (IH Hs Hc). lia.
Qed.

(** [str] undoes [int] on a digit string without a leading zero. *)
Lemma str_nonneg_digits_value (c : Z) (s : pystr) :
  is_digits (c :: s) → c ≠ 48 → str_nonneg (digits_value (c :: s)) = c :: s.
Proof.
  induction s as [|c' s IH] using rev_ind; intros Hs Hc; unfold is_digits in *.
  - rewrite Forall_singleton in Hs; simpl in Hs.
    rewrite str_nonneg_small; cbn; [|lia]. unfold digit_char. f_equal. lia.
  - rewrite app_comm_cons in Hs |- *.
    apply Forall_app in Hs as [Hs Hc']. rewrite Forall_singleton in Hc'; simpl in Hc'.
    pose proof (digits_value_pos c s Hs Hc) as Hpos.
    rewrite digits_value_snoc, str_nonneg_step by lia.
    replace ((10 * digits_value (c :: s) + (c' - 48)) `div` 10)
      with (digits_value (c :: s))
      by (apply (Z.div_unique _ 10 _ (c' - 48)); lia).
    replace ((10 * digits_value (c :: s) + (c' - 48)) `mod` 10)
      with (c' - 48)
      by (apply (Z.mod_unique _ 10 (digits_value (c :: s))); lia).
    rewrite IH by done. unfold digit_char. do 2 f_equal. lia.
Qed.

Lemma decimal_ind (P : Z → Prop) :
  (∀ n, 0 ≤ n < 10 → P n) →
  (∀ n, 10 ≤ n → P (n `div` 10) → P n) →
  ∀ n, 0 ≤ n → P n.
Proof.
  intros Hsmall Hstep n. induction (Z.lt_wf 0 n) as [n _ IH]. intros Hn.
  destruct (Z_lt_le_dec n 10) as [|Hge]; [apply Hsmall; lia|].
  apply Hstep; [done|].
  pose proof (Z.div_pos n 10). pose proof (Z.mul_div_le n 10).
  apply IH; lia.
Qed.

Lemma str_nonneg_is_digits (n : Z) : 0 ≤ n → is_digits (str_nonneg n).
Proof.
  revert n. apply decimal_ind; intros n Hn.
  - rewrite str_nonneg_small by done. apply Forall_singleton.
    unfold digit_char. lia.
  - intros IH. rewrite str_nonneg_step by done.
    apply Forall_app. split; [done|]. apply Forall_singleton.
    pose proof (Z.mod_pos_bound n 10). unfold digit_char. lia.
Qed.

Lemma str_nonneg_nonempty (n : Z) : 0 ≤ n → str_nonneg n ≠ [].
Proof.
  intros Hn. destruct (Z_lt_le_dec n 10).
  - by rewrite str_nonneg_small.
  - rewrite str_nonneg_step by done. by destruct (str_nonneg (n `div` 10)).
Qed.

(** [int] undoes [str]. *)
Lemma digits_value_str_nonneg (n : Z) :
  0 ≤ n → digits_value (str_nonneg n) = n.
Proof.
  revert n. apply decimal_ind; intros n Hn.
  - rewrite str_nonneg_small by done. unfold digit_char. cbn. lia.
  - intros IH. rewrite str_nonneg_step, digits_value_snoc, IH by done.
    unfold digit_char. pose proof (Z.div_mod n 10). lia.
Qed.

Lemma str_nonneg_length_le (k : nat) (n : Z) :
  0 ≤ n < 10 ^ Z.of_nat (S k) → (length (str_nonneg n) ≤ S k)%nat.
Proof.
  revert n. induction k as [|k IH]; intros n Hn.
  - change (10 ^ Z.of_nat 1) with 10 in Hn. by rewrite str_nonneg_small.
  - destruct (Z_lt_le_dec n 10).
    + rewrite str_nonneg_small by lia. cbn. lia.
    + rewrite str_nonneg_step, length_app by done. cbn [length].
      rewrite (Nat2Z.inj_succ (S k)), Z.pow_succ_r in Hn by lia.
      pose proof (Z.div_pos n 10).
      assert (n `div` 10 < 10 ^ Z.of_nat (S k))
        by (apply Z.div_lt_upper_bound; lia).
      specialize (IH (n `div` 10)). lia.
Qed.

Lemma str_nonneg_length_gt (k : nat) (n : Z) :
  10 ^ Z.of_nat k ≤ n → (k < length (str_nonneg n))%nat.
Proof.
  revert n. induction k as [|k IH]; intros n Hn.
  - change (10 ^ Z.of_nat 0) with 1 in Hn.
    pose proof (str_nonneg_nonempty n ltac:(lia)).
    destruct (str_nonneg n); [done|cbn; lia].
  - rewrite Nat2Z.inj_succ, Z.pow_succ_r in Hn by lia.
    assert (0 < 10 ^ Z.of_nat k) by (apply Z.pow_pos_nonneg; lia).
    rewrite str_nonneg_step, length_app by lia. cbn [length].
    assert (10 ^ Z.of_nat k ≤ n `div` 10)
      by (apply Z.div_le_lower_bound; lia).
    specialize (IH (n `div` 10)). lia.
Qed.

Lemma leading_digits_all (s : pystr) :
  is_digits s → leading_digits s = length s.
Proof.
  induction 1 as [|c s Hc _ IH]; [done|]. cbn. unfold is_digit_char.
  destruct (Z.leb_spec 48 c); [|lia]. destruct (Z.leb_spec c 57); [|lia].
  cbn. by rewrite IH.
Qed.

Lemma forallb_is_digits (s : pystr) :
  is_digits s → forallb is_digit_char s = true.
Proof.
  intros Hs. apply forallb_forall. intros x Hx%list_elem_of_In.
  unfold is_digits in Hs. rewrite Forall_forall in Hs.
  specialize (Hs x Hx). unfold is_digit_char. simpl in Hs. lia.
Qed.

Lemma int_of_str_unsigned (s : pystr) :
  is_digits s → int_of_str s = int_of_digits s.
Proof.
  intros Hs. destruct s as [|c s]; [done|].
  pose proof (Forall_inv Hs) as Hc; simpl in Hc. unfold int_of_str.
  destruct (Z.eqb_spec c 45); [lia|]. by destruct (Z.eqb_spec c 43); [lia|].
Qed.

(** [int] of a string of digits: its value up to the limit, an error
    beyond. *)
Lemma int_of_digits_ok (s : pystr) :
  is_digits s → s ≠ [] → (length s ≤ max_str_digits)%nat →
  int_of_digits s = Ret (digits_value s).
Proof.
  intros Hs Hne Hlen.
  unfold int_of_digits. rewrite leading_digits_all by done.
  destruct (Nat.ltb_spec max_str_digits (length s)); [lia|].
  rewrite forallb_is_digits by done. by destruct s.
Qed.

Lemma int_of_str_digits (s : pystr) :
  is_digits s → s ≠ [] → (length s ≤ max_str_digits)%nat →
  int_of_str s = Ret (digits_value s).
Proof.
  intros Hs Hne Hlen. rewrite int_of_str_unsigned by done.
  by apply int_of_digits_ok.
Qed.

Lemma int_of_str_limit (s : pystr) :
  is_digits s → (max_str_digits < length s)%nat →
  int_of_str s = Raise (ValueError int_digits_limit).
Proof.
  intros Hs Hlen. rewrite int_of_str_unsigned by done.
  unfold int_of_digits. rewrite leading_digits_all by done.
  by destruct (Nat.ltb_spec max_str_digits (length s)); [|lia].
Qed.

(** [str] of an integer: its digits below [10 ^ 4300], an error from
    there on. *)
Lemma str_int_small (z : Z) :
  Z.abs z < 10 ^ Z.of_nat max_str_digits → str_int z = Ret (decimal z).
Proof.
  intros Hz. unfold str_int.
  pose proof (str_nonneg_length_le (pred max_str_digits) (Z.abs z)) as Hlen.
  destruct (Nat.ltb_spec max_str_digits (length (str_nonneg (Z.abs z))));
    [|done].
  change (S (pred max_str_digits)) with max_str_digits in Hlen. lia.
Qed.

Lemma str_int_limit (z : Z) :
  10 ^ Z.of_nat max_str_digits ≤ Z.abs z →
  str_int z = Raise (ValueError str_digits_limit).
Proof.
  intros Hz. unfold str_int.
  pose proof (str_nonneg_length_gt max_str_digits (Z.abs z) Hz).
  by destruct (Nat.ltb_spec max_str_digits (length (str_nonneg (Z.abs z))));
    [|lia].
Qed.

Lemma str_int_codepoint (c : Z) :
  is_codepoint c → str_int (ord c) = Ret (decimal c).
Proof.
  intros Hc. unfold str_int, ord.
  pose proof (str_nonneg_length_le 6 (Z.abs c)) as Hlen.
  destruct (Nat.ltb_spec max_str_digits (length (str_nonneg (Z.abs c))));
    [|done].
  unfold is_codepoint in Hc. unfold max_str_digits in *.
  change (10 ^ Z.of_nat 7) with 10000000 in Hlen. lia.
Qed.

Lemma digits_value_zeros (k : nat) (s : pystr) :
  digits_value (replicate k 48 ++ s) = digits_value s.
Proof.
  unfold digits_value. rewrite foldl_app. f_equal.
  induction k as [|k IH]; [done|]. cbn. exact IH.
Qed.

Lemma zfill_digits (w : nat) (s : pystr) :
  is_digits s → zfill w s = replicate (w - length s) 48 ++ s.
Proof.
  intros Hs. destruct s as [|c s]; [done|].
  pose proof (Forall_inv Hs) as Hc; simpl in Hc. unfold zfill.
  destruct (Z.eqb_spec c 45); [lia|]. by destruct (Z.eqb_spec c 43); [lia|].
Qed.

(** What [stringToNumber] writes for a character: its code point in
    decimal, filled with zeros up to four digits. *)
Lemma char_digits_spec (c : Z) :
  0 ≤ c →
  is_digits (char_digits c) ∧ digits_value (char_digits c) = c ∧
  length (char_digits c) = (4 `max` length (str_nonneg c))%nat.
Proof.
  intros Hc. unfold char_digits, ord, decimal.
  destruct (Z.ltb_spec c 0); [lia|].
  pose proof (str_nonneg_is_digits c Hc) as Hd.
  rewrite zfill_digits by done. split_and!.
  - apply Forall_app. split; [|done]. by apply Forall_replicate.
  - by rewrite digits_value_zeros, digits_value_str_nonneg.
  - rewrite length_app, length_replicate. lia.
Qed.

Lemma char_digits_length_4 (c : Z) :
  0 ≤ c < 10000 → length (char_digits c) = 4%nat.
Proof.
  intros Hc. destruct (char_digits_spec c) as (_ & _ & ->); [lia|].
  pose proof (str_nonneg_length_le 3 c). lia.
Qed.

Lemma char_digits_length_5 (c : Z) :
  10000 ≤ c → (5 ≤ length (char_digits c))%nat.
Proof.
  intros Hc. destruct (char_digits_spec c) as (_ & _ & ->); [lia|].
  pose proof (str_nonneg_length_gt 4 c). lia.
Qed.

Lemma digits_value_bound (s : pystr) :
  is_digits s → 0 ≤ digits_value s < 10 ^ Z.of_nat (length s).
Proof.
  induction s as [|c s IH] using rev_ind; intros Hs; unfold is_digits in *.
  - cbn. lia.
  - apply Forall_app in Hs as [Hs Hc]. rewrite Forall_singleton in Hc.
    rewrite digits_value_snoc, length_app, Nat2Z.inj_add. cbn [length].
    rewrite Z.pow_add_r by lia. specialize (IH Hs).
    change (10 ^ Z.of_nat 1) with 10. lia.
Qed.

(** ** The codec *)

Lemma encode_loop (s ns : pystr) :
  Forall is_codepoint s →
  for_in s (λ c ns, d ← str_int (ord c); Ret (ns ++ zfill 4 d)) ns
  = Ret (ns ++ concat (char_digits <$> s)).
Proof.
  intros Hs. revert ns. induction Hs as [|c s Hc _ IH]; intros ns; cbn.
  - by rewrite app_nil_r.
  - rewrite str_int_codepoint by done. cbn. rewrite IH.
    by rewrite <- app_assoc.
Qed.

Lemma marker_eq : py "1421" = [49; 52; 50; 49].
Proof. reflexivity. Qed.

Lemma encoded_is_digits (s : pystr) :
  Forall (λ c, 0 ≤ c) s → is_digits (encoded s).
Proof.
  intros Hs. apply Forall_app. split.
  - rewrite marker_eq. repeat (constructor; [simpl; lia|]). constructor.
  - apply Forall_concat, Forall_fmap. eapply Forall_impl; [exact Hs|].
    intros c Hc. by apply char_digits_spec.
Qed.

Lemma codepoint_nonneg (s : pystr) :
  Forall is_codepoint s → Forall (λ c, 0 ≤ c) s.
Proof.
  intros Hs. eapply Forall_impl; [exact Hs|]. unfold is_codepoint. simpl. lia.
Qed.

(** [stringToNumber] on a string: the value of the digits written, as
    long as [int] takes that many. *)
Lemma stringToNumber_value (s : pystr) :
  Forall is_codepoint s → (length (encoded s) ≤ max_str_digits)%nat →
  stringToNumber (PyStr s) = Ret (digits_value (encoded s)).
Proof.
  intros Hs Hlen. unfold stringToNumber. cbn [str mbind outcome_bind].
  rewrite encode_loop by done. cbn [mbind outcome_bind].
  apply int_of_str_digits; [by apply encoded_is_digits, codepoint_nonneg|done|done].
Qed.

Lemma stringToNumber_limit (s : pystr) :
  Forall is_codepoint s → (max_str_digits < length (encoded s))%nat →
  stringToNumber (PyStr s) = Raise (ValueError int_digits_limit).
Proof.
  intros Hs Hlen. unfold stringToNumber. cbn [str mbind outcome_bind].
  rewrite encode_loop by done. cbn [mbind outcome_bind].
  apply int_of_str_limit; [by apply encoded_is_digits, codepoint_nonneg|done].
Qed.

Lemma decimal_encoded (s : pystr) :
  Forall (λ c, 0 ≤ c) s → decimal (digits_value (encoded s)) = encoded s.
Proof.
  intros Hs. pose proof (encoded_is_digits s Hs) as Hd.
  pose proof (digits_value_nonneg _ Hd). unfold decimal.
  destruct (Z.ltb_spec (digits_value (encoded s)) 0); [lia|].
  by apply (str_nonneg_digits_value 49).
Qed.

(** A string of characters below 10000 is written with four digits for
    each. *)
Lemma below_10000_codepoint (s : pystr) :
  Forall (λ c, 0 ≤ c < 10000) s → Forall is_codepoint s.
Proof.
  intros Hs. eapply Forall_impl; [exact Hs|]. unfold is_codepoint. simpl. lia.
Qed.

Lemma encoded_length (s : pystr) :
  Forall (λ c, 0 ≤ c < 10000) s → length (encoded s) = (4 + 4 * length s)%nat.
Proof.
  intros Hs. unfold encoded. rewrite length_app. f_equal.
  induction Hs as [|c s Hc _ IH]; [done|]. cbn [fmap list_fmap concat].
  rewrite length_app, char_digits_length_4, IH by done. cbn [length]. lia.
Qed.

Lemma groups4_concat (gs : list pystr) :
  Forall (λ g, length g = 4%nat) gs → groups4 (concat gs) = gs.
Proof.
  induction 1 as [|g gs Hg _ IH]; [done|].
  destruct g as [|a [|b [|c [|d [|]]]]]; try done. cbn. by rewrite IH.
Qed.

Lemma groups4_spec (s : pystr) :
  ∃ rest, s = concat (groups4 s) ++ rest ∧ (length rest < 4)%nat ∧
          Forall (λ g, length g = 4%nat) (groups4 s).
Proof.
  induction s as [s IH] using (induction_ltof1 _ length). unfold ltof in IH.
  destruct s as [|a [|b [|c [|d s]]]];
    try (eexists; split_and!; [reflexivity|cbn; lia|constructor]).
  destruct (IH s) as (rest & Heq & Hlen & Hall); [cbn; lia|].
  exists rest. cbn [groups4 concat]. split_and!; [|done|by constructor].
  cbn. by rewrite <- Heq.
Qed.

Lemma length_concat_4 (gs : list pystr) :
  Forall (λ g, length g = 4%nat) gs →
  length (concat gs) = (4 * length gs)%nat.
Proof.
  induction 1 as [|g gs Hg _ IH]; [done|].
  cbn [concat length]. rewrite length_app, IH, Hg. lia.
Qed.

Lemma groups4_length (s : pystr) :
  Z.of_nat (length (groups4 s)) = Z.of_nat (length s) `div` 4.
Proof.
  destruct (groups4_spec s) as (rest & Heq & Hlen & Hall).
  rewrite Heq at 2. rewrite length_app, (length_concat_4 _ Hall).
  apply (Z.div_unique _ 4 _ (Z.of_nat (length rest))); lia.
Qed.

Lemma strip_marker_slice (msg : pystr) :
  (if bool_decide (slice msg 0 4 = py "1421") then drop 4 msg else msg)
  = strip_marker msg.
Proof. done. Qed.

Lemma strip_marker_is_digits (s : pystr) :
  is_digits s → is_digits (strip_marker s).
Proof.
  intros Hs. unfold strip_marker. case_bool_decide; [|done]. by apply Forall_drop.
Qed.

Lemma chr_ok (i : Z) : 0 ≤ i < 1114112 → chr i = Ret i.
Proof.
  intros Hi. unfold chr.
  destruct (Z.leb_spec 0 i); [|lia]. by destruct (Z.ltb_spec i 1114112); [|lia].
Qed.

(** The decoding loop reads one group of four digits at every round. *)
Lemma decode_loop (gs : list pystr) (pre rest acc : pystr) (k : Z) :
  Forall (λ g, length g = 4%nat ∧ is_digits g) gs →
  Z.of_nat (length pre) = k * 4 →
  for_in (seqZ k (Z.of_nat (length gs)))
    (λ n cs,
       i ← int_of_str (slice (pre ++ concat gs ++ rest) (n * 4) (n * 4 + 4));
       c ← chr i;
       Ret (cs ++ [c]))
    acc
  = Ret (acc ++ (digits_value <$> gs)).
Proof.
  intros Hgs. revert pre acc k.
  induction Hgs as [|g gs [Hlen Hd] _ IH]; intros pre acc k Hpre.
  - cbn. by rewrite app_nil_r.
  - cbn [length]. rewrite seqZ_cons by lia. cbn [for_in].
    assert (Hslice : slice (pre ++ concat (g :: gs) ++ rest) (k * 4) (k * 4 + 4) = g).
    { unfold slice. replace (Z.to_nat (k * 4)) with (length pre) by lia.
      rewrite drop_app_length. replace (Z.to_nat (k * 4 + 4 - k * 4)) with (length g) by lia.
      cbn [concat]. rewrite <- app_assoc. by rewrite take_app_length. }
    rewrite Hslice, int_of_str_digits;
      [|done|by destruct g|unfold max_str_digits; lia].
    pose proof (digits_value_bound g Hd) as Hb. rewrite Hlen in Hb.
    change (10 ^ Z.of_nat 4) with 10000 in Hb.
    cbn [mbind outcome_bind]. rewrite chr_ok by lia. cbn [mbind outcome_bind].
    rewrite Nat2Z.inj_succ, Z.pred_succ.
    specialize (IH (pre ++ g) (acc ++ [digits_value g]) (Z.succ k)).
    cbn [concat fmap list_fmap] in *. rewrite <- !app_assoc in IH. rewrite <- !app_assoc.
    rewrite IH; [done|]. rewrite length_app. lia.
Qed.

(** What [numberToString] answers on a string of digits. *)
Lemma numberToString_digits (v : pyval) (ds : pystr) :
  str v = Ret ds → is_digits ds →
  numberToString v = Ret (digits_value <$> groups4 (strip_marker ds)).
Proof.
  intros Hv Hd. unfold numberToString. rewrite Hv. cbn [mbind outcome_bind].
  rewrite strip_marker_slice.
  apply strip_marker_is_digits in Hd.
  destruct (groups4_spec (strip_marker ds)) as (rest & Heq & Hlen & Hall).
  unfold range. rewrite Z.sub_0_r, <- groups4_length.
  assert (Hgs : Forall (λ g, length g = 4%nat ∧ is_digits g)
                  (groups4 (strip_marker ds))).
  { rewrite Heq in Hd. apply Forall_app in Hd as [Hd _].
    unfold is_digits in Hd. rewrite Forall_concat in Hd.
    rewrite Forall_forall in Hall, Hd |- *. intros g Hg.
    split; [by apply Hall|by apply Hd]. }
  pose proof (decode_loop _ [] rest [] 0 Hgs eq_refl) as Hloop.
  cbn [app] in Hloop. by rewrite <- Heq in Hloop.
Qed.

Lemma numberToString_int (n : Z) :
  0 ≤ n < 10 ^ Z.of_nat max_str_digits →
  numberToString (PyInt n)
  = Ret (digits_value <$> groups4 (strip_marker (decimal n))).
Proof.
  intros Hn. apply numberToString_digits.
  - cbn [str]. apply str_int_small. lia.
  - unfold decimal. destruct (Z.ltb_spec n 0); [lia|].
    by apply str_nonneg_is_digits.
Qed.

(** Beyond the limit [str] raises and nothing is decoded. *)
Lemma numberToString_limit (n : Z) :
  10 ^ Z.of_nat max_str_digits ≤ Z.abs n →
  numberToString (PyInt n) = Raise (ValueError str_digits_limit).
Proof.
  intros Hn. unfold numberToString. cbn [str]. by rewrite str_int_limit.
Qed.

Lemma decode_encoded (s : pystr) :
  Forall (λ c, 0 ≤ c < 10000) s →
  digits_value <$> groups4 (strip_marker (encoded s)) = s.
Proof.
  intros Hs.
  assert (strip_marker (encoded s) = concat (char_digits <$> s)) as -> by done.
  rewrite groups4_concat.
  - induction Hs as [|c s Hc _ IH]; [done|]. cbn [fmap list_fmap].
    destruct (char_digits_spec c) as (_ & -> & _); [lia|]. f_equal. exact IH.
  - apply Forall_fmap. eapply Forall_impl; [exact Hs|].
    intros c Hc. by apply char_digits_length_4.
Qed.

Lemma encoded_value_bound (s : pystr) :
  Forall (λ c, 0 ≤ c) s → (length (encoded s) ≤ max_str_digits)%nat →
  0 ≤ digits_value (encoded s) < 10 ^ Z.of_nat max_str_digits.
Proof.
  intros Hs Hlen.
  pose proof (digits_value_bound _ (encoded_is_digits s Hs)) as Hb.
  split; [lia|]. eapply Z.lt_le_trans; [apply Hb|].
  apply Z.pow_le_mono_r; lia.
Qed.

(** C2, as the specification states it, fails: on a string of 1075
    characters below 10000 [stringToNumber] raises, since [int] takes
    no more than 4300 digits. *)
Lemma codec_round_trip_limit :
  Forall (λ c, 0 ≤ c < 10000) (replicate 1075 65) ∧
  stringToNumber (PyStr (replicate 1075 65))
  = Raise (ValueError int_digits_limit).
Proof.
  assert (Hs : Forall (λ c, 0 ≤ c < 10000) (replicate 1075 65))
    by (apply Forall_replicate; lia).
  split; [done|]. apply stringToNumber_limit.
  - by apply below_10000_codepoint.
  - rewrite encoded_length, length_replicate by done.
    unfold max_str_digits. lia.
Qed.

(** C2, amended.  The codec round-trips up to 1074 characters: for every
    string [s] of at most 1074 characters, all with a code point below
    10000, [stringToNumber s] returns an integer [v] and
    [numberToString v] returns [s] (the empty string and characters whose
    code point is filled with zeros included); on a longer string of such
    characters [stringToNumber] raises the [ValueError] of [int]. *)
Theorem codec_round_trip (s : pystr) :
  Forall (λ c, 0 ≤ c < 10000) s →
  ((length s ≤ 1074)%nat →
   ∃ v, stringToNumber (PyStr s) = Ret v ∧ numberToString (PyInt v) = Ret s) ∧
  ((1075 ≤ length s)%nat →
   stringToNumber (PyStr s) = Raise (ValueError int_digits_limit)).
Proof.
  intros Hs.
  pose proof (below_10000_codepoint s Hs) as Hcp.
  pose proof (codepoint_nonneg s Hcp) as Hnn.
  pose proof (encoded_length s Hs) as Hlen.
  split; intros Hl.
  - assert (Hle : (length (encoded s) ≤ max_str_digits)%nat)
      by (unfold max_str_digits; lia).
    exists (digits_value (encoded s)). split; [by apply stringToNumber_value|].
    rewrite numberToString_int by (by apply encoded_value_bound).
    rewrite decimal_encoded by done. f_equal. by apply decode_encoded.
  - apply stringToNumber_limit; [done|]. unfold max_str_digits. lia.
Qed.

Lemma codec_round_trip_witness :
  (Forall (λ c, 0 ≤ c < 10000) (py "Hello, RSA!") ∧
   (length (py "Hello, RSA!") ≤ 1074)%nat ∧
   ∃ v, stringToNumber (PyStr (py "Hello, RSA!")) = Ret v ∧
        numberToString (PyInt v) = Ret (py "Hello, RSA!")) ∧
  (Forall (λ c, 0 ≤ c < 10000) (replicate 1075 66) ∧
   (1075 ≤ length (replicate 1075 66))%nat ∧
   stringToNumber (PyStr (replicate 1075 66))
   = Raise (ValueError int_digits_limit)).
Proof.
  assert (H1 : Forall (λ c, 0 ≤ c < 10000) (py "Hello, RSA!"))
    by (apply (bool_decide_unpack _); vm_compute; exact I).
  assert (H2 : Forall (λ c, 0 ≤ c < 10000) (replicate 1075 66))
    by (apply Forall_replicate; lia).
  assert (L1 : (length (py "Hello, RSA!") ≤ 1074)%nat) by (cbn; lia).
  assert (L2 : (1075 ≤ length (replicate 1075 66))%nat)
    by (rewrite length_replicate; lia).
  split.
  - split_and!; [exact H1|exact L1|].
    exact (proj1 (codec_round_trip _ H1) L1).
  - split_and!; [exact H2|exact L2|].
    exact (proj2 (codec_round_trip _ H2) L2).
Defined.

Example codec_round_trip_empty :
  stringToNumber (PyStr []) = Ret 1421 ∧ numberToString (PyInt 1421) = Ret [].
Proof. by vm_compute. Qed.

(** C4, as the specification states it, fails: a character with code
    point 10000 is not rejected; [stringToNumber] returns an integer. *)
Lemma stringToNumber_accepts_10000 :
  Exists (λ c, 10000 ≤ c) [10000] ∧
  stringToNumber (PyStr [10000]) = Ret 142110000.
Proof. split; [left; lia|by vm_compute]. Qed.

(** ... and that integer does not decode to the string it came from. *)
Example numberToString_of_10000 :
  numberToString (PyInt 142110000) = Ret [1000].
Proof. by vm_compute. Qed.

(** C4, amended.  [stringToNumber] has no check on the characters.  It
    writes ['1421'] and then, character by character, the code point in
    decimal, filled with zeros up to four digits; a code point of 10000
    or more is written with five digits or more.  When there are at most
    4300 digits it returns the integer that they spell; when there are
    more it raises the [ValueError] of [int], whatever the characters
    are. *)
Theorem stringToNumber_checks_no_character (s : pystr) :
  Forall is_codepoint s →
  ((length (encoded s) ≤ max_str_digits)%nat →
   ∃ v, stringToNumber (PyStr s) = Ret v ∧ decimal v = encoded s) ∧
  ((max_str_digits < length (encoded s))%nat →
   stringToNumber (PyStr s) = Raise (ValueError int_digits_limit)) ∧
  encoded s = py "1421" ++ concat ((λ c, zfill 4 (decimal c)) <$> s) ∧
  Forall (λ c, 10000 ≤ c → (5 ≤ length (zfill 4 (decimal c)))%nat) s.
Proof.
  intros Hs. pose proof (codepoint_nonneg s Hs) as Hnn. split_and!.
  - intros Hlen. exists (digits_value (encoded s)).
    split; [by apply stringToNumber_value|by apply decimal_encoded].
  - intros Hlen. by apply stringToNumber_limit.
  - done.
  - apply Forall_forall. intros c _. apply char_digits_length_5.
Qed.

Lemma stringToNumber_checks_no_character_witness :
  Forall is_codepoint [65; 10000] ∧
  ((length (encoded [65; 10000]%Z) ≤ max_str_digits)%nat ∧
   ∃ v, stringToNumber (PyStr [65; 10000]) = Ret v ∧
        decimal v = encoded [65; 10000]) ∧
  encoded [65; 10000]
  = py "1421" ++ concat ((λ c, zfill 4 (decimal c)) <$> [65; 10000]) ∧
  Forall (λ c, 10000 ≤ c → (5 ≤ length (zfill 4 (decimal c)))%nat)
    [65; 10000].
Proof.
  assert (Hs : Forall is_codepoint [65; 10000])
    by (repeat (constructor; [unfold is_codepoint; lia|]); constructor).
  assert (Hlen : (length (encoded [65; 10000]%Z) ≤ max_str_digits)%nat)
    by (apply Nat.leb_le; vm_compute; reflexivity).
  destruct (stringToNumber_checks_no_character [65; 10000] Hs)
    as (Hret & _ & Henc & Hfive).
  split_and!; [done|done|exact (Hret Hlen)|done|done].
Defined.

Example stringToNumber_accepts_any_character :
  stringToNumber (PyStr [65; 10000]) = Ret 1421006510000.
Proof. by vm_compute. Qed.

(** C10, as the specification states it, fails: [10 ** 4300] has 4301
    digits, and [str] raises on it. *)
Lemma numberToString_rejects_4301_digits :
  0 ≤ 10 ^ 4300 ∧
  numberToString (PyInt (10 ^ 4300)) = Raise (ValueError str_digits_limit).
Proof.
  split; [by apply Z.pow_nonneg|]. apply numberToString_limit.
  change (Z.of_nat max_str_digits) with 4300.
  rewrite Z.abs_eq; [done|by apply Z.pow_nonneg].
Qed.

(** C10, amended.  [numberToString] is total on the non-negative
    integers of at most 4300 digits: below [10 ** 4300] it raises
    nothing; it takes a leading ['1421'] off the decimal digits if there
    is one, reads the rest from left to right in groups of four digits,
    one character per group, and drops the one to three digits left over
    at the end.  From [10 ** 4300] on it raises the [ValueError] of
    [str]. *)
Theorem numberToString_total (n : Z) :
  0 ≤ n →
  (n < 10 ^ 4300 →
   ∃ cs, numberToString (PyInt n) = Ret cs ∧
         cs = digits_value <$> groups4 (strip_marker (decimal n)) ∧
         Z.of_nat (length cs)
         = Z.of_nat (length (strip_marker (decimal n))) `div` 4) ∧
  (10 ^ 4300 ≤ n →
   numberToString (PyInt n) = Raise (ValueError str_digits_limit)).
Proof.
  intros Hn. change 4300 with (Z.of_nat max_str_digits). split; intros Hlim.
  - eexists. split_and!; [by apply numberToString_int|done|].
    by rewrite length_fmap, groups4_length.
  - apply numberToString_limit. by rewrite Z.abs_eq.
Qed.

Lemma numberToString_total_witness :
  0 ≤ 1421006512345 ∧ 1421006512345 < 10 ^ 4300 ∧
  ∃ cs, numberToString (PyInt 1421006512345) = Ret cs ∧
        cs = digits_value <$> groups4 (strip_marker (decimal 1421006512345)) ∧
        Z.of_nat (length cs)
        = Z.of_nat (length (strip_marker (decimal 1421006512345))) `div` 4.
Proof.
  assert (H0 : 0 ≤ 1421006512345) by lia.
  assert (H1 : 1421006512345 < 10 ^ 4300)
    by (apply (Z.lt_le_trans _ (10 ^ 13)); [reflexivity|apply Z.pow_le_mono_r; lia]).
  split_and!; [done|done|exact (proj1 (numberToString_total _ H0) H1)].
Defined.

Example numberToString_leftover :
  numberToString (PyInt 1421006512345) = Ret [65; 1234].
Proof. by vm_compute. Qed.

(** ** [bitcount] is the bit length *)

Lemma bitcount_first_loop (n : Z) (f : nat) :
  (Z.to_nat (Z.log2 n) < f)%nat →
  ∃ k, 0 ≤ k ∧ (k = 0 ∨ 2 ^ (k - 1) ≤ Z.log2 n) ∧ n < 2 ^ 2 ^ k ∧
       while f (λ a, 1 ≪ a <=? n) (λ a, Ret (a ≪ 1)) 1 = Ret (2 ^ k).
Proof.
  intros Hf.
  destruct (while_measure (λ a, 1 ≪ a <=? n) (λ a, Ret (a ≪ 1))
              (λ a, ∃ k, 0 ≤ k ∧ a = 2 ^ k ∧ (k = 0 ∨ 2 ^ (k - 1) ≤ Z.log2 n))
              (λ a, Z.to_nat (Z.log2 n + 1 - a))) with (f := f) (s := 1)
    as (a & Hrun & (k & Hk & -> & Hlog) & Hcond).
  - intros a (k & Hk & -> & Hlog) Hc. eexists. split; [done|].
    assert (0 < 2 ^ k) by (apply Z.pow_pos_nonneg; lia).
    rewrite Z.shiftl_1_l in Hc. apply Z.leb_le in Hc.
    assert (0 < n) by (pose proof (Z.pow_pos_nonneg 2 (2 ^ k)); lia).
    apply Z.log2_le_pow2 in Hc; [|done].
    rewrite Z.shiftl_mul_pow2, Z.pow_1_r by lia. split.
    + exists (k + 1). rewrite Z.pow_add_r, Z.pow_1_r by lia.
      split_and!; [lia|done|]. right. by rewrite Z.add_simpl_r.
    + lia.
  - exists 0. split_and!; [done|done|by left].
  - pose proof (Z.log2_nonneg n). lia.
  - exists k. split_and!; try done.
    rewrite Z.shiftl_1_l in Hcond. by apply Z.leb_gt in Hcond.
Qed.

Lemma bitcount_second_loop (n0 : Z) (f : nat) (k n s : Z) :
  0 ≤ k → (Z.to_nat k < f)%nat → 0 < n < 2 ^ 2 ^ k →
  while f (λ '(a, n, s), 1 <? a)
    (λ '(a, n, s),
       let a := a ≫ 1 in
       if 1 ≪ a <=? n then Ret (a, n ≫ a, s + a) else Ret (a, n, s))
    (2 ^ k, n, s)
  = Ret (1, 1, s + Z.log2 n).
Proof.
  intros Hk Hf Hn.
  destruct (while_measure (λ '(a, n, s), 1 <? a)
    (λ '(a, n, s),
       let a := a ≫ 1 in
       if 1 ≪ a <=? n then Ret (a, n ≫ a, s + a) else Ret (a, n, s))
    (λ '(a, n', s'), ∃ j, 0 ≤ j ∧ a = 2 ^ j ∧ 0 < n' < 2 ^ a ∧
                          s' + Z.log2 n' = s + Z.log2 n)
    (λ '(a, _, _), Z.to_nat (Z.log2 a))) with (f := f) (s := (2 ^ k, n, s))
    as ([[a n'] s'] & Hrun & (j & Hj & -> & Hn' & Hs) & Hcond).
  - intros [[a n'] s'] (j & Hj & -> & Hn' & Hs) Hc. apply Z.ltb_lt in Hc.
    assert (0 < j).
    { destruct (Z.eq_dec j 0) as [->|]; [|lia]. by rewrite Z.pow_0_r in Hc. }
    assert (Hhalf : 2 ^ j ≫ 1 = 2 ^ (j - 1)).
    { rewrite Z.shiftr_div_pow2, Z.pow_1_r by lia.
      replace j with (Z.succ (j - 1)) at 1 by lia.
      rewrite Z.pow_succ_r by lia. rewrite Z.mul_comm. by apply Z.div_mul. }
    assert (Hdouble : 2 ^ j = 2 ^ (j - 1) + 2 ^ (j - 1)).
    { replace j with (Z.succ (j - 1)) at 1 by lia.
      rewrite Z.pow_succ_r by lia. lia. }
    assert (Hpos : 0 < 2 ^ (j - 1)) by (apply Z.pow_pos_nonneg; lia).
    cbn zeta. rewrite Hhalf, Z.shiftl_1_l.
    assert (Hmu : (Z.to_nat (Z.log2 (2 ^ (j - 1))) < Z.to_nat (Z.log2 (2 ^ j)))%nat)
      by (rewrite !Z.log2_pow2 by lia; lia).
    destruct (Z.leb_spec (2 ^ 2 ^ (j - 1)) n') as [Hge|Hlt].
    + eexists. split; [done|]. split; [|done].
      exists (j - 1). split_and!; [lia|done| | |].
      * rewrite Z.shiftr_div_pow2 by lia.
        apply Z.div_str_pos. split; [|done]. apply Z.pow_pos_nonneg; lia.
      * rewrite Z.shiftr_div_pow2 by lia.
        apply Z.div_lt_upper_bound; [apply Z.pow_pos_nonneg; lia|].
        rewrite <- Z.pow_add_r, <- Hdouble by lia. lia.
      * rewrite Z.log2_shiftr by lia.
        apply Z.log2_le_pow2 in Hge; lia.
    + eexists. split; [done|]. split; [|done].
      exists (j - 1). split_and!; [lia|done|lia|lia|done].
  - exists k. split_and!; (done || lia).
  - by rewrite Z.log2_pow2 by lia.
  - apply Z.ltb_ge in Hcond. rewrite Hrun.
    assert (0 < 2 ^ j) by (apply Z.pow_pos_nonneg; lia).
    assert (Ha : 2 ^ j = 1) by lia. rewrite Ha in *.
    assert (n' = 1) as -> by (change (2 ^ 1) with 2 in Hn'; lia).
    change (Z.log2 1) with 0 in Hs. do 3 f_equal. lia.
Qed.

Lemma bitcount_run_enough (n : Z) (f : nat) :
  (Z.to_nat (Z.log2 n) + 2 ≤ f)%nat → bitcount_run f n = Ret (bit_length n).
Proof.
  intros Hf. unfold bitcount_run, bit_length.
  destruct (bitcount_first_loop n f) as (k & Hk & Hlog & Hn & Hfirst); [lia|].
  cbv zeta. rewrite Hfirst. cbn [mbind outcome_bind].
  destruct (Z.ltb_spec 0 n) as [Hpos|Hneg].
  - assert (Hfuel : (Z.to_nat k < f)%nat).
    { destruct Hlog as [->|Hlog]; [lia|].
      pose proof (Z.pow_gt_lin_r 2 (k - 1)). lia. }
    pose proof (bitcount_second_loop n f k n 0 Hk Hfuel (conj Hpos Hn)) as Hsecond.
    cbv zeta in Hsecond. rewrite Hsecond.
    cbn. f_equal.
  - assert (k = 0) as ->.
    { destruct Hlog as [->|Hlog]; [done|].
      rewrite Z.log2_nonpos in Hlog by done.
      pose proof (Z.pow_pos_nonneg 2 (k - 1)). lia. }
    destruct f as [|f]; [lia|]. change (2 ^ 0) with 1. cbn.
    by destruct (Z.ltb_spec 0 n); [lia|].
Qed.

(** [bitcount n] is the number of bits of [n], and 0 for [n <= 0]. *)
Lemma bitcount_spec (n : Z) : bitcount n = bit_length n.
Proof. unfold bitcount. by rewrite bitcount_run_enough. Qed.

(** ** Running code in [M] *)

Lemma M_bind_ret {A B : Type} (m : M A) (f : A → M B) (t t' : tape) (b : B) :
  (m ≫= f) t = Ret (b, t') →
  ∃ a t1, m t = Ret (a, t1) ∧ f a t1 = Ret (b, t').
Proof.
  unfold mbind, M_bind. destruct (m t) as [[a t1]| |]; [|done..].
  intros H. by exists a, t1.
Qed.

Lemma lift_ret {A : Type} (o : outcome A) (t t' : tape) (a : A) :
  lift o t = Ret (a, t') → o = Ret a ∧ t' = t.
Proof. unfold lift. destruct o; [|done..]. by intros [= -> ->]. Qed.

Lemma M_bind_lift {A B : Type} (o : outcome A) (f : A → M B) (t t' : tape) (b : B) :
  (lift o ≫= f) t = Ret (b, t') → ∃ a, o = Ret a ∧ f a t = Ret (b, t').
Proof.
  intros (a & t1 & Hl & Hf)%M_bind_ret. apply lift_ret in Hl as [-> ->].
  by exists a.
Qed.

Lemma M_bind_run {A B : Type} (m : M A) (f : A → M B) (t t1 : tape) (a : A) :
  m t = Ret (a, t1) → (m ≫= f) t = f a t1.
Proof. intros H. unfold mbind, M_bind. by rewrite H. Qed.

Lemma M_bind_lift_run {A B : Type} (o : outcome A) (f : A → M B) (t : tape) (a : A) :
  o = Ret a → (lift o ≫= f) t = f a t.
Proof. by intros ->. Qed.

(** ** [pow], [_encrypt] *)

Lemma pow_spec (b e m : Z) :
  0 ≤ e → m ≠ 0 → pow b e m = Ret (b ^ e `mod` m).
Proof.
  intros He Hm. unfold pow.
  destruct (Z.eqb_spec m 0); [done|]. destruct (Z.ltb_spec e 0); [lia|].
  by rewrite Zpow_mod_correct.
Qed.

Lemma pow_negative (b e m : Z) :
  e < 0 → m ≠ 0 → Z.gcd b m = 1 →
  pow b e m = Ret (Z.invmod b m ^ (- e) `mod` m).
Proof.
  intros He Hm Hg. unfold pow.
  destruct (Z.eqb_spec m 0); [done|]. destruct (Z.ltb_spec e 0); [|lia].
  rewrite Hg. cbn. by rewrite Zpow_mod_correct.
Qed.

Lemma pow_not_coprime (b e m : Z) :
  e < 0 → m ≠ 0 → Z.gcd b m ≠ 1 →
  pow b e m = Raise (ValueError pow_not_invertible).
Proof.
  intros He Hm Hg. unfold pow.
  destruct (Z.eqb_spec m 0); [done|]. destruct (Z.ltb_spec e 0); [|lia].
  by destruct (Z.eqb_spec (Z.gcd b m) 1).
Qed.

Lemma pow_ret_inv (b e m r : Z) :
  pow b e m = Ret r →
  m ≠ 0 ∧ (0 ≤ e → r = b ^ e `mod` m) ∧
  (e < 0 → Z.gcd b m = 1 ∧ r = Z.invmod b m ^ (- e) `mod` m).
Proof.
  unfold pow. destruct (Z.eqb_spec m 0); [done|].
  destruct (Z.ltb_spec e 0).
  - destruct (Z.eqb_spec (Z.gcd b m) 1); [|done]. intros [= <-].
    rewrite Zpow_mod_correct by done. split_and!; [done|lia|done].
  - intros [= <-]. rewrite Zpow_mod_correct by done.
    split_and!; [done|done|lia].
Qed.

(** The power that [pow] answers for a negative exponent is the inverse
    of the power for the opposite exponent. *)
Lemma pow_inverse (b e m r : Z) :
  e < 0 → pow b e m = Ret r → (r * b ^ (- e)) `mod` m = 1 `mod` m.
Proof.
  intros He (Hm & _ & Hneg)%pow_ret_inv. destruct (Hneg He) as [Hg ->].
  rewrite Z.mul_mod_idemp_l, <- Z.pow_mul_l by done.
  rewrite <- Z.mod_pow_l, Z.invmod_coprime' by done.
  by rewrite Z.mod_pow_l, Z.pow_1_l by lia.
Qed.

Lemma pow_never_too_big (b e m nbits : Z) :
  pow b e m ≠ Raise (ValueError (msg_too_big nbits)).
Proof.
  unfold pow. destruct (_ =? _); [done|]. destruct (_ <? _); [|done].
  by destruct (_ =? _).
Qed.

Lemma _encrypt_too_big (self : RsaKeyPair) (msg : Z) :
  _encrypt self msg = Raise (ValueError (msg_too_big (key_nbits self)))
  ↔ key_nbits self ≤ bitcount msg.
Proof.
  unfold _encrypt. destruct (Z.leb_spec (key_nbits self) (bitcount msg)).
  - done.
  - split; [|lia]. intros Hp. by apply pow_never_too_big in Hp.
Qed.

Lemma _encrypt_below (self : RsaKeyPair) (msg : Z) :
  bitcount msg < key_nbits self →
  _encrypt self msg = pow msg (key_e self) (key_n self).
Proof.
  intros Hb. unfold _encrypt.
  by destruct (Z.leb_spec (key_nbits self) (bitcount msg)); [lia|].
Qed.

Lemma _encrypt_ret_inv (self : RsaKeyPair) (msg c : Z) :
  _encrypt self msg = Ret c →
  bitcount msg < key_nbits self ∧ key_n self ≠ 0 ∧
  pow msg (key_e self) (key_n self) = Ret c.
Proof.
  unfold _encrypt. destruct (Z.leb_spec (key_nbits self) (bitcount msg)); [done|].
  intros Hp. pose proof Hp as (? & _)%pow_ret_inv. done.
Qed.

(** ** What [__init__] guarantees *)

Lemma quick_test_inv (self : RsaKeyPair) (t t' : tape) :
  quick_test self t = Ret ((), t') →
  ∃ d phi c,
    key_d self = Some d ∧ key_phi self = Some phi ∧ phi ≠ 0 ∧
    (key_e self * d) `mod` phi = 1 ∧
    _encrypt self 12 = Ret c ∧ _decrypt self c t = Ret (12, t').
Proof.
  unfold quick_test.
  intros (d & Hd & H)%M_bind_lift. apply M_bind_lift in H as (phi & Hphi & H).
  apply M_bind_lift in H as (ed & Hed & H).
  destruct (key_d self) as [d'|]; [|done]. injection Hd as ->.
  destruct (key_phi self) as [phi'|]; [|done]. injection Hphi as ->.
  unfold pymod in Hed. destruct (Z.eqb_spec phi 0); [done|]. injection Hed as <-.
  destruct (Z.eqb_spec ((key_e self * d) `mod` phi) 1) as [Hone|]; [|done].
  cbn [negb] in H. apply M_bind_lift in H as (c & Hc & H).
  apply M_bind_ret in H as (m & t1 & Hm & H).
  destruct (Z.eqb_spec m 12) as [->|]; [|done]. cbn [negb] in H.
  injection H as <-. by exists d, phi, c.
Qed.

(** The keys that [__init__] can return. *)
Lemma init_inv (fuel : nat) (a : init_args) (t t' : tape) (self : RsaKeyPair) :
  __init__ fuel a t = Ret (self, t') →
  key_nbits self = bitcount (key_n self) ∧ key_n self ≠ 0 ∧ key_e self ≠ 0 ∧
  (if key_only_pubkey self
   then arg_only_pubkey a = true ∧ key_d self = None
   else arg_only_pubkey a = false ∧ ∃ t1, quick_test self t1 = Ret ((), t')).
Proof.
  unfold __init__. destruct (_ && _); [done|].
  destruct (arg_only_pubkey a).
  - destruct (given (arg_e a)) as [e|] eqn:He; [|done].
    destruct (given (arg_n a)) as [n|] eqn:Hn; [|done].
    intros [= <- <-]. cbn.
    assert (Hgiven : ∀ x v, given x = Some v → v ≠ 0).
    { intros [x|] v; [|done]. cbn. by destruct (Z.eqb_spec x 0); [|intros [= <-]]. }
    split_and!; eauto.
  - intros (p & t1 & _ & H)%M_bind_ret.
    apply M_bind_ret in H as (q & t2 & _ & H).
    apply M_bind_ret in H as (e & t3 & _ & H).
    apply M_bind_ret in H as (d & t4 & _ & H).
    apply M_bind_ret in H as ([] & t5 & Hqt & H).
    injection H as <- <-. cbn.
    pose proof Hqt as (d' & phi & c & _ & _ & _ & _ & Henc & Hdec)%quick_test_inv.
    apply _encrypt_ret_inv in Henc as (_ & Hn & _). cbn in Hn.
    split_and!; [done|done| |done|by eauto].
    (* e = 0 would make (e * d) mod phi = 0 *)
    apply quick_test_inv in Hqt as (d'' & phi' & c' & _ & _ & _ & Hed & _).
    cbn in Hed. intros ->. by rewrite Z.mul_0_l, Zmod_0_l in Hed.
Qed.

Example toy_key_constructed :
  __init__ 100 toy_args zero_tape = Ret (toy_key, zero_tape).
Proof. by vm_compute. Qed.

Example public_key_constructed :
  __init__ 0 public_args zero_tape = Ret (public_key, zero_tape).
Proof. by vm_compute. Qed.

Example negative_key_constructed :
  __init__ 100 negative_args zero_tape = Ret (negative_key, zero_tape).
Proof. by vm_compute. Qed.

(** C6, as the specification states it, fails: [__init__] returns a key
    for [p=61, q=53, e=-7, d=-1783], and on it [_encrypt 61] raises the
    [ValueError] of [pow], although 61 has 6 bits and the key 12. *)
Lemma _encrypt_negative_exponent :
  __init__ 100 negative_args zero_tape = Ret (negative_key, zero_tape) ∧
  0 ≤ 61 ∧ bitcount 61 < key_nbits negative_key ∧
  _encrypt negative_key 61 = Raise (ValueError pow_not_invertible).
Proof. by vm_compute. Qed.

(** C6, amended.  For every key that [__init__] returns and every
    non-negative integer [msg], [_encrypt msg] raises the
    message-too-large [ValueError] exactly when [bitcount msg >= nbits].
    When [bitcount msg < nbits] it is [pow(msg, e, n)]: for [e >= 0] it
    returns [msg ^ e mod n]; for [e < 0] it returns the inverse of
    [msg ^ (- e)] modulo [n] when [msg] and [n] have no common divisor,
    and raises the [ValueError] of [pow] when they have one. *)
Theorem _encrypt_spec (fuel : nat) (a : init_args) (t t' : tape)
    (self : RsaKeyPair) (msg : Z) :
  __init__ fuel a t = Ret (self, t') →
  0 ≤ msg →
  (_encrypt self msg = Raise (ValueError (msg_too_big (key_nbits self)))
   ↔ key_nbits self ≤ bitcount msg) ∧
  (bitcount msg < key_nbits self → 0 ≤ key_e self →
   _encrypt self msg = Ret (msg ^ key_e self `mod` key_n self)) ∧
  (bitcount msg < key_nbits self → key_e self < 0 →
   Z.gcd msg (key_n self) = 1 →
   ∃ c, _encrypt self msg = Ret c ∧
        (c * msg ^ (- key_e self)) `mod` key_n self = 1 `mod` key_n self) ∧
  (bitcount msg < key_nbits self → key_e self < 0 →
   Z.gcd msg (key_n self) ≠ 1 →
   _encrypt self msg = Raise (ValueError pow_not_invertible)).
Proof.
  intros (_ & Hn & _ & _)%init_inv _.
  split_and!; [apply _encrypt_too_big| | |]; intros Hbits He;
    rewrite _encrypt_below by done.
  - by apply pow_spec.
  - intros Hg. eexists. split; [by apply pow_negative|].
    eapply pow_inverse; [exact He|by apply pow_negative].
  - intros Hg. by apply pow_not_coprime.
Qed.

Lemma _encrypt_spec_witness :
  __init__ 100 toy_args zero_tape = Ret (toy_key, zero_tape) ∧
  0 ≤ 1421 ∧
  (_encrypt toy_key 1421 = Raise (ValueError (msg_too_big (key_nbits toy_key)))
   ↔ key_nbits toy_key ≤ bitcount 1421) ∧
  (bitcount 1421 < key_nbits toy_key → 0 ≤ key_e toy_key →
   _encrypt toy_key 1421 = Ret (1421 ^ key_e toy_key `mod` key_n toy_key)) ∧
  (bitcount 1421 < key_nbits toy_key → key_e toy_key < 0 →
   Z.gcd 1421 (key_n toy_key) = 1 →
   ∃ c, _encrypt toy_key 1421 = Ret c ∧
        (c * 1421 ^ (- key_e toy_key)) `mod` key_n toy_key
        = 1 `mod` key_n toy_key) ∧
  (bitcount 1421 < key_nbits toy_key → key_e toy_key < 0 →
   Z.gcd 1421 (key_n toy_key) ≠ 1 →
   _encrypt toy_key 1421 = Raise (ValueError pow_not_invertible)).
Proof.
  assert (H1 : __init__ 100 toy_args zero_tape = Ret (toy_key, zero_tape))
    by (vm_compute; reflexivity).
  assert (H2 : 0 ≤ 1421) by lia.
  exact (conj H1 (conj H2
           (_encrypt_spec 100 toy_args zero_tape zero_tape toy_key 1421 H1 H2))).
Defined.

Example _encrypt_toy_values :
  _encrypt toy_key 1421 = Ret 2743 ∧
  _encrypt toy_key 14210065 = Raise (ValueError (msg_too_big 12)).
Proof. by vm_compute. Qed.

Example _encrypt_negative_values :
  _encrypt negative_key 12 = Ret 1358 ∧ _encrypt negative_key 1421 = Ret 640 ∧
  _encrypt negative_key 14210065 = Raise (ValueError (msg_too_big 12)).
Proof. by vm_compute. Qed.

(** ** [_decrypt] and [decrypt] on a public-only key *)

Lemma randint_run (lo hi : Z) (t : tape) :
  lo ≤ hi →
  randint lo hi t = Ret (lo + t 0%nat `mod` (hi + 1 - lo), tape_tail t).
Proof.
  intros Hle. unfold randint, randrange.
  by destruct (Z.leb_spec (hi + 1) lo); [lia|].
Qed.

Lemma blinding_factor_run (t : tape) :
  randint 10000000000000000000000000000000000000000000000
          10000000000000000000000000000000000000000000000000 t
  = Ret (blinding_factor t, tape_tail t).
Proof. by rewrite randint_run. Qed.

Lemma blinding_factor_range (t : tape) :
  10 ^ 46 ≤ blinding_factor t ≤ 10 ^ 49.
Proof.
  unfold blinding_factor.
  pose proof (Z.mod_pos_bound (t 0%nat) (10 ^ 49 + 1 - 10 ^ 46)). lia.
Qed.

Lemma _decrypt_without_d (self : RsaKeyPair) (cipher : Z) (t : tape) :
  key_d self = None → key_n self ≠ 0 →
  (1023 ≤ key_nbits self ∧ key_e self < 0 ∧
   Z.gcd (blinding_factor t) (key_n self) ≠ 1 ∧
   _decrypt self cipher t = Raise (ValueError pow_not_invertible))
  ∨ (¬ (1023 ≤ key_nbits self ∧ key_e self < 0 ∧
        Z.gcd (blinding_factor t) (key_n self) ≠ 1) ∧
     _decrypt self cipher t = Raise (AttributeError "d")).
Proof.
  intros Hd Hn. unfold _decrypt. rewrite Hd.
  destruct (Z.leb_spec 1023 (key_nbits self)); [|right; split; [lia|done]].
  rewrite (M_bind_run _ _ _ _ _ (blinding_factor_run t)).
  destruct (Z_lt_le_dec (key_e self) 0) as [He|He].
  - destruct (Z.eq_dec (Z.gcd (blinding_factor t) (key_n self)) 1) as [Hg|Hg].
    + right. split; [tauto|]. rewrite pow_negative by done. cbn.
      unfold pymod. by destruct (Z.eqb_spec (key_n self) 0).
    + left. split_and!; [done..|]. by rewrite pow_not_coprime.
  - right. split; [lia|]. rewrite pow_spec by done. cbn.
    unfold pymod. by destruct (Z.eqb_spec (key_n self) 0).
Qed.

Example negative_public_key_constructed :
  __init__ 0 negative_public_args two_tape
  = Ret (negative_public_key, two_tape).
Proof. by vm_compute. Qed.

(** C9, as the specification states it, fails: on the public-only key
    [RsaKeyPair(e=-1, n=2**1023 + 1, only_pubkey=True)], when the
    blinding factor drawn is [10**46 + 2], [decrypt] raises the
    [ValueError] of [pow], not the error for the missing private
    exponent. *)
Lemma decrypt_public_only_pow_error :
  __init__ 0 negative_public_args two_tape
  = Ret (negative_public_key, two_tape) ∧
  arg_only_pubkey negative_public_args = true ∧
  blinding_factor two_tape = 10 ^ 46 + 2 ∧
  decrypt negative_public_key 42 two_tape
  = Raise (ValueError pow_not_invertible).
Proof. by vm_compute. Qed.

(** C9, amended.  For every key that [__init__] returns in public-only
    mode and every integer [cipher], [_decrypt cipher] and
    [decrypt cipher] return no value, whatever is drawn: they raise.  The
    error is the [AttributeError] for the private exponent [d], which
    such a key does not have, except on the blinded path ([nbits] at
    least 1023) of a key with a negative public exponent when the
    blinding factor drawn has a common divisor with [n]: there
    [pow(r, e, n)], which comes before [d] is read, raises its
    [ValueError]. *)
Theorem decrypt_public_only (fuel : nat) (a : init_args) (t0 t0' : tape)
    (self : RsaKeyPair) (cipher : Z) (t : tape) :
  __init__ fuel a t0 = Ret (self, t0') →
  arg_only_pubkey a = true →
  ∃ x, _decrypt self cipher t = Raise x ∧ decrypt self cipher t = Raise x ∧
       ((1023 ≤ key_nbits self ∧ key_e self < 0 ∧
         Z.gcd (blinding_factor t) (key_n self) ≠ 1) ∧
        x = ValueError pow_not_invertible
        ∨ ¬ (1023 ≤ key_nbits self ∧ key_e self < 0 ∧
             Z.gcd (blinding_factor t) (key_n self) ≠ 1) ∧
          x = AttributeError "d").
Proof.
  intros (_ & Hn & _ & Hmode)%init_inv Hpub.
  assert (Hd : key_d self = None).
  { destruct (key_only_pubkey self); [by destruct Hmode|].
    destruct Hmode as [? _]. congruence. }
  assert (Hdec : ∀ y, _decrypt self cipher t = Raise y →
                      decrypt self cipher t = Raise y).
  { intros y Hy. unfold decrypt, mbind, M_bind. by rewrite Hy. }
  destruct (_decrypt_without_d self cipher t Hd Hn)
    as [(H1 & H2 & H3 & Hx)|[Hnot Hx]]; eexists;
    (split_and!; [exact Hx|by apply Hdec|]); [left|right]; done.
Qed.

Lemma decrypt_public_only_witness :
  __init__ 0 public_args zero_tape = Ret (public_key, zero_tape) ∧
  arg_only_pubkey public_args = true ∧
  ∃ x, _decrypt public_key 42 zero_tape = Raise x ∧
       decrypt public_key 42 zero_tape = Raise x ∧
       ((1023 ≤ key_nbits public_key ∧ key_e public_key < 0 ∧
         Z.gcd (blinding_factor zero_tape) (key_n public_key) ≠ 1) ∧
        x = ValueError pow_not_invertible
        ∨ ¬ (1023 ≤ key_nbits public_key ∧ key_e public_key < 0 ∧
             Z.gcd (blinding_factor zero_tape) (key_n public_key) ≠ 1) ∧
          x = AttributeError "d").
Proof.
  assert (H1 : __init__ 0 public_args zero_tape = Ret (public_key, zero_tape))
    by (vm_compute; reflexivity).
  assert (H2 : arg_only_pubkey public_args = true) by reflexivity.
  exact (conj H1 (conj H2
           (decrypt_public_only 0 public_args zero_tape zero_tape public_key
              42 zero_tape H1 H2))).
Defined.

Example decrypt_public_only_values :
  decrypt public_key 42 zero_tape = Raise (AttributeError "d") ∧
  decrypt toy_public_key 42 zero_tape = Raise (AttributeError "d") ∧
  decrypt negative_public_key 42 zero_tape = Raise (AttributeError "d").
Proof. by vm_compute. Qed.

(** ** [factors] and [get_e] *)

Lemma elem_of_factors (n j : Z) :
  j ∈ factors n ↔
  ∃ i, 1 ≤ i ≤ Z.sqrt n ∧ n `mod` i = 0 ∧ (j = i ∨ j = n `div` i).
Proof.
  unfold factors. rewrite elem_of_list_to_set, list_elem_of_In, in_concat.
  split.
  - intros (l & Hl & Hj). apply list_elem_of_In, list_elem_of_fmap in Hl
      as (i & -> & Hi).
    apply list_elem_of_filter in Hi as [Hmod Hi].
    unfold range in Hi. apply elem_of_seqZ in Hi.
    exists i. split_and!; [lia|lia|done|].
    cbn in Hj. destruct Hj as [<-|[<-|[]]]; auto.
  - intros (i & Hi & Hmod & Hj). exists [i; n `div` i]. split.
    + apply list_elem_of_In, list_elem_of_fmap. exists i. split; [done|].
      apply list_elem_of_filter. split; [done|].
      unfold range. apply elem_of_seqZ. lia.
    + cbn. destruct Hj as [->| ->]; auto.
Qed.

(** [factors n] holds every positive divisor of [n]. *)
Lemma factors_complete (n j : Z) :
  0 < n → 0 < j → (j | n) → j ∈ factors n.
Proof.
  intros Hn Hj [m Hm]. apply elem_of_factors.
  assert (0 < m) by nia.
  pose proof (Z.sqrt_spec n ltac:(lia)) as Hsqrt. cbn zeta in Hsqrt.
  destruct (Z_le_gt_dec j (Z.sqrt n)).
  - exists j. split_and!; [lia|lia| |by left].
    subst n. apply Z.mod_mul. lia.
  - exists m. split_and!; [lia|nia| |right].
    + subst n. rewrite Z.mul_comm. apply Z.mod_mul. lia.
    + subst n. rewrite (Z.mul_comm m j), Z.div_mul; lia.
Qed.

Lemma range_step_odd (i : Z) :
  i ∈ range_step 3 10001 2 → Z.odd i = true ∧ 3 ≤ i ≤ 9999.
Proof.
  unfold range_step. intros (k & -> & Hk)%list_elem_of_fmap.
  change ((10001 - 3 + 2 - 1) `div` 2) with 4999 in Hk.
  apply elem_of_seqZ in Hk. split; [|lia].
  by rewrite Z.odd_add_mul_2.
Qed.

(** C5.  Whenever [get_e phi] returns an integer [i], that [i] is odd,
    lies between 3 and 9999, and is coprime to [phi]: no divisor of [i]
    greater than 1 divides [phi], and so [gcd i phi = 1]. *)
Theorem get_e_coprime (phi i : Z) :
  get_e phi = Some i →
  Z.odd i = true ∧ 3 ≤ i ≤ 9999 ∧
  (∀ j, 1 < j → (j | i) → ¬ (j | phi)) ∧ Z.gcd i phi = 1.
Proof.
  unfold get_e. intros [Hin Hacc]%find_some.
  apply list_elem_of_In, range_step_odd in Hin as [Hodd Hrange].
  assert (Hnone : ∀ j, 1 < j → (j | i) → ¬ (j | phi)).
  { intros j Hj Hji Hjphi. apply negb_true_iff in Hacc.
    apply not_true_iff_false in Hacc. apply Hacc, existsb_exists.
    exists j. split.
    - apply list_elem_of_In, elem_of_elements, elem_of_difference. split.
      + apply factors_complete; [lia|lia|done].
      + rewrite elem_of_singleton. lia.
    - apply Z.eqb_eq, Z.mod_divide; [lia|done]. }
  split_and!; [done|lia|lia|done|].
  pose proof (Z.gcd_nonneg i phi) as Hg.
  pose proof (Z.gcd_divide_l i phi) as Hgi.
  pose proof (Z.gcd_divide_r i phi) as Hgphi.
  destruct (Z.eq_dec (Z.gcd i phi) 0) as [H0|].
  { rewrite H0 in Hgi. apply Z.divide_0_l in Hgi. lia. }
  destruct (Z.eq_dec (Z.gcd i phi) 1); [done|].
  exfalso. apply (Hnone (Z.gcd i phi)); [lia|done|done].
Qed.

Lemma get_e_coprime_witness :
  get_e 3120 = Some 7 ∧
  Z.odd 7 = true ∧ 3 ≤ 7 ≤ 9999 ∧
  (∀ j, 1 < j → (j | 7) → ¬ (j | 3120)) ∧ Z.gcd 7 3120 = 1.
Proof.
  assert (H : get_e 3120 = Some 7) by (vm_compute; reflexivity).
  exact (conj H (get_e_coprime 3120 7 H)).
Defined.

(** ** [get_d] *)

Lemma get_d_unfold (fuel : nat) (phi e : Z) :
  get_d fuel phi e
  = ('(t1, t2) ← while fuel get_d_going (get_d_round fuel phi)
                   ((phi, e), (phi, 1));
     Ret t2.2).
Proof. reflexivity. Qed.

(** The inner loop adds [phi] until the value is no longer negative. *)
Lemma get_d_inner (phi td2 : Z) (f : nat) :
  0 < phi → (Z.to_nat (- td2) < f)%nat →
  ∃ r, while f (λ td2, td2 <? 0) (λ td2, Ret (td2 + phi)) td2 = Ret r ∧
       0 ≤ r ∧ r `mod` phi = td2 `mod` phi.
Proof.
  intros Hphi Hf.
  destruct (while_measure (λ td2, td2 <? 0) (λ td2, Ret (td2 + phi))
              (λ x, x `mod` phi = td2 `mod` phi) (λ x, Z.to_nat (- x)))
    with (f := f) (s := td2) as (r & Hrun & Hinv & Hcond); [|done|done|].
  - intros x Hx Hneg%Z.ltb_lt. eexists. split; [done|]. split; [|lia].
    rewrite <- Hx. rewrite <- (Z.mul_1_l phi) at 1. apply Z.mod_add. lia.
  - exists r. apply Z.ltb_ge in Hcond. done.
Qed.

(** With a positive [phi], one round on a divisor other than zero: the
    first pair takes a step of Euclid's algorithm, the second pair the
    same step on the coefficients, reduced to be non-negative. *)
Lemma get_d_round_run (phi a b x y : Z) :
  0 < phi → b ≠ 0 →
  ∃ f0 y', 0 ≤ y' ∧ y' `mod` phi = (x - a `div` b * y) `mod` phi ∧
    ∀ f, (f0 ≤ f)%nat →
      get_d_round f phi ((a, b), (x, y)) = Ret ((b, a - a `div` b * b), (y, y')).
Proof.
  intros Hphi Hb.
  set (td2 := x - a `div` b * y).
  destruct (get_d_inner phi td2 (S (Z.to_nat (- td2)))) as (r & Hrun & Hr & Hmod);
    [done|lia|].
  exists (S (Z.to_nat (- td2))), r. split_and!; [done|done|].
  intros f Hf. unfold get_d_round, floordiv. cbn [fst snd].
  destruct (Z.eqb_spec b 0); [done|]. cbn [mbind outcome_bind]. cbv zeta.
  fold td2. by rewrite (while_more _ _ _ f _ _ Hf Hrun).
Qed.

(** The loop of [get_d] from a state in which the first pair is coprime:
    it ends with 1 in the first pair and, in the second, a non-negative
    inverse of [e]. *)
Lemma get_d_loop_coprime (phi e : Z) :
  1 < phi →
  ∀ (m : nat) (a b x y : Z),
    Z.to_nat b = m → 0 < b → Z.gcd a b = 1 → 0 ≤ y →
    b `mod` phi = (y * e) `mod` phi → a `mod` phi = (x * e) `mod` phi →
    ∃ f0 a' x' d, 0 ≤ d ∧ (e * d) `mod` phi = 1 ∧
      ∀ fo fi, (f0 ≤ fo)%nat → (f0 ≤ fi)%nat →
        while fo get_d_going (get_d_round fi phi) ((a, b), (x, y))
        = Ret ((a', 1), (x', d)).
Proof.
  intros Hphi m. induction m as [m IH] using lt_wf_ind.
  intros a b x y Hm Hb Hgcd Hy Hbe Hae.
  destruct (Z.eq_dec b 1) as [->|Hb1].
  - exists 1%nat, a, x, y. split_and!; [done| |].
    + rewrite Z.mul_comm, <- Hbe. apply Z.mod_1_l. lia.
    + intros [|fo] fi Hfo _; [lia|]. done.
  - assert (Hrem : 0 < a `mod` b < b).
    { pose proof (Z.mod_pos_bound a b Hb).
      destruct (Z.eq_dec (a `mod` b) 0) as [H0|]; [|lia].
      rewrite Z.gcd_comm, <- Z.gcd_mod, H0, Z.gcd_0_l in Hgcd by lia. lia. }
    assert (Hrem_eq : a - a `div` b * b = a `mod` b)
      by (rewrite Z.mod_eq by lia; lia).
    destruct (get_d_round_run phi a b x y) as (f1 & y' & Hy' & Hy'mod & Hround);
      [lia|lia|].
    destruct (IH (Z.to_nat (a `mod` b)) ltac:(lia) b (a `mod` b) y y')
      as (f2 & a' & x' & d & Hd & Hed & Hloop); [done|lia| |done| |done|].
    { rewrite Z.gcd_comm, Z.gcd_mod by lia. by rewrite Z.gcd_comm. }
    { rewrite <- (Z.mul_mod_idemp_l y'), Hy'mod, Z.mul_mod_idemp_l by lia.
      rewrite <- Hrem_eq.
      replace ((x - a `div` b * y) * e)
        with (x * e - a `div` b * (y * e)) by lia.
      rewrite Zminus_mod, Hae, (Zmult_mod (a `div` b) b), Hbe.
      by rewrite <- Zmult_mod, <- Zminus_mod. }
    exists (S (f1 `max` f2)), a', x', d. split_and!; [done|done|].
    intros [|fo] fi Hfo Hfi; [lia|]. cbn [while].
    replace (get_d_going (a, b, (x, y))) with true
      by (cbn; by destruct (Z.eqb_spec b 1)).
    rewrite Hround by lia. cbn [mbind outcome_bind]. rewrite Hrem_eq.
    apply Hloop; lia.
Qed.

(** C3.  For every [phi > 1] and every [e >= 1] with [gcd e phi = 1],
    [get_d] ends (with enough fuel it returns) and its result [d] is
    non-negative with [(e * d) mod phi = 1]. *)
Theorem get_d_inverse (phi e : Z) :
  1 < phi → 1 ≤ e → Z.gcd e phi = 1 →
  ∃ d, 0 ≤ d ∧ (e * d) `mod` phi = 1 ∧
       ∃ fuel0, ∀ fuel, (fuel0 ≤ fuel)%nat → get_d fuel phi e = Ret d.
Proof.
  intros Hphi He Hgcd.
  destruct (get_d_loop_coprime phi e Hphi (Z.to_nat e) phi e phi 1)
    as (f0 & a' & x' & d & Hd & Hed & Hloop); [done|lia| |lia| | |].
  - by rewrite Z.gcd_comm.
  - by rewrite Z.mul_1_l.
  - by rewrite Z.mod_same, Z.mul_comm, Z.mod_mul by lia.
  - exists d. split_and!; [done|done|]. exists f0. intros fuel Hfuel.
    rewrite get_d_unfold, Hloop by done. done.
Qed.

Lemma get_d_inverse_witness :
  1 < 3120 ∧ 1 ≤ 7 ∧ Z.gcd 7 3120 = 1 ∧
  ∃ d, 0 ≤ d ∧ (7 * d) `mod` 3120 = 1 ∧
       ∃ fuel0, ∀ fuel, (fuel0 ≤ fuel)%nat → get_d fuel 3120 7 = Ret d.
Proof.
  assert (H1 : 1 < 3120) by lia. assert (H2 : 1 ≤ 7) by lia.
  assert (H3 : Z.gcd 7 3120 = 1) by reflexivity.
  exact (conj H1 (conj H2 (conj H3 (get_d_inverse 3120 7 H1 H2 H3)))).
Defined.

Example get_d_toy : get_d 10 3120 7 = Ret 1783.
Proof. by vm_compute. Qed.

(** When [e] and [phi] have a common factor, the remainders of the first
    pair reach 0 without passing through 1, and the next division is by
    zero. *)
Lemma get_d_loop_common (phi g : Z) :
  0 < phi → 1 < g →
  ∀ (m : nat) (a b x y : Z),
    Z.to_nat (Z.abs b) = m → (g | a) → (g | b) →
    ∃ f0, ∀ fo fi, (f0 ≤ fo)%nat → (f0 ≤ fi)%nat →
      while fo get_d_going (get_d_round fi phi) ((a, b), (x, y))
      = Raise ZeroDivisionError.
Proof.
  intros Hphi Hg m. induction m as [m IH] using lt_wf_ind.
  intros a b x y Hm Hga Hgb.
  destruct (Z.eq_dec b 0) as [->|Hb0].
  - exists 1%nat. intros [|fo] fi Hfo _; [lia|]. done.
  - assert (Hb1 : b ≠ 1).
    { intros ->. apply Z.divide_1_r in Hgb. lia. }
    assert (Hrem_eq : a - a `div` b * b = a `mod` b)
      by (rewrite Z.mod_eq by lia; lia).
    assert (Hrem : Z.abs (a `mod` b) < Z.abs b).
    { destruct (Z_lt_le_dec b 0).
      - pose proof (Z.mod_neg_bound a b). lia.
      - pose proof (Z.mod_pos_bound a b). lia. }
    destruct (get_d_round_run phi a b x y) as (f1 & y' & _ & _ & Hround);
      [lia|lia|].
    destruct (IH (Z.to_nat (Z.abs (a `mod` b))) ltac:(lia) b (a `mod` b) y y')
      as (f2 & Hloop); [done|done| |].
    { rewrite <- Hrem_eq. apply Z.divide_sub_r; [done|].
      by apply Z.divide_mul_r. }
    exists (S (f1 `max` f2)). intros [|fo] fi Hfo Hfi; [lia|]. cbn [while].
    replace (get_d_going (a, b, (x, y))) with true
      by (cbn; by destruct (Z.eqb_spec b 1)).
    rewrite Hround by lia. cbn [mbind outcome_bind]. rewrite Hrem_eq.
    apply Hloop; lia.
Qed.

(** C8, as the specification states it, fails: with [gcd 2 4 = 2] the
    code reports no missing inverse; it divides by zero. *)
Lemma get_d_divides_by_zero :
  Z.gcd 2 4 ≠ 1 ∧ get_d 3 4 2 = Raise ZeroDivisionError.
Proof. split; [by vm_compute|by vm_compute]. Qed.

(** C8, amended.  For every [phi > 0] and every [e] with
    [gcd e phi <> 1], [get_d] ends by raising [ZeroDivisionError], from
    [t1[0] // t1[1]] once the remainder [t1[1]] is 0: it neither runs for
    ever nor returns a value, and it has no check of its own for a
    missing inverse. *)
Theorem get_d_no_inverse (phi e : Z) :
  0 < phi → Z.gcd e phi ≠ 1 →
  ∃ fuel0, ∀ fuel, (fuel0 ≤ fuel)%nat →
    get_d fuel phi e = Raise ZeroDivisionError.
Proof.
  intros Hphi Hgcd.
  pose proof (Z.gcd_nonneg e phi) as Hg.
  assert (Z.gcd e phi ≠ 0) by (intros [_ ?]%Z.gcd_eq_0; lia).
  destruct (get_d_loop_common phi (Z.gcd e phi) Hphi ltac:(lia)
              (Z.to_nat (Z.abs e)) phi e phi 1) as (f0 & Hloop);
    [done|apply Z.gcd_divide_r|apply Z.gcd_divide_l|].
  exists f0. intros fuel Hfuel. rewrite get_d_unfold, Hloop by done. done.
Qed.

Lemma get_d_no_inverse_witness :
  0 < 4 ∧ Z.gcd 2 4 ≠ 1 ∧
  ∃ fuel0, ∀ fuel, (fuel0 ≤ fuel)%nat → get_d fuel 4 2 = Raise ZeroDivisionError.
Proof.
  assert (H1 : 0 < 4) by lia.
  assert (H2 : Z.gcd 2 4 ≠ 1) by (vm_compute; discriminate).
  exact (conj H1 (conj H2 (get_d_no_inverse 4 2 H1 H2))).
Defined.

(** The amended claim needs [phi > 0]: with a negative [phi] the inner
    loop, which adds [phi] to a negative number until it is no longer
    negative, never ends. *)
Lemma get_d_inner_negative (phi : Z) (f : nat) (td2 : Z) :
  phi ≤ 0 → td2 < 0 →
  while f (λ td2, td2 <? 0) (λ td2, Ret (td2 + phi)) td2 = Diverge.
Proof.
  intros Hphi. revert td2. induction f as [|f IH]; intros td2 Htd2; [done|].
  cbn. destruct (Z.ltb_spec td2 0); [|lia]. apply IH. lia.
Qed.

Example get_d_negative_phi_diverges (fuel : nat) : get_d fuel (-4) 2 = Diverge.
Proof.
  rewrite get_d_unfold. destruct fuel as [|fuel]; [done|].
  cbn [while get_d_going get_d_round fst snd]. cbn [Z.eqb Pos.eqb negb].
  unfold floordiv. cbn [Z.eqb mbind outcome_bind].
  change (-4 - -4 `div` 2 * 1) with (-2).
  by rewrite get_d_inner_negative.
Qed.

(** ** [is_prime] *)

Lemma randrange_run (lo hi : Z) (t : tape) :
  lo < hi →
  randrange lo hi t = Ret (lo + t 0%nat `mod` (hi - lo), tape_tail t).
Proof. intros Hlt. unfold randrange. by destruct (Z.leb_spec hi lo); [lia|]. Qed.

(** Every value of the range can be drawn. *)
Lemma randrange_onto (lo hi v : Z) :
  lo ≤ v < hi → ∃ t, randrange lo hi t = Ret (v, tape_tail t).
Proof.
  intros Hv. exists (λ _, v - lo). rewrite randrange_run by lia.
  rewrite Z.mod_small by lia. do 2 f_equal. lia.
Qed.

Lemma land_1_even (r : Z) : (Z.land r 1 =? 0) = Z.even r.
Proof.
  change 1 with (Z.ones 1) at 1. rewrite Z.land_ones by lia.
  rewrite Z.pow_1_r, Zeven_mod. done.
Qed.

(** The first loop of [is_prime] writes [n - 1] as [2 ^ s * r], [r] odd. *)
Lemma is_prime_split (n : Z) :
  5 ≤ n → Z.odd n = true →
  ∃ s r, while (S (Z.to_nat (Z.log2 n)))
           (λ '(s, r), Z.land r 1 =? 0)
           (λ '(s, r), Ret (s + 1, r `div` 2))
           (0, n - 1)
         = Ret (s, r) ∧
         1 ≤ s ∧ 0 < r ∧ n - 1 = 2 ^ s * r ∧ Z.odd r = true.
Proof.
  intros Hn Hodd.
  destruct (while_measure
              (λ '(s, r), Z.land r 1 =? 0)
              (λ '(s, r), Ret (s + 1, r `div` 2))
              (λ '(s, r), 0 ≤ s ∧ 0 < r ∧ n - 1 = 2 ^ s * r)
              (λ '(s, r), Z.to_nat (Z.log2 r)))
    with (f := S (Z.to_nat (Z.log2 n))) (s := (0, n - 1))
    as ([s r] & Hrun & (Hs & Hr & Heq) & Hcond).
  - intros [s r] (Hs & Hr & Heq) Heven. rewrite land_1_even in Heven.
    apply Zeven_bool_iff, Zeven_div2 in Heven.
    rewrite Z.div2_div in Heven.
    eexists. split; [done|].
    assert (0 < r `div` 2) by lia.
    split; [split_and!; [lia|done|]|].
    + rewrite Z.pow_add_r, Z.pow_1_r by lia. lia.
    + rewrite Heven at 2. rewrite Z.log2_double by done.
      pose proof (Z.log2_nonneg (r `div` 2)). lia.
  - split_and!; [done|lia|]. rewrite Z.pow_0_r. lia.
  - pose proof (Z.log2_le_mono (n - 1) n ltac:(lia)).
    pose proof (Z.log2_nonneg (n - 1)). lia.
  - exists s, r. rewrite land_1_even in Hcond.
    assert (Hr_odd : Z.odd r = true) by (by rewrite <- Z.negb_even, Hcond).
    split_and!; try done.
    destruct (Z.eq_dec s 0) as [->|]; [|lia].
    rewrite Z.pow_0_r, Z.mul_1_l in Heq. subst r.
    rewrite Z.odd_sub, Hodd in Hr_odd. done.
Qed.

Section miller_rabin.
Variable n : Z.
Hypothesis n_prime : Z.prime n.

(** Modulo a prime, 1 has no square root besides 1 and -1. *)
Lemma prime_sqrt_1 (x : Z) :
  0 ≤ x < n → x ^ 2 `mod` n = 1 → x = 1 ∨ x = n - 1.
Proof using n_prime.
  intros Hx Hsq. pose proof (Z.prime_ge_2 n n_prime) as Hn.
  assert (Hdiv : (n | (x - 1) * (x + 1))).
  { exists (x ^ 2 `div` n).
    pose proof (Z.div_mod (x ^ 2) n ltac:(lia)) as Hdm.
    rewrite Hsq in Hdm. rewrite Z.pow_2_r in *. lia. }
  apply (Z.divide_prime_mul _ _ _ n_prime) in Hdiv as [[c Hc]|[c Hc]].
  - left. assert (c < 1) by nia. assert (-1 < c) by nia.
    assert (c = 0) as -> by lia. lia.
  - right. assert (c < 2) by nia. assert (0 < c) by nia.
    assert (c = 1) as -> by lia. lia.
Qed.

Variables s r : Z.

(** The squaring loop, run on a prime from a value that is neither 1 nor
    [n - 1] and whose [2 ^ (m + 1)]-th power is 1, stops on [n - 1]
    without a [return False]. *)
Lemma is_prime_squarings (m : nat) (j x : Z) :
  Z.of_nat m = s - j → 0 ≤ x < n → x ≠ 1 → x ≠ n - 1 →
  x ^ 2 ^ (Z.of_nat m + 1) `mod` n = 1 →
  ∃ j', while_ret (S (S m))
          (λ '(j, x), (j <? s) && negb (x =? n - 1))
          (λ '(j, x),
             x ← pow x 2 n;
             if x =? 1 then Ret (inr false) else Ret (inl (j + 1, x)))
          (j, x)
        = Ret (inl (j', n - 1)).
Proof using n_prime.
  pose proof (Z.prime_ge_2 n n_prime) as Hn.
  revert j x. induction m as [|m IH]; intros j x Hm Hx Hx1 Hxn Hpow.
  - change (2 ^ (Z.of_nat 0 + 1)) with 2 in Hpow.
    destruct (prime_sqrt_1 x Hx Hpow); done.
  - rewrite while_ret_S. cbv beta iota.
    destruct (Z.ltb_spec j s); [|lia]. destruct (Z.eqb_spec x (n - 1)); [done|].
    cbn [andb negb]. rewrite pow_spec by lia. cbn [mbind outcome_bind].
    pose proof (Z.mod_pos_bound (x ^ 2) n ltac:(lia)) as Hx'.
    assert (Hpow' : (x ^ 2 `mod` n) ^ 2 ^ (Z.of_nat m + 1) `mod` n = 1).
    { rewrite Z.mod_pow_l, <- Z.pow_mul_r by lia.
      rewrite <- Hpow. do 2 f_equal.
      rewrite Nat2Z.inj_succ, <- (Z.pow_succ_r 2) by lia. f_equal. lia. }
    destruct (Z.eqb_spec (x ^ 2 `mod` n) 1) as [Hone|Hne1].
    { destruct (prime_sqrt_1 x Hx Hone); done. }
    cbn [mbind outcome_bind].
    destruct (Z.eq_dec (x ^ 2 `mod` n) (n - 1)) as [->|Hnen].
    + exists (j + 1). rewrite while_ret_S. cbv beta iota.
      rewrite Z.eqb_refl. by rewrite andb_false_r.
    + apply IH; [lia|done|done|done|done].
Qed.

Hypothesis n_ge_5 : 5 ≤ n.
Hypothesis s_pos : 1 ≤ s.
Hypothesis r_pos : 0 < r.
Hypothesis n_split : n - 1 = 2 ^ s * r.

(** One round on a prime never returns [False], whatever is drawn. *)
Lemma is_prime_round_prime (t : tape) :
  is_prime_round n s r t = Ret (inl (), tape_tail t).
Proof using All.
  unfold is_prime_round.
  rewrite (M_bind_run _ _ _ _ _ (randrange_run 2 (n - 1) t ltac:(lia))).
  set (a := 2 + t 0%nat `mod` (n - 1 - 2)).
  assert (Ha : 2 ≤ a ≤ n - 2).
  { pose proof (Z.mod_pos_bound (t 0%nat) (n - 1 - 2)). lia. }
  rewrite (M_bind_lift_run _ _ _ _ (pow_spec a r n ltac:(lia) ltac:(lia))).
  pose proof (Z.mod_pos_bound (a ^ r) n ltac:(lia)) as Hx.
  destruct (Z.eqb_spec (a ^ r `mod` n) 1); [done|].
  destruct (Z.eqb_spec (a ^ r `mod` n) (n - 1)); [done|].
  cbn [negb andb].
  destruct (is_prime_squarings (Z.to_nat (s - 1)) 1 (a ^ r `mod` n))
    as [j' Hloop]; [lia|done|done|done| |].
  { rewrite Z.mod_pow_l, <- Z.pow_mul_r by lia.
    replace (Z.of_nat (Z.to_nat (s - 1)) + 1) with s by lia.
    rewrite (Z.mul_comm r), <- n_split.
    apply Z.fermat_nz; [done|]. rewrite Z.mod_small; lia. }
  replace (S (Z.to_nat s)) with (S (S (Z.to_nat (s - 1)))) by lia.
  rewrite (M_bind_lift_run _ _ _ _ Hloop).
  by destruct (Z.eqb_spec (n - 1) (n - 1)).
Qed.

Lemma is_prime_rounds_prime (l : list Z) (t : tape) :
  ∃ t', for_inM l (λ _ _, is_prime_round n s r) () t
        = Ret (@inl () bool (), t').
Proof using All.
  revert t. induction l as [|x l IH]; intros t; [by exists t|].
  cbn [for_inM]. rewrite (M_bind_run _ _ _ _ _ (is_prime_round_prime t)).
  apply IH.
Qed.
End miller_rabin.


(** The fuel that [is_prime] gives its loops is enough on every input: it
    always returns. *)
Lemma is_prime_squarings_end (n s : Z) (m : nat) (j x : Z) :
  n ≠ 0 → s - j ≤ Z.of_nat m →
  ∃ c, while_ret (S m)
         (λ '(j, x), (j <? s) && negb (x =? n - 1))
         (λ '(j, x),
            x ← pow x 2 n;
            if x =? 1 then Ret (inr false) else Ret (inl (j + 1, x)))
         (j, x)
       = Ret c.
Proof.
  intros Hn. revert j x. induction m as [|m IH]; intros j x Hm.
  - rewrite while_ret_S. cbv beta iota.
    destruct (Z.ltb_spec j s); [lia|]. by eauto.
  - rewrite while_ret_S. cbv beta iota.
    destruct ((j <? s) && negb (x =? n - 1)); [|by eauto].
    rewrite pow_spec by lia. cbn [mbind outcome_bind].
    destruct (x ^ 2 `mod` n =? 1); cbn [mbind outcome_bind]; [by eauto|].
    apply IH. lia.
Qed.

Lemma is_prime_round_total (n s r : Z) (t : tape) :
  5 ≤ n → 0 ≤ r →
  ∃ c, is_prime_round n s r t = Ret (c, tape_tail t).
Proof.
  intros Hn Hr. unfold is_prime_round.
  rewrite (M_bind_run _ _ _ _ _ (randrange_run 2 (n - 1) t ltac:(lia))).
  rewrite (M_bind_lift_run _ _ _ _ (pow_spec _ r n Hr ltac:(lia))).
  destruct (negb _ && negb _); [|by eauto].
  destruct (is_prime_squarings_end n s (Z.to_nat s) 1
              ((2 + t 0%nat `mod` (n - 1 - 2)) ^ r `mod` n))
    as [c Hc]; [lia|lia|].
  rewrite (M_bind_lift_run _ _ _ _ Hc).
  destruct c as [[j x]|b]; [|by eauto]. destruct (negb _); by eauto.
Qed.

(** X19.  [is_prime] returns [True] or [False] on every integer, for
    every number of rounds and whatever is drawn: it never raises and its
    loops end. *)
Lemma is_prime_total (n k : Z) (t : tape) :
  ∃ b t', is_prime n k t = Ret (b, t').
Proof.
  unfold is_prime. destruct ((n =? 2) || (n =? 3)) eqn:Hsmall; [by eauto|].
  destruct (Z.leb_spec n 1); [by eauto|]. cbn [orb].
  destruct (Z.eqb_spec (n `mod` 2) 0) as [|Hmod]; [by eauto|].
  apply orb_false_elim in Hsmall as [H2%Z.eqb_neq H3%Z.eqb_neq].
  assert (Hodd : Z.odd n = true).
  { rewrite Zmod_odd in Hmod. by destruct (Z.odd n). }
  assert (5 ≤ n).
  { destruct (Z.eq_dec n 4) as [->|]; [done|lia]. }
  destruct (is_prime_split n) as (s & r & Hsplit & Hs & Hr & _); [done|done|].
  cbv zeta. rewrite (M_bind_lift_run _ _ _ _ Hsplit).
  assert (Hrounds : ∀ (l : list Z) t, ∃ c t',
            for_inM l (λ _ _, is_prime_round n s r) () t = Ret (c, t')).
  { clear t. induction l as [|x l IH]; intros t; [by eexists _, _|].
    cbn [for_inM].
    destruct (is_prime_round_total n s r t) as [c Hc]; [done|lia|].
    rewrite (M_bind_run _ _ _ _ _ Hc). destruct c as [[]|b]; [apply IH|].
    by eexists _, _. }
  destruct (Hrounds (range 0 k) t) as (c & t' & Hc).
  rewrite (M_bind_run _ _ _ _ _ Hc). destruct c; by eauto.
Qed.

Lemma prime_odd (n : Z) : Z.prime n → n ≠ 2 → Z.odd n = true.
Proof.
  intros [Hn Hprime] Hn2. rewrite <- Z.negb_even.
  destruct (Z.even n) eqn:Heven; [|done].
  apply Z.even_spec in Heven as [c ->].
  exfalso. apply (Hprime 2); [lia|]. exists c. lia.
Qed.

Lemma prime_7 : Z.prime 7.
Proof.
  split; [lia|]. intros n Hn [c Hc].
  assert (n = 2 ∨ n = 3 ∨ n = 4 ∨ n = 5 ∨ n = 6) as Hcases by lia.
  destruct Hcases as [->|[->|[->|[->| ->]]]]; lia.
Qed.

(** C7.  [is_prime] has no false negative: on a prime [n] it returns
    [True], for every number of rounds and whatever witnesses are drawn
    (every tape; each witness drawn is in [[2, n - 2]] and each value of
    that range can be drawn); and it returns [False] for every [n <= 1]
    and every even [n > 2]. *)
Theorem is_prime_no_false_negative (n k : Z) (t : tape) :
  (Z.prime n → ∃ t', is_prime n k t = Ret (true, t')) ∧
  (n ≤ 1 ∨ (2 < n ∧ Z.even n = true) → is_prime n k t = Ret (false, t)).
Proof.
  split.
  - intros Hprime. pose proof (Z.prime_ge_2 n Hprime) as Hn.
    unfold is_prime.
    destruct (Z.eqb_spec n 2); [by exists t|].
    destruct (Z.eqb_spec n 3); [by exists t|]. cbn [orb].
    pose proof (prime_odd n Hprime ltac:(done)) as Hodd.
    destruct (Z.leb_spec n 1); [lia|].
    assert (Hmod : n `mod` 2 = 1) by (by rewrite Zmod_odd, Hodd).
    rewrite Hmod. cbn [orb Z.eqb]. cbv zeta.
    assert (5 ≤ n).
    { destruct (Z.eq_dec n 4) as [->|]; [done|lia]. }
    destruct (is_prime_split n) as (s & r & Hsplit & Hs & Hr & Heq & _);
      [done|done|].
    rewrite (M_bind_lift_run _ _ _ _ Hsplit).
    destruct (is_prime_rounds_prime n Hprime s r ltac:(done) ltac:(done)
                ltac:(done) ltac:(done) (range 0 k) t) as [t' Hrounds].
    rewrite (M_bind_run _ _ _ _ _ Hrounds). by exists t'.
  - intros Hn. unfold is_prime.
    destruct (Z.eqb_spec n 2); [lia|].
    destruct (Z.eqb_spec n 3) as [->|]; [by destruct Hn as [|[_ ?]]; [lia|]|].
    cbn [orb]. destruct Hn as [Hn|[_ Heven]].
    + by destruct (Z.leb_spec n 1); [|lia].
    + rewrite Zmod_even, Heven. cbn. by rewrite orb_true_r.
Qed.

Lemma is_prime_no_false_negative_witness :
  Z.prime 7 ∧ ∃ t', is_prime 7 128 zero_tape = Ret (true, t').
Proof.
  split; [exact prime_7|].
  exact (proj1 (is_prime_no_false_negative 7 128 zero_tape) prime_7).
Defined.

Example is_prime_examples :
  (∃ t', is_prime 97 128 zero_tape = Ret (true, t')) ∧
  is_prime 100 128 zero_tape = Ret (false, zero_tape) ∧
  is_prime 1 128 zero_tape = Ret (false, zero_tape).
Proof. split_and!; [eexists|..]; by vm_compute. Qed.

(** ** The arithmetic of RSA *)

Lemma pow_mod_prime (p x k : Z) :
  Z.prime p → 0 ≤ k → x ^ (1 + k * (p - 1)) `mod` p = x `mod` p.
Proof.
  intros Hp Hk. pose proof (Z.prime_ge_2 p Hp).
  rewrite Z.pow_add_r, Z.pow_1_r by nia.
  destruct (Z.eq_dec (x `mod` p) 0) as [H0|Hnz].
  - by rewrite <- Z.mul_mod_idemp_l, H0, Z.mul_0_l by lia.
  - rewrite (Z.mul_comm k), Z.pow_mul_r by lia.
    rewrite <- Z.mul_mod_idemp_r, <- Z.mod_pow_l by lia.
    rewrite Z.fermat_nz, Z.pow_1_l by done.
    rewrite Z.mul_mod_idemp_r by lia. by rewrite Z.mul_1_r.
Qed.

Lemma divide_mul_coprime (p q a : Z) :
  Z.gcd q p = 1 → (p | a) → (q | a) → (p * q | a).
Proof.
  intros Hgcd [c ->] Hq. rewrite Z.mul_comm in Hq.
  apply Z.gauss in Hq as [c' ->]; [|done]. exists c'. lia.
Qed.

(** Raising to the power [e * d] is the identity modulo [p * q]. *)
Lemma rsa_identity (p q e d x : Z) :
  Z.prime p → Z.prime q → p ≠ q → 0 ≤ e → 0 ≤ d →
  (e * d) `mod` ((p - 1) * (q - 1)) = 1 →
  x ^ (e * d) `mod` (p * q) = x `mod` (p * q).
Proof.
  intros Hp Hq Hpq He Hd Hed.
  pose proof (Z.prime_ge_2 p Hp). pose proof (Z.prime_ge_2 q Hq).
  set (k := (e * d) `div` ((p - 1) * (q - 1))).
  assert (Hk : 0 ≤ k) by (apply Z.div_pos; nia).
  assert (Heq : e * d = 1 + k * (p - 1) * (q - 1)).
  { pose proof (Z.div_mod (e * d) ((p - 1) * (q - 1)) ltac:(nia)) as Hdm.
    rewrite Hed in Hdm. fold k in Hdm. lia. }
  apply Z.cong_iff_ex.
  assert (Hmodp : x ^ (e * d) `mod` p = x `mod` p).
  { rewrite Heq. replace (k * (p - 1) * (q - 1)) with (k * (q - 1) * (p - 1)) by lia.
    apply pow_mod_prime; [done|nia]. }
  assert (Hmodq : x ^ (e * d) `mod` q = x `mod` q).
  { rewrite Heq. apply pow_mod_prime; [done|nia]. }
  apply Z.cong_iff_0, Z.mod_divide in Hmodp; [|lia].
  apply Z.cong_iff_0, Z.mod_divide in Hmodq; [|lia].
  destruct (divide_mul_coprime p q (x ^ (e * d) - x)) as [c Hc]; [|done|done|by exists c].
  apply Z.coprime_prime_l; [done|].
  intros Hdiv. apply Z.divide_prime_prime in Hdiv; [|done|done]. by subst.
Qed.

(** The blinded value, raised to [d], is the blinded plaintext. *)
Lemma blinded_power (n e d m r : Z) :
  (∀ x, x ^ (e * d) `mod` n = x `mod` n) → 0 ≤ e → 0 ≤ d → n ≠ 0 →
  ((m ^ e `mod` n * (r ^ e `mod` n)) `mod` n) ^ d `mod` n = (m * r) `mod` n.
Proof.
  intros Hid He Hd Hn.
  rewrite <- Z.mul_mod, <- Z.pow_mul_l by done.
  by rewrite Z.mod_pow_l, <- Z.pow_mul_r.
Qed.

(** Floor division by [r] gives the plaintext back exactly when [m * r]
    did not wrap around the modulus. *)
Lemma unblinded_exact (n m r : Z) :
  0 < r → 0 ≤ m < n →
  (m * r < n → unblinded n m r = m) ∧ (n ≤ m * r → unblinded n m r < m).
Proof.
  intros Hr Hm. unfold unblinded. split; intros Hwrap.
  - rewrite (Z.mod_small (m * r)) by nia.
    rewrite Z.div_mul by lia. apply Z.mod_small. lia.
  - pose proof (Z.mod_pos_bound (m * r) n ltac:(lia)) as Hy.
    assert (Hq : ((m * r) `mod` n) `div` r < m)
      by (apply Z.div_lt_upper_bound; lia).
    pose proof (Z.div_pos ((m * r) `mod` n) r ltac:(lia) ltac:(lia)).
    rewrite Z.mod_small; lia.
Qed.

(** ** Running [_decrypt], [encrypt], [decrypt], [quick_test], [__init__] *)

Lemma _decrypt_blinded_run (self : RsaKeyPair) (d cipher : Z) (t : tape) :
  key_d self = Some d → 1023 ≤ key_nbits self →
  0 ≤ key_e self → 0 ≤ d → key_n self ≠ 0 →
  _decrypt self cipher t
  = Ret ((((((cipher * (blinding_factor t ^ key_e self `mod` key_n self))
               `mod` key_n self) ^ d) `mod` key_n self)
            `div` blinding_factor t) `mod` key_n self,
         tape_tail t).
Proof.
  intros Hd Hbits He Hdn Hn. unfold _decrypt.
  destruct (Z.leb_spec 1023 (key_nbits self)); [|lia].
  rewrite (M_bind_run _ _ _ _ _ (blinding_factor_run t)).
  pose proof (blinding_factor_range t) as Hr.
  rewrite (M_bind_lift_run _ _ _ _ (pow_spec _ _ _ He Hn)).
  assert (Hmod : ∀ x, pymod x (key_n self) = Ret (x `mod` key_n self)).
  { intros x. unfold pymod. by destruct (Z.eqb_spec (key_n self) 0). }
  assert (Hdiv : ∀ x, floordiv x (blinding_factor t)
                      = Ret (x `div` blinding_factor t)).
  { intros x. unfold floordiv.
    by destruct (Z.eqb_spec (blinding_factor t) 0); [lia|]. }
  rewrite (M_bind_lift_run _ _ _ _ (Hmod _)), Hd.
  rewrite (M_bind_lift_run (attr "d" (Some d)) _ _ d eq_refl).
  rewrite (M_bind_lift_run _ _ _ _ (pow_spec _ _ _ Hdn Hn)).
  rewrite (M_bind_lift_run _ _ _ _ (Hdiv _)). by rewrite Hmod.
Qed.

Lemma _decrypt_plain_run (self : RsaKeyPair) (d cipher : Z) (t : tape) :
  key_d self = Some d → key_nbits self < 1023 → 0 ≤ d → key_n self ≠ 0 →
  _decrypt self cipher t = Ret (cipher ^ d `mod` key_n self, t).
Proof.
  intros Hd Hbits Hdn Hn. unfold _decrypt.
  destruct (Z.leb_spec 1023 (key_nbits self)); [lia|].
  rewrite Hd. cbn [attr]. rewrite (M_bind_lift_run _ _ _ _ eq_refl).
  by rewrite pow_spec.
Qed.

Lemma encrypt_run (self : RsaKeyPair) (msg : pyval) (s : pystr)
    (toc c m : Z) (t t' : tape) :
  str msg = Ret s →
  stringToNumber (PyStr s) = Ret toc →
  _encrypt self toc = Ret c →
  key_only_pubkey self = false →
  _decrypt self c t = Ret (m, t') →
  encrypt self msg t
  = if m =? toc then Ret (c, t') else Raise (ValueError not_same_after_decryption).
Proof.
  intros Hs Htoc Hc Hpriv Hm. unfold encrypt.
  rewrite (M_bind_lift_run _ _ _ _ Hs).
  rewrite (M_bind_lift_run _ _ _ _ Htoc), (M_bind_lift_run _ _ _ _ Hc), Hpriv.
  cbn [negb]. rewrite (M_bind_run _ _ _ _ _ Hm). by destruct (m =? toc).
Qed.

(** [decrypt] decodes what [_decrypt] returns, when [str] takes it. *)
Lemma decrypt_run (self : RsaKeyPair) (cipher m : Z) (t t' : tape) :
  _decrypt self cipher t = Ret (m, t') →
  0 ≤ m < 10 ^ Z.of_nat max_str_digits →
  decrypt self cipher t
  = Ret (digits_value <$> groups4 (strip_marker (decimal m)), t').
Proof.
  intros Hm Hrange. unfold decrypt. rewrite (M_bind_run _ _ _ _ _ Hm).
  assert (Hstr : str (PyInt m) = Ret (decimal m))
    by (apply str_int_small; lia).
  rewrite (M_bind_lift_run _ _ _ _ Hstr). unfold lift.
  rewrite (numberToString_digits (PyStr (decimal m)) (decimal m)); [done..|].
  unfold decimal. destruct (Z.ltb_spec m 0); [lia|].
  apply str_nonneg_is_digits. lia.
Qed.

Lemma quick_test_run (self : RsaKeyPair) (d phi c : Z) (t t' : tape) :
  key_d self = Some d → key_phi self = Some phi → phi ≠ 0 →
  (key_e self * d) `mod` phi = 1 →
  _encrypt self 12 = Ret c → _decrypt self c t = Ret (12, t') →
  quick_test self t = Ret ((), t').
Proof.
  intros Hd Hphi Hnz Hed Hc Hm. unfold quick_test.
  rewrite Hd, Hphi. cbn [attr]. rewrite !(M_bind_lift_run _ _ _ _ eq_refl).
  unfold pymod. destruct (Z.eqb_spec phi 0); [done|].
  rewrite (M_bind_lift_run _ _ _ _ eq_refl), Hed. cbn [Z.eqb Pos.eqb negb].
  rewrite (M_bind_lift_run _ _ _ _ Hc), (M_bind_run _ _ _ _ _ Hm). done.
Qed.

(** [__init__] on given [p] and [q], the rest derived. *)
Lemma init_run_from_primes (fuel : nat) (a : init_args) (p q e d : Z) (t t' : tape) :
  (arg_keylength a <? 1024) && negb (arg_ignore_warning a) = false →
  arg_only_pubkey a = false →
  given (arg_p a) = Some p → given (arg_q a) = Some q →
  given (arg_e a) = None → given (arg_n a) = None → given (arg_d a) = None →
  get_e ((p - 1) * (q - 1)) = Some e →
  get_d fuel ((p - 1) * (q - 1)) e = Ret d →
  let self := {| key_only_pubkey := false; key_e := e; key_n := p * q;
                 key_nbits := bitcount (p * q);
                 key_p := Some p; key_pbits := Some (bitcount p);
                 key_q := Some q; key_phi := Some ((p - 1) * (q - 1));
                 key_d := Some d |} in
  quick_test self t = Ret ((), t') →
  __init__ fuel a t = Ret (self, t').
Proof.
  intros Hguard Hmode Hp Hq He Hn Hd Hget_e Hget_d self Hqt.
  unfold __init__. rewrite Hguard, Hmode, Hp, Hq, He, Hn, Hd.
  rewrite (M_bind_run _ _ t t p eq_refl). cbv zeta.
  rewrite (M_bind_run _ _ t t q eq_refl). rewrite Hget_e.
  rewrite (M_bind_run _ _ t t e eq_refl).
  rewrite (M_bind_lift_run _ _ _ _ Hget_d).
  fold self. by rewrite (M_bind_run _ _ _ _ _ Hqt).
Qed.

(** ** Encrypting and decrypting with a proper key *)

Section proper.
Variables (self : RsaKeyPair) (p q d : Z).
Hypothesis key_ok : proper_key self p q d.

Lemma proper_n_ge_4 : 4 ≤ key_n self.
Proof using key_ok.
  destruct key_ok. pose proof (Z.prime_ge_2 p proper_p0).
  pose proof (Z.prime_ge_2 q proper_q0). nia.
Qed.

Lemma proper_identity (x : Z) :
  x ^ (key_e self * d) `mod` key_n self = x `mod` key_n self.
Proof using key_ok.
  destruct key_ok. rewrite proper_n0. by apply rsa_identity.
Qed.

(** [_decrypt] on what [_encrypt] returns for [m]: the plaintext on the
    path without blinding; with blinding, [unblinded n m r]. *)
Lemma _decrypt_encrypted (m : Z) (t : tape) :
  0 ≤ m < key_n self →
  _decrypt self (m ^ key_e self `mod` key_n self) t
  = if 1023 <=? key_nbits self
    then Ret (unblinded (key_n self) m (blinding_factor t), tape_tail t)
    else Ret (m, t).
Proof using key_ok.
  intros Hm. pose proof proper_n_ge_4 as Hn. pose proof proper_identity as Hid.
  destruct key_ok.
  destruct (Z.leb_spec 1023 (key_nbits self)).
  - rewrite (_decrypt_blinded_run self d) by (done || lia).
    by rewrite blinded_power by (done || lia).
  - rewrite (_decrypt_plain_run self d) by (done || lia).
    rewrite Z.mod_pow_l, <- Z.pow_mul_r, Hid by done.
    by rewrite Z.mod_small.
Qed.

Lemma bitcount_lt (a b : Z) : 0 ≤ a → bitcount a < bitcount b → a < b.
Proof.
  rewrite !bitcount_spec. unfold bit_length. intros Ha Hlt.
  destruct (Z.ltb_spec 0 a), (Z.ltb_spec 0 b); try lia.
  - apply Z.log2_lt_cancel. lia.
  - pose proof (Z.log2_nonneg a). lia.
Qed.

Lemma _encrypt_run (toc : Z) :
  bitcount toc < key_nbits self →
  _encrypt self toc = Ret (toc ^ key_e self `mod` key_n self).
Proof using key_ok.
  intros Hbits. pose proof proper_n_ge_4. destruct key_ok. unfold _encrypt.
  destruct (Z.leb_spec (key_nbits self) (bitcount toc)); [lia|].
  apply pow_spec; lia.
Qed.

(** X5.  With a proper key the round trip holds for a message of at most
    1074 characters when the encoded message, times the largest blinding
    factor, stays below the modulus (nothing more than the size check of
    [_encrypt] is needed on the path without blinding), whatever is
    drawn. *)
Lemma round_trip_proper (s : pystr) (t1 t2 : tape) :
  Forall (λ c, 0 ≤ c < 10000) s →
  (length s ≤ 1074)%nat →
  bitcount (digits_value (encoded s)) < key_nbits self →
  (1023 ≤ key_nbits self → digits_value (encoded s) * 10 ^ 49 < key_n self) →
  ∃ c t1' t2', encrypt self (PyStr s) t1 = Ret (c, t1') ∧
               decrypt self c t2 = Ret (s, t2').
Proof using key_ok.
  intros Hs Hlen Hbits Hsmall.
  pose proof (below_10000_codepoint s Hs) as Hcp.
  pose proof (codepoint_nonneg s Hcp) as Hnn.
  assert (Hle : (length (encoded s) ≤ max_str_digits)%nat)
    by (rewrite encoded_length by done; unfold max_str_digits; lia).
  pose proof (encoded_value_bound s Hnn Hle) as Hlim.
  pose proof (decimal_encoded s Hnn) as Hdigits.
  pose proof (stringToNumber_value s Hcp Hle) as Hnum.
  set (toc := digits_value (encoded s)) in *.
  assert (Htoc : 0 ≤ toc < key_n self).
  { split; [lia|]. apply bitcount_lt; [lia|].
    by rewrite <- (proper_nbits _ _ _ _ key_ok). }
  assert (Hdec : ∀ t, ∃ t', _decrypt self (toc ^ key_e self `mod` key_n self) t
                            = Ret (toc, t')).
  { intros t. rewrite _decrypt_encrypted by done.
    destruct (Z.leb_spec 1023 (key_nbits self)); [|by eauto].
    pose proof (blinding_factor_range t) as [Hlo Hhi].
    assert (Hpos : 0 < blinding_factor t)
      by (change (10 ^ 46) with 10000000000000000000000000000000000000000000000 in Hlo; lia).
    pose proof (Z.mul_le_mono_nonneg_l _ _ toc (proj1 Htoc) Hhi).
    destruct (unblinded_exact (key_n self) toc (blinding_factor t) Hpos Htoc)
      as [Heq _].
    rewrite Heq by lia. by eauto. }
  destruct (Hdec t1) as [t1' Hdec1]. destruct (Hdec t2) as [t2' Hdec2].
  exists (toc ^ key_e self `mod` key_n self), t1', t2'. split.
  - rewrite (encrypt_run self (PyStr s) s toc
               (toc ^ key_e self `mod` key_n self) toc t1 t1');
      [by rewrite Z.eqb_refl|done|done|by apply _encrypt_run
      |by destruct key_ok|done].
  - rewrite (decrypt_run self _ toc t2 t2') by done.
    by rewrite Hdigits, decode_encoded.
Qed.

(** X6.  On the blinded path, when the encoded message (of at most 1074
    characters) times the smallest blinding factor reaches the modulus,
    [_decrypt] returns less than the message, whatever is drawn;
    [encrypt] then fails on its own check. *)
Lemma encrypt_fails_proper (s : pystr) (t : tape) :
  Forall (λ c, 0 ≤ c < 10000) s →
  (length s ≤ 1074)%nat →
  bitcount (digits_value (encoded s)) < key_nbits self →
  1023 ≤ key_nbits self →
  key_n self ≤ digits_value (encoded s) * 10 ^ 46 →
  encrypt self (PyStr s) t = Raise (ValueError not_same_after_decryption).
Proof using key_ok.
  intros Hs Hlen Hbits Hblind Hwrap.
  pose proof (below_10000_codepoint s Hs) as Hcp.
  pose proof (codepoint_nonneg s Hcp) as Hnn.
  assert (Hle : (length (encoded s) ≤ max_str_digits)%nat)
    by (rewrite encoded_length by done; unfold max_str_digits; lia).
  pose proof (stringToNumber_value s Hcp Hle) as Hnum.
  set (toc := digits_value (encoded s)) in *.
  assert (Htoc : 0 ≤ toc < key_n self).
  { split; [apply digits_value_nonneg; by apply encoded_is_digits|].
    apply bitcount_lt; [apply digits_value_nonneg; by apply encoded_is_digits|].
    by rewrite <- (proper_nbits _ _ _ _ key_ok). }
  pose proof (blinding_factor_range t) as [Hlo Hhi].
  assert (Hpos : 0 < blinding_factor t)
    by (change (10 ^ 46) with 10000000000000000000000000000000000000000000000 in Hlo; lia).
  pose proof (Z.mul_le_mono_nonneg_l _ _ toc (proj1 Htoc) Hlo).
  rewrite (encrypt_run self (PyStr s) s toc (toc ^ key_e self `mod` key_n self)
             (unblinded (key_n self) toc (blinding_factor t)) t (tape_tail t));
    [|done|done|by apply _encrypt_run|by destruct key_ok|].
  - destruct (unblinded_exact (key_n self) toc (blinding_factor t) Hpos Htoc)
      as [_ Hlt].
    specialize (Hlt ltac:(lia)).
    by destruct (Z.eqb_spec (unblinded (key_n self) toc (blinding_factor t)) toc);
      [lia|].
  - rewrite _decrypt_encrypted by done.
    by destruct (Z.leb_spec 1023 (key_nbits self)); [|lia].
Qed.
End proper.

(** ** Running the model on a 1128-bit key *)

Lemma bz_powmod_pos_spec (b : bigZ) (e : positive) (m : bigZ) :
  BigZ.to_Z m ≠ 0 →
  BigZ.to_Z (bz_powmod_pos b e m)
  = BigZ.to_Z b ^ Z.pos e `mod` BigZ.to_Z m.
Proof.
  intros Hm. induction e as [e IH|e IH|]; cbn [bz_powmod_pos].
  - rewrite !BigZ.spec_modulo, !BigZ.spec_mul, !BigZ.spec_modulo, !BigZ.spec_mul, IH.
    rewrite Pos2Z.inj_xI, Z.pow_add_r, Z.pow_1_r, (Z.mul_comm 2), Z.pow_mul_r,
      Z.pow_2_r by lia.
    by rewrite <- Z.mul_mod, Z.mul_mod_idemp_l by done.
  - rewrite !BigZ.spec_modulo, !BigZ.spec_mul, IH.
    rewrite Pos2Z.inj_xO, (Z.mul_comm 2), Z.pow_mul_r, Z.pow_2_r by lia.
    by rewrite <- Z.mul_mod by done.
  - by rewrite BigZ.spec_modulo, Z.pow_1_r.
Qed.

Lemma fast_powmod_spec (b e m : Z) :
  0 ≤ e → m ≠ 0 → fast_powmod b e m = b ^ e `mod` m.
Proof.
  intros He Hm. destruct e as [|e|e]; [done| |lia].
  unfold fast_powmod. rewrite bz_powmod_pos_spec; rewrite !BigZ.spec_of_Z; done.
Qed.

Lemma _decrypt_blinded_fast (self : RsaKeyPair) (d cipher : Z) (t : tape) :
  key_d self = Some d → 1023 ≤ key_nbits self →
  0 ≤ key_e self → 0 ≤ d → key_n self ≠ 0 →
  _decrypt self cipher t
  = Ret ((fast_powmod
            ((cipher * fast_powmod (blinding_factor t) (key_e self) (key_n self))
               `mod` key_n self) d (key_n self)
          `div` blinding_factor t) `mod` key_n self,
         tape_tail t).
Proof.
  intros Hd Hbits He Hdn Hn.
  rewrite (_decrypt_blinded_run self d) by done. by rewrite !fast_powmod_spec.
Qed.

Lemma _encrypt_fast (self : RsaKeyPair) (msg : Z) :
  bitcount msg < key_nbits self → 0 ≤ key_e self → key_n self ≠ 0 →
  _encrypt self msg = Ret (fast_powmod msg (key_e self) (key_n self)).
Proof.
  intros Hbits He Hn. unfold _encrypt.
  destruct (Z.leb_spec (key_nbits self) (bitcount msg)); [lia|].
  rewrite fast_powmod_spec by done. by apply pow_spec.
Qed.

Lemma mersenne_key_facts :
  key_nbits mersenne_key = 1128 ∧ 0 ≤ mersenne_d ∧ key_n mersenne_key ≠ 0 ∧
  (key_e mersenne_key * mersenne_d) `mod` mersenne_phi = 1.
Proof.
  split_and!.
  - vm_compute. reflexivity.
  - apply Z.leb_le. vm_compute. reflexivity.
  - apply Z.eqb_neq. vm_compute. reflexivity.
  - vm_compute. reflexivity.
Qed.

Lemma mersenne_quick_test :
  quick_test mersenne_key zero_tape = Ret ((), zero_tape).
Proof.
  destruct mersenne_key_facts as (Hbits & Hd & Hn & Hed).
  apply (quick_test_run mersenne_key mersenne_d mersenne_phi
           (fast_powmod 12 13 (key_n mersenne_key)) zero_tape zero_tape).
  - reflexivity.
  - vm_compute. reflexivity.
  - apply Z.eqb_neq. vm_compute. reflexivity.
  - exact Hed.
  - apply _encrypt_fast; [rewrite Hbits; vm_compute; reflexivity|done|exact Hn].
  - rewrite (_decrypt_blinded_fast mersenne_key mersenne_d);
      [|reflexivity|rewrite Hbits; lia|done|exact Hd|exact Hn].
    vm_compute. reflexivity.
Qed.

Lemma mersenne_key_constructed :
  __init__ 100 mersenne_args zero_tape = Ret (mersenne_key, zero_tape).
Proof.
  apply (init_run_from_primes 100 mersenne_args mersenne_p mersenne_q 13
           mersenne_d zero_tape zero_tape).
  - reflexivity.
  - reflexivity.
  - reflexivity.
  - reflexivity.
  - reflexivity.
  - reflexivity.
  - reflexivity.
  - vm_compute. reflexivity.
  - vm_compute. reflexivity.
  - exact mersenne_quick_test.
Qed.

Lemma long_message_encoded :
  Forall (λ c, 0 ≤ c < 10000) long_message ∧
  stringToNumber (PyStr long_message) = Ret (digits_value (encoded long_message)) ∧
  bitcount (digits_value (encoded long_message)) = 994.
Proof.
  split_and!.
  - apply Forall_replicate. lia.
  - apply stringToNumber_value.
    + apply Forall_replicate. unfold is_codepoint. lia.
    + apply Nat.leb_le. vm_compute. reflexivity.
  - vm_compute. reflexivity.
Qed.

(** C1 fails on the code.  [RsaKeyPair(p=2**521 - 1, q=2**607 - 1)] is
    constructed (1128 bits, [e = 13], [d] from [get_d]); the message
    ['A' * 74] has characters below 10000 and its encoded integer has 994
    bits, fewer than [nbits]; yet [encrypt] does not return: its check of
    [_decrypt] against the encoded message fails, because the blinded
    path divides [(m * r) mod n] by [r] and [m * r] is past [n]. *)
Theorem encrypt_fails_on_long_message :
  __init__ 100 mersenne_args zero_tape = Ret (mersenne_key, zero_tape) ∧
  1024 ≤ key_nbits mersenne_key ∧
  Forall (λ c, 0 ≤ c < 10000) long_message ∧
  (∃ toc, stringToNumber (PyStr long_message) = Ret toc ∧
          bitcount toc < key_nbits mersenne_key) ∧
  encrypt mersenne_key (PyStr long_message) zero_tape
  = Raise (ValueError not_same_after_decryption).
Proof.
  destruct mersenne_key_facts as (Hbits & Hd & Hn & Hed).
  destruct long_message_encoded as (Hchars & Htoc & Htocbits).
  split_and!.
  - exact mersenne_key_constructed.
  - rewrite Hbits. lia.
  - exact Hchars.
  - eexists. split; [exact Htoc|]. rewrite Hbits, Htocbits. lia.
  - set (toc := digits_value (encoded long_message)) in *.
    set (c := fast_powmod toc (key_e mersenne_key) (key_n mersenne_key)).
    rewrite (encrypt_run mersenne_key (PyStr long_message) long_message toc c
               ((fast_powmod
                   ((c * fast_powmod (blinding_factor zero_tape)
                           (key_e mersenne_key) (key_n mersenne_key))
                      `mod` key_n mersenne_key)
                   mersenne_d (key_n mersenne_key)
                 `div` blinding_factor zero_tape) `mod` key_n mersenne_key)
               zero_tape (tape_tail zero_tape)).
    + vm_compute. reflexivity.
    + reflexivity.
    + exact Htoc.
    + apply _encrypt_fast; [rewrite Hbits, Htocbits; lia|done|exact Hn].
    + reflexivity.
    + apply (_decrypt_blinded_fast mersenne_key mersenne_d);
        [reflexivity|rewrite Hbits; lia|done|exact Hd|exact Hn].
Qed.

(** The same ciphertext, as a sender who holds only the public key
    produces it (no check on that side), decrypts to another text. *)
Example decrypt_garbles_long_message :
  ∃ c s', _encrypt mersenne_key (digits_value (encoded long_message)) = Ret c ∧
          decrypt mersenne_key c zero_tape = Ret (s', zero_tape) ∧
          s' ≠ long_message.
Proof.
  destruct mersenne_key_facts as (Hbits & Hd & Hn & Hed).
  destruct long_message_encoded as (Hchars & Htoc & Htocbits).
  eexists. eexists. split_and!.
  - apply _encrypt_fast; [rewrite Hbits, Htocbits; lia|done|exact Hn].
  - unfold decrypt.
    rewrite (M_bind_run _ _ _ _ _
               (_decrypt_blinded_fast mersenne_key mersenne_d _ zero_tape
                  eq_refl ltac:(rewrite Hbits; lia) ltac:(done) Hd Hn)).
    vm_compute. reflexivity.
  - vm_compute. discriminate.
Qed.

(** * Further properties *)

(** ** More on [bitcount] and [_encrypt] *)

Lemma trial_prime_spec (p : Z) : trial_prime p = true → Z.prime p.
Proof.
  unfold trial_prime. intros [Hp Hall]%andb_prop.
  apply Z.ltb_lt in Hp. rewrite forallb_forall in Hall.
  split; [done|]. intros d Hd [c Hc].
  assert (Hin : In d (seqZ 2 (p - 2))).
  { apply list_elem_of_In, elem_of_seqZ. lia. }
  apply Hall in Hin. apply negb_true_iff, Z.eqb_neq in Hin.
  apply Hin. rewrite Hc. apply Z.mod_mul. lia.
Qed.

Lemma bitcount_range (n : Z) :
  (n ≤ 0 → bitcount n = 0) ∧
  (0 < n → 0 < bitcount n ∧ 2 ^ (bitcount n - 1) ≤ n < 2 ^ bitcount n).
Proof.
  rewrite bitcount_spec. unfold bit_length. split; intros Hn.
  - by destruct (Z.ltb_spec 0 n); [lia|].
  - destruct (Z.ltb_spec 0 n); [|lia].
    pose proof (Z.log2_nonneg n). pose proof (Z.log2_spec n Hn) as Hlog.
    replace (Z.log2 n + 1 - 1) with (Z.log2 n) by lia.
    replace (Z.log2 n + 1) with (Z.succ (Z.log2 n)) by lia. lia.
Qed.

(** X1.  [bitcount n] is the bit length of [n]: it is 0 when [n <= 0],
    and for a positive [n] it is the one [b] with
    [2 ^ (b - 1) <= n < 2 ^ b]. *)
Theorem bitcount_bounds (n : Z) :
  (n ≤ 0 → bitcount n = 0) ∧
  (0 < n → 0 < bitcount n ∧ 2 ^ (bitcount n - 1) ≤ n < 2 ^ bitcount n).
Proof.
  rewrite bitcount_spec. unfold bit_length.
  destruct (Z.ltb_spec 0 n) as [Hn|Hn].
  - split; [lia|intros _].
    pose proof (Z.log2_nonneg n). pose proof (Z.log2_spec n Hn) as Hlog.
    replace (Z.log2 n + 1 - 1) with (Z.log2 n) by lia.
    replace (Z.log2 n + 1) with (Z.succ (Z.log2 n)) by lia. lia.
  - split; [done|lia].
Qed.

Lemma bitcount_bounds_witness :
  bitcount (-5) = 0 ∧
  0 < bitcount 3233 ∧ 2 ^ (bitcount 3233 - 1) ≤ 3233 < 2 ^ bitcount 3233.
Proof.
  split.
  - apply (proj1 (bitcount_bounds (-5))). lia.
  - apply (proj2 (bitcount_bounds 3233)). lia.
Defined.


(** X2.  On a key whose [nbits] is the bit length of a positive [n] (so
    on every key that [__init__] returns), with [e >= 0]: [_encrypt]
    accepts every integer below [2 ^ (nbits - 1)], the negative ones
    included, and rejects every integer from [2 ^ (nbits - 1)] on, although
    those up to [n - 1] are below the modulus. *)
Theorem _encrypt_accepts_below_half (self : RsaKeyPair) (msg : Z) :
  key_nbits self = bitcount (key_n self) → 0 < key_n self → 0 ≤ key_e self →
  2 ^ (key_nbits self - 1) ≤ key_n self ∧
  (msg < 2 ^ (key_nbits self - 1) →
   _encrypt self msg = Ret (msg ^ key_e self `mod` key_n self)) ∧
  (2 ^ (key_nbits self - 1) ≤ msg →
   _encrypt self msg = Raise (ValueError (msg_too_big (key_nbits self)))).
Proof.
  intros Hbits Hn He.
  destruct (bitcount_range (key_n self)) as [_ Hnb].
  destruct (Hnb Hn) as (Hpos & Hlo & Hhi). rewrite <- Hbits in *.
  split; [done|]. split; intros Hmsg.
  - unfold _encrypt.
    destruct (Z.leb_spec (key_nbits self) (bitcount msg)) as [Hle|_];
      [|apply pow_spec; lia].
    exfalso. destruct (bitcount_range msg) as [H0 Hb].
    destruct (Z.le_gt_cases msg 0) as [Hm|Hm]; [rewrite H0 in Hle; lia|].
    destruct (Hb Hm) as (_ & Hmlo & _).
    assert (2 ^ (key_nbits self - 1) ≤ 2 ^ (bitcount msg - 1)); [|lia].
    apply Z.pow_le_mono_r; lia.
  - apply _encrypt_too_big.
    destruct (Z.le_gt_cases (key_nbits self) (bitcount msg)) as [|Hlt]; [done|].
    exfalso. assert (0 < msg).
    { pose proof (Z.pow_pos_nonneg 2 (key_nbits self - 1)). lia. }
    destruct (bitcount_range msg) as [_ Hb].
    destruct (Hb ltac:(done)) as (_ & _ & Hmhi).
    assert (2 ^ bitcount msg ≤ 2 ^ (key_nbits self - 1)); [|lia].
    apply Z.pow_le_mono_r; lia.
Qed.

Lemma _encrypt_accepts_below_half_witness :
  key_nbits toy_key = bitcount (key_n toy_key) ∧ 0 < key_n toy_key ∧
  0 ≤ key_e toy_key ∧
  2 ^ (key_nbits toy_key - 1) ≤ key_n toy_key ∧
  (2047 < 2 ^ (key_nbits toy_key - 1) →
   _encrypt toy_key 2047 = Ret (2047 ^ key_e toy_key `mod` key_n toy_key)) ∧
  (2 ^ (key_nbits toy_key - 1) ≤ 2047 →
   _encrypt toy_key 2047 = Raise (ValueError (msg_too_big (key_nbits toy_key)))).
Proof.
  assert (Hbits : key_nbits toy_key = bitcount (key_n toy_key))
    by (vm_compute; reflexivity).
  assert (Hn : 0 < key_n toy_key) by (simpl; lia).
  assert (He : 0 ≤ key_e toy_key) by (simpl; lia).
  split; [exact Hbits|]. split; [exact Hn|]. split; [exact He|].
  exact (_encrypt_accepts_below_half toy_key 2047 Hbits Hn He).
Defined.

(** ** More on [_decrypt], [decrypt] and [encrypt] *)




(** X8.  On a private key that [__init__] returned, with exponents that
    are not negative and a modulus of at most [10 ** 4300], [decrypt]
    returns a string for every integer ciphertext and whatever is drawn:
    [_decrypt] returns a number in [[0, n)], of at most 4300 digits, and
    [numberToString] accepts it. *)
Theorem decrypt_never_raises (fuel : nat) (a : init_args) (t0 t0' : tape)
    (self : RsaKeyPair) (cipher : Z) (t : tape) :
  __init__ fuel a t0 = Ret (self, t0') → arg_only_pubkey a = false →
  0 ≤ key_e self → (∀ d, key_d self = Some d → 0 ≤ d) →
  key_n self ≤ 10 ^ 4300 →
  ∃ m s t', _decrypt self cipher t = Ret (m, t') ∧ 0 ≤ m < key_n self ∧
            decrypt self cipher t = Ret (s, t').
Proof.
  intros Hinit Hpriv He Hdnn Hlim.
  change 4300 with (Z.of_nat max_str_digits) in Hlim.
  apply init_inv in Hinit as (Hbits & _ & _ & Hmode).
  destruct (key_only_pubkey self); [destruct Hmode; congruence|].
  destruct Hmode as (_ & t1 & Hqt).
  apply quick_test_inv in Hqt as (d & phi & c & Hd & _ & _ & _ & Henc & Hdec).
  apply _encrypt_ret_inv in Henc as (H12 & Hn0 & _).
  pose proof (Hdnn d Hd) as Hdn.
  assert (Hn : 0 < key_n self).
  { destruct (Z.le_gt_cases (key_n self) 0) as [Hle|]; [|done].
    rewrite Hbits, (bitcount_spec (key_n self)) in H12. unfold bit_length in H12.
    destruct (Z.ltb_spec 0 (key_n self)); [lia|].
    rewrite bitcount_spec in H12. done. }
  assert (Hrun : ∃ m t', _decrypt self cipher t = Ret (m, t') ∧
                         0 ≤ m < key_n self).
  { destruct (Z.le_gt_cases 1023 (key_nbits self)).
    - rewrite (_decrypt_blinded_run self d) by (done || lia).
      eexists _, _. split; [done|]. apply Z.mod_pos_bound. lia.
    - rewrite (_decrypt_plain_run self d) by (done || lia).
      eexists _, _. split; [done|]. apply Z.mod_pos_bound. lia. }
  destruct Hrun as (m & t' & Hrun & Hm).
  eexists m, _, t'. split_and!; [done|lia|lia|].
  apply decrypt_run; [done|lia].
Qed.

Lemma decrypt_never_raises_witness :
  __init__ 100 toy_args zero_tape = Ret (toy_key, zero_tape) ∧
  arg_only_pubkey toy_args = false ∧
  0 ≤ key_e toy_key ∧ (∀ d, key_d toy_key = Some d → 0 ≤ d) ∧
  key_n toy_key ≤ 10 ^ 4300 ∧
  ∃ m s t', _decrypt toy_key (-5) zero_tape = Ret (m, t') ∧
            0 ≤ m < key_n toy_key ∧
            decrypt toy_key (-5) zero_tape = Ret (s, t').
Proof.
  assert (He : 0 ≤ key_e toy_key) by (simpl; lia).
  assert (Hd : ∀ d, key_d toy_key = Some d → 0 ≤ d)
    by (intros d [= <-]; lia).
  assert (Hn : key_n toy_key ≤ 10 ^ 4300).
  { apply (Z.le_trans _ (10 ^ 4)); [simpl; lia|].
    apply Z.pow_le_mono_r; lia. }
  split; [exact toy_key_constructed|]. split; [reflexivity|].
  split; [exact He|]. split; [exact Hd|]. split; [exact Hn|].
  exact (decrypt_never_raises 100 toy_args zero_tape zero_tape toy_key (-5)
           zero_tape toy_key_constructed eq_refl He Hd Hn).
Defined.

(** Without these bounds [decrypt] can raise: on the key with negative
    exponents the ciphertext 61 has no inverse modulo [n]. *)
Example decrypt_raises_negative_exponent :
  decrypt negative_key 61 zero_tape = Raise (ValueError pow_not_invertible) ∧
  decrypt negative_key 1358 zero_tape = Ret ([], zero_tape).
Proof. by vm_compute. Qed.

(** X9.  Whenever [encrypt] returns a ciphertext on a key, a public-only
    key with the same [e], [n] and [nbits] returns the same ciphertext for
    the same message and draws nothing; the ciphertext is
    [pow(toc, e, n)] for the encoded message [toc], which is
    [toc ^ e mod n] when [e >= 0]. *)
Theorem encrypt_public_agrees (priv pub : RsaKeyPair) (msg : pyval) (c : Z)
    (t t' t0 : tape) :
  key_only_pubkey pub = true →
  key_e pub = key_e priv → key_n pub = key_n priv →
  key_nbits pub = key_nbits priv →
  encrypt priv msg t = Ret (c, t') →
  ∃ s toc, str msg = Ret s ∧ stringToNumber (PyStr s) = Ret toc ∧
           pow toc (key_e priv) (key_n priv) = Ret c ∧
           (0 ≤ key_e priv → c = toc ^ key_e priv `mod` key_n priv) ∧
           encrypt pub msg t0 = Ret (c, t0).
Proof.
  intros Hpub He Hn Hbits. unfold encrypt.
  intros (s & Hs & H)%M_bind_lift.
  apply M_bind_lift in H as (toc & Htoc & H).
  apply M_bind_lift in H as (c' & Hc & H).
  assert (c' = c) as ->.
  { destruct (negb (key_only_pubkey priv)).
    - apply M_bind_ret in H as (m & t1 & _ & H).
      destruct (negb (m =? toc)); [done|]. by injection H as ->.
    - by injection H as ->. }
  exists s, toc. split; [done|]. split; [done|].
  pose proof (_encrypt_ret_inv priv toc c Hc) as (_ & _ & Hpow).
  split; [done|]. split.
  - intros Hnn. by apply pow_ret_inv in Hpow as (_ & Hval & _); apply Hval.
  - rewrite (M_bind_lift_run _ _ _ _ Hs), (M_bind_lift_run _ _ _ _ Htoc).
    assert (Hc' : _encrypt pub toc = Ret c).
    { unfold _encrypt in *. by rewrite He, Hn, Hbits. }
    rewrite (M_bind_lift_run _ _ _ _ Hc'). by rewrite Hpub.
Qed.

Lemma encrypt_public_agrees_witness :
  key_only_pubkey toy_public_key = true ∧
  key_e toy_public_key = key_e toy_key ∧ key_n toy_public_key = key_n toy_key ∧
  key_nbits toy_public_key = key_nbits toy_key ∧
  encrypt toy_key (PyStr []) zero_tape = Ret (2743, zero_tape) ∧
  ∃ s toc, str (PyStr []) = Ret s ∧ stringToNumber (PyStr s) = Ret toc ∧
           pow toc (key_e toy_key) (key_n toy_key) = Ret 2743 ∧
           (0 ≤ key_e toy_key → 2743 = toc ^ key_e toy_key `mod` key_n toy_key) ∧
           encrypt toy_public_key (PyStr []) zero_tape = Ret (2743, zero_tape).
Proof.
  assert (Henc : encrypt toy_key (PyStr []) zero_tape = Ret (2743, zero_tape))
    by (vm_compute; reflexivity).
  split; [reflexivity|]. split; [reflexivity|]. split; [reflexivity|].
  split; [reflexivity|]. split; [exact Henc|].
  exact (encrypt_public_agrees toy_key toy_public_key (PyStr []) 2743
           zero_tape zero_tape zero_tape eq_refl eq_refl eq_refl eq_refl Henc).
Defined.

Example encrypt_negative_exponent_agrees :
  encrypt negative_key (PyStr []) zero_tape = Ret (640, zero_tape).
Proof. by vm_compute. Qed.

(** ** More on the codec *)

Lemma digits_value_app (a b : pystr) :
  digits_value (a ++ b)
  = digits_value a * 10 ^ Z.of_nat (length b) + digits_value b.
Proof.
  induction b as [|c b IH] using rev_ind.
  - rewrite app_nil_r. cbn. lia.
  - rewrite app_assoc, !digits_value_snoc, IH, length_app. cbn [length].
    rewrite Nat2Z.inj_add, Z.pow_add_r by lia. change (10 ^ Z.of_nat 1) with 10.
    nia.
Qed.

Lemma encoded_size (s : pystr) :
  Forall (λ c, 0 ≤ c < 10000) s →
  1421 * 10 ^ (4 * Z.of_nat (length s)) ≤ digits_value (encoded s)
  < 1422 * 10 ^ (4 * Z.of_nat (length s)).
Proof.
  intros Hs. unfold encoded. rewrite digits_value_app.
  change (digits_value (py "1421")) with 1421.
  assert (Hlen : length (concat (char_digits <$> s)) = (4 * length s)%nat).
  { rewrite length_concat_4, length_fmap; [done|].
    apply Forall_fmap. eapply Forall_impl; [exact Hs|].
    intros c Hc. by apply char_digits_length_4. }
  assert (Hdig : is_digits (concat (char_digits <$> s))).
  { assert (Hnn : Forall (λ c, 0 ≤ c) s)
      by (eapply Forall_impl; [exact Hs|]; simpl; lia).
    apply encoded_is_digits in Hnn. unfold encoded, is_digits in Hnn.
    by apply Forall_app in Hnn as [_ ?]. }
  pose proof (digits_value_bound _ Hdig) as Hb. rewrite Hlen in *.
  replace (Z.of_nat (4 * length s)) with (4 * Z.of_nat (length s)) in * by lia.
  lia.
Qed.

Lemma short_encoded (s : pystr) :
  Forall (λ c, 0 ≤ c < 10000) s → (length s ≤ 1074)%nat →
  stringToNumber (PyStr s) = Ret (digits_value (encoded s)).
Proof.
  intros Hs Hlen. apply stringToNumber_value; [by apply below_10000_codepoint|].
  rewrite encoded_length by done. unfold max_str_digits. lia.
Qed.

(** X11.  The integer that [stringToNumber] returns for a string of [L]
    characters below 10000, [L] at most 1074, lies between
    [1421 * 10 ^ (4 * L)] and [1422 * 10 ^ (4 * L)]: the marker followed
    by [4 * L] digits. *)
Theorem stringToNumber_size (s : pystr) :
  Forall (λ c, 0 ≤ c < 10000) s → (length s ≤ 1074)%nat →
  ∃ v, stringToNumber (PyStr s) = Ret v ∧
       1421 * 10 ^ (4 * Z.of_nat (length s)) ≤ v
       < 1422 * 10 ^ (4 * Z.of_nat (length s)).
Proof.
  intros Hs Hlen. exists (digits_value (encoded s)).
  split; [by apply short_encoded|by apply encoded_size].
Qed.

Lemma stringToNumber_size_witness :
  Forall (λ c, 0 ≤ c < 10000) (py "Hi") ∧ (length (py "Hi") ≤ 1074)%nat ∧
  ∃ v, stringToNumber (PyStr (py "Hi")) = Ret v ∧
       1421 * 10 ^ (4 * Z.of_nat (length (py "Hi"))) ≤ v
       < 1422 * 10 ^ (4 * Z.of_nat (length (py "Hi"))).
Proof.
  assert (Hs : Forall (λ c, 0 ≤ c < 10000) (py "Hi")).
  { repeat (constructor; [simpl; lia|]). constructor. }
  assert (Hlen : (length (py "Hi") ≤ 1074)%nat) by (simpl; lia).
  split; [exact Hs|]. split; [exact Hlen|].
  exact (stringToNumber_size (py "Hi") Hs Hlen).
Defined.

(** What [stringToNumber] returns is the value of the digits written. *)
Lemma stringToNumber_ret_inv (s : pystr) (v : Z) :
  Forall is_codepoint s → stringToNumber (PyStr s) = Ret v →
  v = digits_value (encoded s).
Proof.
  intros Hs Hv.
  destruct (Nat.le_gt_cases (length (encoded s)) max_str_digits) as [Hle|Hgt].
  - rewrite stringToNumber_value in Hv by done. by injection Hv.
  - by rewrite stringToNumber_limit in Hv.
Qed.

(** X12.  [stringToNumber] is injective on the strings of characters
    below 10000: two of them for which it returns the same integer are
    the same string.  It is not injective on all strings: it returns the
    same integer for two different strings with characters from 10000
    on. *)
Theorem stringToNumber_injective :
  (∀ (s1 s2 : pystr) (v : Z),
     Forall (λ c, 0 ≤ c < 10000) s1 → Forall (λ c, 0 ≤ c < 10000) s2 →
     stringToNumber (PyStr s1) = Ret v → stringToNumber (PyStr s2) = Ret v →
     s1 = s2) ∧
  (∃ (s1 s2 : pystr) (v : Z),
     s1 ≠ s2 ∧ Forall is_codepoint s1 ∧ Forall is_codepoint s2 ∧
     stringToNumber (PyStr s1) = Ret v ∧ stringToNumber (PyStr s2) = Ret v).
Proof.
  split.
  - intros s1 s2 v Hs1 Hs2 H1 H2.
    pose proof (below_10000_codepoint s1 Hs1) as Hc1.
    pose proof (below_10000_codepoint s2 Hs2) as Hc2.
    apply stringToNumber_ret_inv in H1; [|done].
    apply stringToNumber_ret_inv in H2; [|done].
    rewrite <- (decode_encoded s1), <- (decode_encoded s2) by done.
    rewrite <- (decimal_encoded s1), <- (decimal_encoded s2)
      by (by apply codepoint_nonneg).
    by rewrite <- H1, <- H2.
  - exists [10000; 10000], [100001; 0], 14211000010000. split_and!.
    + discriminate.
    + repeat (constructor; [unfold is_codepoint; lia|]). constructor.
    + repeat (constructor; [unfold is_codepoint; lia|]). constructor.
    + vm_compute. reflexivity.
    + vm_compute. reflexivity.
Qed.

(** X10.  A string of [L] characters below 10000, [L] at most 1074, with
    [1421 * 10 ^ (4 * L) >= 2 ^ (nbits - 1)] is too long for the key:
    [encrypt] raises the [ValueError] of [_encrypt], in both modes and
    before anything is drawn. *)
Theorem encrypt_too_long (self : RsaKeyPair) (s : pystr) (t : tape) :
  Forall (λ c, 0 ≤ c < 10000) s → (length s ≤ 1074)%nat →
  2 ^ (key_nbits self - 1) ≤ 1421 * 10 ^ (4 * Z.of_nat (length s)) →
  encrypt self (PyStr s) t = Raise (ValueError (msg_too_big (key_nbits self))).
Proof.
  intros Hs Hlen Hlong. pose proof (encoded_size s Hs) as [Hlo _].
  pose proof (short_encoded s Hs Hlen) as Htoc.
  unfold encrypt.
  rewrite (M_bind_lift_run (str (PyStr s)) _ _ s eq_refl).
  rewrite (M_bind_lift_run _ _ _ _ Htoc).
  assert (Hbig : key_nbits self ≤ bitcount (digits_value (encoded s))).
  { set (toc := digits_value (encoded s)) in *.
    assert (0 < toc).
    { pose proof (Z.pow_pos_nonneg 10 (4 * Z.of_nat (length s))). lia. }
    destruct (bitcount_range toc) as [_ Hb].
    destruct (Hb ltac:(done)) as (Hpos & _ & Hhi).
    destruct (Z.le_gt_cases (key_nbits self) (bitcount toc)); [done|].
    assert (2 ^ bitcount toc ≤ 2 ^ (key_nbits self - 1)); [|lia].
    apply Z.pow_le_mono_r; lia. }
  apply _encrypt_too_big in Hbig. unfold mbind, M_bind, lift. by rewrite Hbig.
Qed.

Lemma encrypt_too_long_witness :
  Forall (λ c, 0 ≤ c < 10000) (py "A") ∧ (length (py "A") ≤ 1074)%nat ∧
  2 ^ (key_nbits toy_key - 1) ≤ 1421 * 10 ^ (4 * Z.of_nat (length (py "A"))) ∧
  encrypt toy_key (PyStr (py "A")) zero_tape
  = Raise (ValueError (msg_too_big (key_nbits toy_key))).
Proof.
  assert (Hs : Forall (λ c, 0 ≤ c < 10000) (py "A")).
  { repeat (constructor; [simpl; lia|]). constructor. }
  assert (Hlen : (length (py "A") ≤ 1074)%nat) by (simpl; lia).
  assert (Hlong : 2 ^ (key_nbits toy_key - 1)
                  ≤ 1421 * 10 ^ (4 * Z.of_nat (length (py "A"))))
    by (vm_compute; discriminate).
  split; [exact Hs|]. split; [exact Hlen|]. split; [exact Hlong|].
  exact (encrypt_too_long toy_key (py "A") zero_tape Hs Hlen Hlong).
Defined.

(** A longer string does not reach [_encrypt]: [int] raises in
    [stringToNumber]. *)
Example encrypt_beyond_limit :
  encrypt toy_key (PyStr (replicate 1075 65)) zero_tape
  = Raise (ValueError int_digits_limit).
Proof. by vm_compute. Qed.

Lemma groups_below_10000 (gs : list pystr) :
  Forall (λ g, length g = 4%nat) gs → is_digits (concat gs) →
  Forall (λ c, 0 ≤ c < 10000) (digits_value <$> gs).
Proof.
  induction 1 as [|g gs Hg _ IH]; [done|]. cbn [concat].
  intros [Hgd Hrest]%Forall_app. rewrite fmap_cons. constructor; [|by apply IH].
  pose proof (digits_value_bound g Hgd) as Hb. rewrite Hg in Hb.
  change (10 ^ Z.of_nat 4) with 10000 in Hb. done.
Qed.

(** What [numberToString] returns on a non-negative integer has
    characters below 10000 only. *)
Lemma decoded_below_10000 (n : Z) :
  0 ≤ n →
  Forall (λ c, 0 ≤ c < 10000)
    (digits_value <$> groups4 (strip_marker (decimal n))).
Proof.
  intros Hn.
  assert (Hdig : is_digits (strip_marker (decimal n))).
  { apply strip_marker_is_digits. unfold decimal.
    destruct (Z.ltb_spec n 0); [lia|]. by apply str_nonneg_is_digits. }
  destruct (groups4_spec (strip_marker (decimal n))) as (rest & Heq & _ & Hlen).
  apply groups_below_10000; [done|].
  rewrite Heq in Hdig at 1. by apply Forall_app in Hdig as [Hdig _].
Qed.

(** X13.  For every string with a code point of 10000 or more that
    [stringToNumber] writes with at most 4300 digits, [stringToNumber]
    returns an integer and [numberToString] of that integer returns a
    string of characters below 10000, so never the string itself. *)
Theorem codec_fails_beyond_9999 (s : pystr) :
  Forall is_codepoint s → Exists (λ c, 10000 ≤ c) s →
  (length (encoded s) ≤ max_str_digits)%nat →
  ∃ v s', stringToNumber (PyStr s) = Ret v ∧
          numberToString (PyInt v) = Ret s' ∧
          Forall (λ c, 0 ≤ c < 10000) s' ∧ s' ≠ s.
Proof.
  intros Hs Hbig Hlen.
  pose proof (codepoint_nonneg s Hs) as Hnn.
  pose proof (encoded_value_bound s Hnn Hlen) as Hlim.
  set (v := digits_value (encoded s)) in *.
  exists v, (digits_value <$> groups4 (strip_marker (decimal v))).
  split_and!.
  - by apply stringToNumber_value.
  - by apply numberToString_int.
  - apply decoded_below_10000. lia.
  - intros Heq. pose proof (decoded_below_10000 v ltac:(lia)) as Hsmall.
    rewrite Heq in Hsmall. apply Exists_exists in Hbig as (c & Hc & Hc10).
    rewrite Forall_forall in Hsmall. specialize (Hsmall c Hc). lia.
Qed.

Lemma codec_fails_beyond_9999_witness :
  Forall is_codepoint [72; 128512] ∧ Exists (λ c, 10000 ≤ c) [72; 128512] ∧
  (length (encoded [72; 128512]%Z) ≤ max_str_digits)%nat ∧
  ∃ v s', stringToNumber (PyStr [72; 128512]) = Ret v ∧
          numberToString (PyInt v) = Ret s' ∧
          Forall (λ c, 0 ≤ c < 10000) s' ∧ s' ≠ [72; 128512].
Proof.
  assert (Hs : Forall is_codepoint [72; 128512]).
  { repeat (constructor; [unfold is_codepoint; lia|]). constructor. }
  assert (Hbig : Exists (λ c, 10000 ≤ c) [72; 128512]).
  { right. left. lia. }
  assert (Hlen : (length (encoded [72; 128512]%Z) ≤ max_str_digits)%nat)
    by (apply Nat.leb_le; vm_compute; reflexivity).
  exact (conj Hs (conj Hbig (conj Hlen
           (codec_fails_beyond_9999 [72; 128512] Hs Hbig Hlen)))).
Defined.

(** The first three digits of a number of three digits or more read as
    100 at least. *)
Lemma str_nonneg_leading (m : Z) :
  100 ≤ m →
  ∃ a b c rest, str_nonneg m = a :: b :: c :: rest ∧
                is_digits [a; b; c] ∧ 100 ≤ digits_value [a; b; c].
Proof.
  intros Hm.
  pose proof (str_nonneg_length_gt 2 m ltac:(simpl; lia)) as Hlen.
  pose proof (str_nonneg_is_digits m ltac:(lia)) as Hdig.
  pose proof (digits_value_str_nonneg m ltac:(lia)) as Hval.
  destruct (str_nonneg m) as [|a [|b [|c rest]]] eqn:Hs;
    [simpl in Hlen; lia..|].
  exists a, b, c, rest. split; [done|].
  change (a :: b :: c :: rest) with ([a; b; c] ++ rest) in Hdig, Hval.
  apply Forall_app in Hdig as [H3 Hrest]. split; [done|].
  rewrite digits_value_app in Hval.
  pose proof (digits_value_bound rest Hrest) as Hb.
  destruct (Z.le_gt_cases (10 ^ Z.of_nat (S (S (length rest)))) m) as [|Hlt].
  - rewrite !Nat2Z.inj_succ, !Z.pow_succ_r in * by lia. nia.
  - pose proof (str_nonneg_length_le (S (length rest)) m ltac:(lia)) as Hle.
    rewrite Hs in Hle. simpl in Hle. lia.
Qed.

(** X14.  [numberToString] on a negative integer: from [- 10 ** 4300]
    down it raises the [ValueError] of [str]; above that and from -100
    down it raises the [ValueError] of [chr], as the first group of four
    characters reads as a negative number; between -99 and -1 there is no
    group of four and it returns the empty string. *)
Theorem numberToString_negative (n : Z) :
  (n ≤ - 10 ^ 4300 →
   numberToString (PyInt n) = Raise (ValueError str_digits_limit)) ∧
  (- 10 ^ 4300 < n ≤ -100 →
   numberToString (PyInt n) = Raise (ValueError chr_out_of_range)) ∧
  (-100 < n < 0 → numberToString (PyInt n) = Ret []).
Proof.
  change 4300 with (Z.of_nat max_str_digits).
  assert (Hbig : 100 < 10 ^ Z.of_nat max_str_digits).
  { apply (Z.lt_le_trans _ (10 ^ 3)); [done|].
    apply Z.pow_le_mono_r; [lia|]. unfold max_str_digits. lia. }
  split_and!; intros Hn.
  - apply numberToString_limit. lia.
  - destruct (str_nonneg_leading (- n) ltac:(lia))
      as (a & b & c & rest & Hs & Hdig & Hval).
    unfold numberToString. cbn [str]. rewrite str_int_small by lia.
    cbn [mbind outcome_bind]. unfold decimal.
    destruct (Z.ltb_spec n 0); [|lia]. rewrite Hs.
    rewrite bool_decide_eq_false_2 by (rewrite marker_eq; intros [=]).
    cbn [length]. rewrite !Nat2Z.inj_succ.
    assert (Hk : 0 < Z.succ (Z.succ (Z.succ (Z.succ (Z.of_nat (length rest)))))
                     `div` 4).
    { apply Z.div_str_pos. lia. }
    unfold range. rewrite Z.sub_0_r, seqZ_cons by done. cbn [for_in].
    change (slice (45 :: a :: b :: c :: rest) (0 * 4) (0 * 4 + 4))
      with [45; a; b; c].
    cbn [int_of_str]. change (45 =? 45) with true. cbv iota.
    rewrite int_of_digits_ok; [|done|done|unfold max_str_digits; simpl; lia].
    cbn [mbind outcome_bind]. unfold chr.
    destruct (Z.leb_spec 0 (- digits_value [a; b; c])); [lia|]. done.
  - unfold numberToString. cbn [str]. rewrite str_int_small by lia.
    cbn [mbind outcome_bind]. unfold decimal.
    destruct (Z.ltb_spec n 0); [|lia].
    pose proof (str_nonneg_length_le 1 (- n) ltac:(simpl; lia)) as Hlen.
    set (msg := 45 :: str_nonneg (- n)).
    assert (Hmsg : (length msg ≤ 3)%nat) by (subst msg; simpl; lia).
    assert (Hzero : ∀ s : pystr, (length s ≤ 3)%nat →
                      range 0 (Z.of_nat (length s) `div` 4) = []).
    { intros s Hs. rewrite Z.div_small by lia. done. }
    destruct (bool_decide _); rewrite Hzero; [done| |done|done].
    rewrite length_drop. lia.
Qed.

Lemma numberToString_negative_witness :
  numberToString (PyInt (- 10 ^ 4300)) = Raise (ValueError str_digits_limit) ∧
  numberToString (PyInt (-1421)) = Raise (ValueError chr_out_of_range) ∧
  numberToString (PyInt (-42)) = Ret [].
Proof.
  assert (Hbig : - 10 ^ 4300 < -1421).
  { apply Z.opp_lt_mono. rewrite !Z.opp_involutive.
    apply (Z.lt_le_trans _ (10 ^ 4)); [done|]. apply Z.pow_le_mono_r; lia. }
  split_and!.
  - apply (proj1 (numberToString_negative (- 10 ^ 4300))). apply Z.le_refl.
  - apply (proj1 (proj2 (numberToString_negative (-1421)))).
    split; [exact Hbig|done].
  - clear Hbig. apply (proj2 (proj2 (numberToString_negative (-42)))). lia.
Defined.

(** ** More on [factors], [get_e] and [get_d] *)

Lemma factors_sound (n j : Z) : 0 < n → j ∈ factors n → 0 < j ∧ (j | n).
Proof.
  intros Hn (i & Hi & Hmod & Hj)%elem_of_factors.
  apply Z.mod_divide in Hmod as [c Hc]; [|lia].
  assert (0 < c) by nia.
  destruct Hj as [->| ->].
  - split; [lia|]. by exists c.
  - rewrite Hc, Z.div_mul by lia. split; [done|]. exists i. lia.
Qed.

(** X15.  For [1 <= n < 10000], [factors n] is the set of the positive
    divisors of [n]. *)
Theorem factors_divisors (n j : Z) :
  1 ≤ n < 10000 → j ∈ factors n ↔ 0 < j ∧ (j | n).
Proof.
  intros Hn. split.
  - apply factors_sound. lia.
  - intros [Hj Hdiv]. apply factors_complete; [lia|done|done].
Qed.

Lemma factors_divisors_witness :
  1 ≤ 12 < 10000 ∧ (4 ∈ factors 12 ↔ 0 < 4 ∧ (4 | 12)).
Proof. split; [lia|apply (factors_divisors 12 4); lia]. Defined.

(** The test that [get_e] makes on a candidate [i]. *)
Lemma get_e_test (phi i : Z) :
  0 < i →
  negb (existsb (λ j, phi `mod` j =? 0) (elements (factors i ∖ {[1]}))) = true
  ↔ Z.gcd i phi = 1.
Proof.
  intros Hi. rewrite negb_true_iff, <- not_true_iff_false, existsb_exists.
  split.
  - intros Hnone.
    pose proof (Z.gcd_nonneg i phi) as Hg.
    pose proof (Z.gcd_divide_l i phi) as Hgi.
    pose proof (Z.gcd_divide_r i phi) as Hgphi.
    destruct (Z.eq_dec (Z.gcd i phi) 0) as [H0|].
    { rewrite H0 in Hgi. apply Z.divide_0_l in Hgi. lia. }
    destruct (Z.eq_dec (Z.gcd i phi) 1); [done|].
    exfalso. apply Hnone. exists (Z.gcd i phi). split.
    + apply list_elem_of_In, elem_of_elements, elem_of_difference. split.
      * apply factors_complete; [lia|lia|done].
      * rewrite elem_of_singleton. lia.
    + apply Z.eqb_eq, Z.mod_divide; [lia|done].
  - intros Hgcd (j & Hj & Hmod).
    apply list_elem_of_In, elem_of_elements, elem_of_difference in Hj
      as [Hj Hj1].
    rewrite elem_of_singleton in Hj1.
    apply factors_sound in Hj as [Hpos Hji]; [|done].
    apply Z.eqb_eq, Z.mod_divide in Hmod; [|lia].
    pose proof (Z.gcd_greatest i phi j Hji Hmod) as Hdiv.
    rewrite Hgcd in Hdiv. apply Z.divide_1_r_nonneg in Hdiv; lia.
Qed.

Lemma find_first {A : Type} (f : A → bool) (l : list A) (x : A) :
  List.find f l = Some x →
  ∃ k, l !! k = Some x ∧ f x = true ∧
       ∀ k' y, (k' < k)%nat → l !! k' = Some y → f y = false.
Proof.
  induction l as [|a l IH]; [done|]. cbn [List.find].
  destruct (f a) eqn:Hfa.
  - intros [= ->]. exists 0%nat. split_and!; [done|done|]. intros; lia.
  - intros (k & Hk & Hfx & Hbefore)%IH. exists (S k). split_and!; [done|done|].
    intros [|k'] y Hlt; cbn; [by intros [= <-]|].
    apply Hbefore. lia.
Qed.

Lemma range_step_lookup (k : nat) (i : Z) :
  range_step 3 10001 2 !! k = Some i ↔ i = 3 + 2 * Z.of_nat k ∧ (k < 4999)%nat.
Proof.
  unfold range_step. change ((10001 - 3 + 2 - 1) `div` 2) with 4999.
  rewrite list_lookup_fmap, fmap_Some. split.
  - intros (x & Hx%lookup_seqZ & ->). lia.
  - intros [-> Hk]. exists (Z.of_nat k). split; [|done].
    apply lookup_seqZ. lia.
Qed.

Lemma range_step_elem (i : Z) :
  Z.odd i = true → 3 ≤ i ≤ 9999 → i ∈ range_step 3 10001 2.
Proof.
  intros Hodd Hi. apply list_elem_of_lookup. exists (Z.to_nat ((i - 3) `div` 2)).
  apply range_step_lookup.
  assert (Hmod : i `mod` 2 = 1) by (by rewrite Zmod_odd, Hodd).
  pose proof (Z.div_mod (i - 3) 2 ltac:(lia)) as Hdm.
  assert ((i - 3) `mod` 2 = 0).
  { rewrite <- Zminus_mod_idemp_l, Hmod. done. }
  assert (0 ≤ (i - 3) `div` 2) by (apply Z.div_pos; lia).
  assert ((i - 3) `div` 2 < 4999) by (apply Z.div_lt_upper_bound; lia).
  lia.
Qed.

(** X16.  [get_e phi] returns the least odd [i] from 3 to 9999 with
    [gcd i phi = 1], and [None] exactly when there is none. *)
Theorem get_e_least (phi : Z) :
  match get_e phi with
  | Some i =>
      Z.odd i = true ∧ 3 ≤ i ≤ 9999 ∧ Z.gcd i phi = 1 ∧
      ∀ j, Z.odd j = true → 3 ≤ j < i → Z.gcd j phi ≠ 1
  | None => ∀ j, Z.odd j = true → 3 ≤ j ≤ 9999 → Z.gcd j phi ≠ 1
  end.
Proof.
  unfold get_e. cbv zeta.
  destruct (List.find _ _) as [i|] eqn:Hfind.
  - apply find_first in Hfind as (k & Hk & Hacc & Hbefore).
    pose proof Hk as [-> Hk4999]%range_step_lookup.
    split_and!.
    + by rewrite Z.odd_add_mul_2.
    + lia.
    + lia.
    + apply get_e_test in Hacc; [done|lia].
    + intros j Hodd Hj Hgcd.
      apply range_step_elem in Hodd as Hin; [|lia].
      apply list_elem_of_lookup in Hin as [k' Hk'].
      pose proof Hk' as [-> _]%range_step_lookup.
      specialize (Hbefore k' _ ltac:(lia) Hk').
      apply (get_e_test phi) in Hgcd; [|lia]. congruence.
  - intros j Hodd Hj Hgcd.
    apply range_step_elem in Hodd as Hin; [|lia].
    apply list_elem_of_In in Hin.
    pose proof (find_none _ _ Hfind j Hin) as Hrej. cbv beta in Hrej.
    apply (get_e_test phi) in Hgcd; [|lia]. congruence.
Qed.

Lemma get_d_inner_inv (phi : Z) (f : nat) (td2 r : Z) :
  0 < phi →
  while f (λ td2, td2 <? 0) (λ td2, Ret (td2 + phi)) td2 = Ret r →
  (0 ≤ td2 ∧ r = td2) ∨ (td2 < 0 ∧ 0 ≤ r < phi).
Proof.
  intros Hphi. revert td2. induction f as [|f IH]; intros td2; [done|].
  cbn [while]. destruct (Z.ltb_spec td2 0) as [Hneg|Hpos].
  - cbn [mbind outcome_bind]. intros [[? ->]|[? ?]]%IH; right; lia.
  - intros [= <-]. by left.
Qed.

(** Every value that the loop of [get_d] keeps in its second pair lies
    between 0 and [phi]. *)
Lemma get_d_loop_bounds (phi : Z) (fi : nat) :
  0 < phi →
  ∀ (fo : nat) (a b x y a' b' x' d : Z),
    0 ≤ a → 0 ≤ b → 0 ≤ x ≤ phi → 0 ≤ y ≤ phi →
    while fo get_d_going (get_d_round fi phi) ((a, b), (x, y))
    = Ret ((a', b'), (x', d)) →
    0 ≤ d ≤ phi.
Proof.
  intros Hphi fo. induction fo as [|fo IH]; intros a b x y a' b' x' d Ha Hb Hx Hy;
    [done|].
  cbn [while]. unfold get_d_going at 1. cbn [fst snd].
  destruct (Z.eqb_spec b 1) as [->|Hb1]; cbn [negb].
  - intros [= _ _ _ <-]. done.
  - unfold get_d_round, floordiv. cbn [fst snd].
    destruct (Z.eqb_spec b 0) as [->|Hb0]; [done|].
    cbn [mbind outcome_bind]. cbv zeta.
    destruct (while fi _ _ (x - a `div` b * y)) as [r| |] eqn:Hinner;
      [|done..].
    cbn [mbind outcome_bind]. apply IH; [lia| |done|].
    + pose proof (Z.mod_pos_bound a b ltac:(lia)).
      rewrite Z.mod_eq in * by lia. lia.
    + pose proof (Z.div_pos a b Ha ltac:(lia)).
      apply (get_d_inner_inv phi fi _ r Hphi) in Hinner as [[? ->]|[? ?]]; [nia|lia].
Qed.

(** X17.  For [phi > 1] and [e >= 1] coprime to [phi], [get_d] returns
    (with enough fuel) the inverse of [e] modulo [phi] that lies strictly
    between 0 and [phi]. *)
Theorem get_d_canonical (phi e : Z) :
  1 < phi → 1 ≤ e → Z.gcd e phi = 1 →
  ∃ d, 0 < d < phi ∧ (e * d) `mod` phi = 1 ∧
       ∃ fuel0, ∀ fuel, (fuel0 ≤ fuel)%nat → get_d fuel phi e = Ret d.
Proof.
  intros Hphi He Hgcd.
  destruct (get_d_loop_coprime phi e Hphi (Z.to_nat e) phi e phi 1)
    as (f0 & a' & x' & d & Hd & Hed & Hloop); [done|lia| |lia| | |].
  - by rewrite Z.gcd_comm.
  - by rewrite Z.mul_1_l.
  - by rewrite Z.mod_same, Z.mul_comm, Z.mod_mul by lia.
  - exists d. split_and!; [| |done|].
    + destruct (Z.eq_dec d 0) as [->|]; [|lia].
      rewrite Z.mul_0_r, Z.mod_0_l in Hed; lia.
    + pose proof (get_d_loop_bounds phi f0 ltac:(lia) f0 phi e phi 1 a' 1 x' d
                    ltac:(lia) ltac:(lia) ltac:(lia) ltac:(lia)
                    (Hloop f0 f0 ltac:(done) ltac:(done))) as [_ Hle].
      destruct (Z.eq_dec d phi) as [->|]; [|lia].
      rewrite Z.mod_mul in Hed; lia.
    + exists f0. intros fuel Hfuel. rewrite get_d_unfold, Hloop by done. done.
Qed.

Lemma get_d_canonical_witness :
  1 < 3120 ∧ 1 ≤ 7 ∧ Z.gcd 7 3120 = 1 ∧
  ∃ d, 0 < d < 3120 ∧ (7 * d) `mod` 3120 = 1 ∧
       ∃ fuel0, ∀ fuel, (fuel0 ≤ fuel)%nat → get_d fuel 3120 7 = Ret d.
Proof.
  assert (H1 : 1 < 3120) by lia. assert (H2 : 1 ≤ 7) by lia.
  assert (H3 : Z.gcd 7 3120 = 1) by reflexivity.
  exact (conj H1 (conj H2 (conj H3 (get_d_canonical 3120 7 H1 H2 H3)))).
Defined.

(** X18.  With [phi <= -2] and [e >= 2], [get_d] never returns: in its
    first round the inner loop adds the negative [phi] to a negative
    number, for ever. *)
Theorem get_d_negative_phi (fuel : nat) (phi e : Z) :
  phi ≤ -2 → 2 ≤ e → get_d fuel phi e = Diverge.
Proof.
  intros Hphi He. rewrite get_d_unfold. destruct fuel as [|fuel]; [done|].
  cbn [while]. unfold get_d_going at 1. cbn [fst snd].
  destruct (Z.eqb_spec e 1); [lia|]. cbn [negb].
  unfold get_d_round, floordiv. cbn [fst snd].
  destruct (Z.eqb_spec e 0); [lia|]. cbn [mbind outcome_bind]. cbv zeta.
  rewrite get_d_inner_negative; [done|lia|].
  pose proof (Z.div_mod phi e ltac:(lia)) as Hdm.
  pose proof (Z.mod_pos_bound phi e ltac:(lia)) as Hmod.
  nia.
Qed.

Lemma get_d_negative_phi_witness :
  -6 ≤ -2 ∧ 2 ≤ 5 ∧ get_d 100 (-6) 5 = Diverge.
Proof.
  assert (H1 : -6 ≤ -2) by lia. assert (H2 : 2 ≤ 5) by lia.
  exact (conj H1 (conj H2 (get_d_negative_phi 100 (-6) 5 H1 H2))).
Defined.

(** ** More on [is_prime] and the generators of primes *)

Lemma candidate_mask_bits (length i : Z) :
  1 ≤ length → 0 ≤ i →
  Z.testbit (Z.lor (1 ≪ (length - 1)) 1) i = (i =? length - 1) || (i =? 0).
Proof.
  intros Hl Hi. rewrite Z.lor_spec, Z.shiftl_1_l, Z.pow2_bits_eqb by lia.
  f_equal. apply Z.eqb_sym.
Qed.

Lemma generate_prime_candidate_run (length : Z) (t : tape) :
  1 ≤ length →
  generate_prime_candidate length t
  = Ret (Z.lor (t 0%nat `mod` 2 ^ length) (Z.lor (1 ≪ (length - 1)) 1),
         tape_tail t).
Proof.
  intros Hl. unfold generate_prime_candidate, getrandbits, lshift.
  destruct (Z.ltb_spec length 0); [lia|].
  destruct (Z.eqb_spec length 0); [lia|].
  by destruct (Z.ltb_spec (length - 1) 0); [lia|].
Qed.

Lemma candidate_shape (length x : Z) :
  1 ≤ length → 0 ≤ x < 2 ^ length →
  let p := Z.lor x (Z.lor (1 ≪ (length - 1)) 1) in
  Z.odd p = true ∧ 0 < p ∧ Z.log2 p = length - 1.
Proof.
  intros Hl Hx p. set (m := Z.lor (1 ≪ (length - 1)) 1) in *.
  assert (Hm : 0 ≤ m).
  { apply Z.lor_nonneg. rewrite Z.shiftl_1_l. split; [|lia].
    apply Z.pow_nonneg. lia. }
  assert (Hp : 0 ≤ p) by (apply Z.lor_nonneg; lia).
  assert (Hodd : Z.odd p = true).
  { rewrite <- Z.bit0_odd. unfold p, m.
    rewrite Z.lor_spec, candidate_mask_bits by lia.
    by rewrite orb_true_r, orb_true_r. }
  split; [done|]. split.
  { destruct (Z.eq_dec p 0) as [H0|]; [|lia]. by rewrite H0 in Hodd. }
  unfold p. rewrite Z.log2_lor by lia. unfold m at 1.
  rewrite Z.log2_lor;
    [|rewrite Z.shiftl_1_l; apply Z.pow_nonneg; lia|lia].
  rewrite Z.shiftl_1_l, Z.log2_pow2 by lia. change (Z.log2 1) with 0.
  assert (Z.log2 x ≤ length - 1); [|lia].
  destruct (Z.eq_dec x 0) as [->|]; [simpl; lia|].
  assert (Z.log2 x < length); [|lia]. apply Z.log2_lt_pow2; lia.
Qed.

Lemma candidate_bits (length x : Z) :
  1 ≤ length → 0 ≤ x < 2 ^ length →
  let p := Z.lor x (Z.lor (1 ≪ (length - 1)) 1) in
  Z.odd p = true ∧ bitcount p = length ∧ 2 ^ (length - 1) ≤ p < 2 ^ length.
Proof.
  intros Hl Hx. destruct (candidate_shape length x Hl Hx) as (Hodd & Hpos & Hlog).
  cbv zeta in *. split; [done|].
  rewrite bitcount_spec. unfold bit_length.
  destruct (Z.ltb_spec 0 (Z.lor x (Z.lor (1 ≪ (length - 1)) 1))); [|lia].
  split; [lia|]. pose proof (Z.log2_spec _ Hpos) as Hspec.
  rewrite Hlog in Hspec. replace (Z.succ (length - 1)) with length in Hspec by lia.
  done.
Qed.

(** An odd number of exactly [length] bits has the two bits that the
    candidate is given. *)
Lemma candidate_fixed (length p : Z) :
  1 ≤ length → Z.odd p = true → 2 ^ (length - 1) ≤ p < 2 ^ length →
  Z.lor (p `mod` 2 ^ length) (Z.lor (1 ≪ (length - 1)) 1) = p.
Proof.
  intros Hl Hodd Hp.
  assert (Hpow : 0 < 2 ^ (length - 1)) by (apply Z.pow_pos_nonneg; lia).
  rewrite Z.mod_small by lia.
  apply Z.bits_inj'. intros i Hi.
  rewrite Z.lor_spec, candidate_mask_bits by lia.
  destruct (Z.eqb_spec i (length - 1)) as [->|].
  - assert (Hlog : Z.log2 p = length - 1).
    { apply Z.log2_unique; [lia|].
      by replace (Z.succ (length - 1)) with length by lia. }
    rewrite <- Hlog, Z.bit_log2 by lia. done.
  - destruct (Z.eqb_spec i 0) as [->|]; [|by rewrite orb_false_r].
    by rewrite Z.bit0_odd, Hodd.
Qed.

Lemma generate_prime_candidate_inv (length : Z) (t t' : tape) (p : Z) :
  generate_prime_candidate length t = Ret (p, t') →
  1 ≤ length ∧ Z.odd p = true ∧ bitcount p = length ∧
  2 ^ (length - 1) ≤ p < 2 ^ length.
Proof.
  intros Hcand. destruct (Z.le_gt_cases 1 length) as [Hl|Hl].
  - rewrite generate_prime_candidate_run in Hcand by done.
    injection Hcand as <- _. split; [done|]. apply candidate_bits; [done|].
    apply Z.mod_pos_bound, Z.pow_pos_nonneg; lia.
  - unfold generate_prime_candidate, getrandbits, lshift in Hcand.
    destruct (Z.ltb_spec length 0); [done|].
    destruct (Z.eqb_spec length 0) as [->|]; [done|lia].
Qed.

(** X22.  For [length >= 1], [generate_prime_candidate] draws once and
    returns an odd number of exactly [length] bits; and every odd number
    of exactly [length] bits is returned on some draw. *)
Theorem generate_prime_candidate_shape (length : Z) :
  1 ≤ length →
  (∀ t, ∃ p, generate_prime_candidate length t = Ret (p, tape_tail t) ∧
             Z.odd p = true ∧ bitcount p = length ∧
             2 ^ (length - 1) ≤ p < 2 ^ length) ∧
  (∀ p, Z.odd p = true → 2 ^ (length - 1) ≤ p < 2 ^ length →
        ∃ t, generate_prime_candidate length t = Ret (p, tape_tail t)).
Proof.
  intros Hl. split.
  - intros t. eexists. split; [by apply generate_prime_candidate_run|].
    apply candidate_bits; [done|].
    apply Z.mod_pos_bound, Z.pow_pos_nonneg; lia.
  - intros p Hodd Hp. exists (λ _, p).
    rewrite generate_prime_candidate_run by done.
    by rewrite candidate_fixed.
Qed.

Lemma generate_prime_candidate_shape_witness :
  1 ≤ 8 ∧
  (∀ t, ∃ p, generate_prime_candidate 8 t = Ret (p, tape_tail t) ∧
             Z.odd p = true ∧ bitcount p = 8 ∧ 2 ^ (8 - 1) ≤ p < 2 ^ 8) ∧
  (∀ p, Z.odd p = true → 2 ^ (8 - 1) ≤ p < 2 ^ 8 →
        ∃ t, generate_prime_candidate 8 t = Ret (p, tape_tail t)).
Proof. split; [lia|apply (generate_prime_candidate_shape 8); lia]. Defined.

(** What a [whileM] loop returns: its start value or a value of its body,
    on which the condition has just failed. *)
Lemma whileM_ret_inv {St : Type} (P : St → Prop) (cond : St → M bool)
    (body : St → M St) :
  (∀ s t s' t', body s t = Ret (s', t') → P s') →
  ∀ (fuel : nat) (s : St) (t : tape) (r : St) (t' : tape),
    whileM fuel cond body s t = Ret (r, t') →
    (r = s ∨ P r) ∧ ∃ t0, cond r t0 = Ret (false, t').
Proof.
  intros Hbody fuel. induction fuel as [|fuel IH]; intros s t r t'; [done|].
  cbn [whileM]. intros (b & t1 & Hcond & H)%M_bind_ret. destruct b.
  - apply M_bind_ret in H as (s' & t2 & Hs' & H).
    apply IH in H as [[->|HP] Hend]; (split; [right|done]); [|done].
    by eapply Hbody.
  - injection H as <- <-. split; [by left|by exists t].
Qed.

Lemma is_prime_on_prime (n k : Z) (t : tape) :
  Z.prime n → ∃ t', is_prime n k t = Ret (true, t').
Proof.
  intros Hprime. pose proof (Z.prime_ge_2 n Hprime) as Hn.
  unfold is_prime.
  destruct (Z.eqb_spec n 2); [by exists t|].
  destruct (Z.eqb_spec n 3); [by exists t|]. cbn [orb].
  pose proof (prime_odd n Hprime ltac:(done)) as Hodd.
  destruct (Z.leb_spec n 1); [lia|].
  assert (Hmod : n `mod` 2 = 1) by (by rewrite Zmod_odd, Hodd).
  rewrite Hmod. cbn [orb Z.eqb]. cbv zeta.
  assert (5 ≤ n).
  { destruct (Z.eq_dec n 4) as [->|]; [done|lia]. }
  destruct (is_prime_split n) as (s & r & Hsplit & Hs & Hr & Heq & _);
    [done|done|].
  rewrite (M_bind_lift_run _ _ _ _ Hsplit).
  destruct (is_prime_rounds_prime n Hprime s r ltac:(done) ltac:(done)
              ltac:(done) ltac:(done) (range 0 k) t) as [t' Hrounds].
  rewrite (M_bind_run _ _ _ _ _ Hrounds). by exists t'.
Qed.

(** What [generate_prime_number] returns is a candidate on which
    [is_prime] has just returned [True]. *)
Lemma generate_prime_number_inv (P : Z → Prop) (fuel : nat) (length : Z)
    (t t' : tape) (p : Z) :
  (∀ t1 p1 t1', generate_prime_candidate length t1 = Ret (p1, t1') → P p1) →
  generate_prime_number fuel length t = Ret (p, t') →
  P p ∧ ∃ t0, is_prime p 128 t0 = Ret (true, t').
Proof.
  unfold generate_prime_number. cbv zeta. intros Hcand Hrun.
  apply (whileM_ret_inv P) in Hrun as [Hp (t0 & Htest)];
    [|intros _ t1 p1 t1'; apply Hcand].
  apply M_bind_ret in Htest as (b & t1 & Hb & Hneg).
  injection Hneg as Hneg <-. apply negb_false_iff in Hneg as ->.
  destruct Hp as [->|Hp];
    [by change (Ret (false, t0) = Ret (true, t1)) in Hb|].
  split; [done|by exists t0].
Qed.

(** X23.  Whatever [generate_prime_number] returns is an odd number of
    exactly [length] bits on which [is_prime] with 128 rounds has just
    returned [True]; with a [length] below 1 it returns nothing. *)
Theorem generate_prime_number_result (fuel : nat) (length : Z) (t t' : tape)
    (p : Z) :
  generate_prime_number fuel length t = Ret (p, t') →
  1 ≤ length ∧ Z.odd p = true ∧ bitcount p = length ∧
  2 ^ (length - 1) ≤ p < 2 ^ length ∧
  ∃ t0, is_prime p 128 t0 = Ret (true, t').
Proof.
  intros Hrun.
  apply (generate_prime_number_inv
           (λ p, 1 ≤ length ∧ Z.odd p = true ∧ bitcount p = length ∧
                 2 ^ (length - 1) ≤ p < 2 ^ length)) in Hrun
    as [(Hl & Hodd & Hbits & Hrange) Htest].
  - split_and!; [done|done|done|lia|lia|done].
  - intros t1 p1 t1'. apply generate_prime_candidate_inv.
Qed.

Lemma generate_prime_number_result_witness :
  generate_prime_number 2 8 (λ _, 3) = Ret (131, λ _, 3) ∧
  1 ≤ 8 ∧ Z.odd 131 = true ∧ bitcount 131 = 8 ∧
  2 ^ (8 - 1) ≤ 131 < 2 ^ 8 ∧
  ∃ t0, is_prime 131 128 t0 = Ret (true, λ _, 3).
Proof.
  assert (Hrun : generate_prime_number 2 8 (λ _, 3) = Ret (131, λ _, 3))
    by (vm_compute; reflexivity).
  exact (conj Hrun (generate_prime_number_result 2 8 (λ _, 3) (λ _, 3) 131 Hrun)).
Defined.

(** X24.  Every odd prime of exactly [length] bits is returned by
    [generate_prime_number] on some draws, in two rounds of its loop; and
    with [length = 1] it never returns, as the only candidate is 1. *)
Theorem generate_prime_number_returns :
  (∀ (length p : Z), 1 ≤ length → Z.prime p → Z.odd p = true →
     2 ^ (length - 1) ≤ p < 2 ^ length →
     ∃ t t', ∀ fuel, (2 ≤ fuel)%nat →
       generate_prime_number fuel length t = Ret (p, t')) ∧
  (∀ fuel t, generate_prime_number fuel 1 t = Diverge).
Proof.
  split.
  - intros length p Hl Hprime Hodd Hp.
    set (t := (λ _, p) : tape).
    assert (Hcand : generate_prime_candidate length t = Ret (p, tape_tail t)).
    { rewrite generate_prime_candidate_run by done. subst t. cbv beta.
      by rewrite candidate_fixed. }
    destruct (is_prime_on_prime p 128 (tape_tail t) Hprime) as [t' Htest].
    exists t, t'. intros [|[|fuel]] Hfuel; [lia|lia|].
    unfold generate_prime_number. cbv zeta. cbn [whileM].
    assert (Hcond : (is_prime 4 128 ≫= λ b, mret (negb b)) t = Ret (true, t))
      by done.
    rewrite (M_bind_run _ _ _ _ _ Hcond). cbv beta iota.
    rewrite (M_bind_run _ _ _ _ _ Hcand). cbv beta iota.
    assert (Hend : (is_prime p 128 ≫= λ b, mret (negb b)) (tape_tail t)
                   = Ret (false, t'))
      by (by rewrite (M_bind_run _ _ _ _ _ Htest)).
    by rewrite (M_bind_run _ _ _ _ _ Hend).
  - intros fuel. unfold generate_prime_number. cbv zeta.
    assert (Hloop : ∀ p t, p = 4 ∨ p = 1 →
              whileM fuel (λ p, b ← is_prime p 128; mret (negb b))
                (λ _, generate_prime_candidate 1) p t = Diverge).
    { induction fuel as [|fuel IH]; intros p t Hp; [done|].
      cbn [whileM].
      assert (Hcond : (is_prime p 128 ≫= λ b, mret (negb b)) t = Ret (true, t))
        by (by destruct Hp as [-> | ->]).
      rewrite (M_bind_run _ _ _ _ _ Hcond). cbv beta iota.
      assert (Hcand : generate_prime_candidate 1 t = Ret (1, tape_tail t)).
      { rewrite generate_prime_candidate_run by lia. do 2 f_equal.
        pose proof (Z.mod_pos_bound (t 0%nat) (2 ^ 1) ltac:(lia)) as Hx.
        change (2 ^ 1) with 2 in *.
        assert (t 0%nat `mod` 2 = 0 ∨ t 0%nat `mod` 2 = 1) as [-> | ->] by lia;
          done. }
      rewrite (M_bind_run _ _ _ _ _ Hcand). apply IH. by right. }
    intros t. apply Hloop. by left.
Qed.

Lemma generate_prime_number_returns_witness :
  ∃ t t', ∀ fuel, (2 ≤ fuel)%nat →
    generate_prime_number fuel 8 t = Ret (131, t').
Proof.
  apply (proj1 generate_prime_number_returns 8 131).
  - lia.
  - apply trial_prime_spec. vm_compute. reflexivity.
  - reflexivity.
  - simpl. lia.
Defined.

Lemma is_prime_squarings_inv (n s : Z) (fuel : nat) (j x j' x' : Z) :
  n ≠ 0 →
  while_ret fuel
    (λ '(j, x), (j <? s) && negb (x =? n - 1))
    (λ '(j, x),
       x ← pow x 2 n;
       if x =? 1 then Ret (inr false) else Ret (inl (j + 1, x)))
    (j, x)
  = Ret (inl (j', x')) →
  ∃ i : nat, j' = j + Z.of_nat i ∧
             x' `mod` n = x ^ 2 ^ Z.of_nat i `mod` n ∧
             (i = 0%nat ∨ j' ≤ s).
Proof.
  intros Hn. revert j x. induction fuel as [|fuel IH]; intros j x; [done|].
  rewrite while_ret_S. cbv beta iota.
  destruct (Z.ltb_spec j s) as [Hjs|Hjs]; cbn [andb];
    [destruct (negb (x =? n - 1))|].
  - rewrite pow_spec by lia. cbn [mbind outcome_bind].
    destruct (x ^ 2 `mod` n =? 1); [done|].
    intros (i & -> & Hx' & Hi)%IH. exists (S i). split_and!; [lia| |right; lia].
    rewrite Hx', Z.mod_pow_l, <- Z.pow_mul_r by lia.
    by rewrite Nat2Z.inj_succ, Z.pow_succ_r by lia.
  - intros [= <- <-]. exists 0%nat. split_and!; [lia| |by left].
    by rewrite Z.pow_1_r.
  - intros [= <- <-]. exists 0%nat. split_and!; [lia| |by left].
    by rewrite Z.pow_1_r.
Qed.

Lemma is_prime_squarings_inr (n s : Z) (fuel : nat) (j x : Z) (b : bool) :
  while_ret fuel
    (λ '(j, x), (j <? s) && negb (x =? n - 1))
    (λ '(j, x),
       x ← pow x 2 n;
       if x =? 1 then Ret (inr false) else Ret (inl (j + 1, x)))
    (j, x)
  = Ret (inr b) →
  b = false.
Proof.
  revert j x. induction fuel as [|fuel IH]; intros j x; [done|].
  rewrite while_ret_S. cbv beta iota.
  destruct ((j <? s) && negb (x =? n - 1)); [|done].
  destruct (pow x 2 n) as [y| |]; [|done..]. cbn [mbind outcome_bind].
  destruct (y =? 1); cbn [mbind outcome_bind]; [by intros [= <-]|apply IH].
Qed.

Lemma is_prime_round_inv (n s r : Z) (t t' : tape) (c : () + bool) :
  5 ≤ n → 1 ≤ s → 0 ≤ r →
  is_prime_round n s r t = Ret (c, t') →
  match c with
  | inl _ =>
      drawn_base n t 0 ^ r `mod` n = 1 ∨
      ∃ j, 0 ≤ j < s ∧ drawn_base n t 0 ^ (2 ^ j * r) `mod` n = n - 1
  | inr b => b = false
  end ∧ t' = tape_tail t.
Proof.
  intros Hn Hs Hr. unfold is_prime_round, drawn_base.
  rewrite (M_bind_run _ _ _ _ _ (randrange_run 2 (n - 1) t ltac:(lia))).
  set (a := 2 + t 0%nat `mod` (n - 1 - 2)).
  rewrite (M_bind_lift_run _ _ _ _ (pow_spec _ r n Hr ltac:(lia))).
  destruct (Z.eqb_spec (a ^ r `mod` n) 1) as [H1|H1]; cbn [negb andb].
  { intros [= <- <-]. split; [by left|done]. }
  destruct (Z.eqb_spec (a ^ r `mod` n) (n - 1)) as [Hn1|Hn1]; cbn [negb].
  { intros [= <- <-]. split; [|done]. right. exists 0. split; [lia|].
    by rewrite Z.pow_0_r, Z.mul_1_l. }
  cbv zeta.
  destruct (while_ret _ _ _ _) as [[[j x]|b]| |] eqn:Hloop; [| |done..];
    rewrite (M_bind_lift_run _ _ _ _ eq_refl); cbv beta iota.
  - destruct (Z.eqb_spec x (n - 1)) as [->|]; cbn [negb];
      intros [= <- <-]; (split; [|done]); [|done].
    apply is_prime_squarings_inv in Hloop as (i & -> & Hx & Hi); [|lia].
    right. exists (Z.of_nat i). split; [lia|].
    rewrite Z.mod_pow_l, <- Z.pow_mul_r, (Z.mul_comm r) in Hx by lia.
    rewrite <- Hx. apply Z.mod_small. lia.
  - intros [= <- <-]. split; [|done]. by eapply is_prime_squarings_inr.
Qed.

Lemma is_prime_rounds_inv (n s r : Z) (l : list Z) (t t' : tape)
    (c : () + bool) :
  5 ≤ n → 1 ≤ s → 0 ≤ r →
  for_inM l (λ _ _, is_prime_round n s r) () t = Ret (c, t') →
  match c with
  | inl _ =>
      ∀ i, (i < length l)%nat →
        drawn_base n t i ^ r `mod` n = 1 ∨
        ∃ j, 0 ≤ j < s ∧ drawn_base n t i ^ (2 ^ j * r) `mod` n = n - 1
  | inr b => b = false
  end.
Proof.
  intros Hn Hs Hr. revert t. induction l as [|x l IH]; intros t.
  - intros [= <- <-]. intros i Hi. simpl in Hi. lia.
  - cbn [for_inM]. intros (c1 & t1 & Hround & H)%M_bind_ret.
    apply is_prime_round_inv in Hround as [Hc1 ->]; [|done..].
    destruct c1 as [[]|b1].
    + apply IH in H. destruct c as [u|b]; [|done].
      intros [|i] Hi; [done|]. apply (H i). simpl in Hi. lia.
    + injection H as <- <-. done.
Qed.

Lemma strong_to_fermat (n a s r : Z) :
  1 < n → 1 ≤ s → 0 ≤ r → n - 1 = 2 ^ s * r →
  (a ^ r `mod` n = 1 ∨ ∃ j, 0 ≤ j < s ∧ a ^ (2 ^ j * r) `mod` n = n - 1) →
  a ^ (n - 1) `mod` n = 1.
Proof.
  intros Hn Hs Hr Heq [H1|(j & Hj & Hm1)]; rewrite Heq.
  - rewrite Z.mul_comm, Z.pow_mul_r, <- Z.mod_pow_l, H1 by lia.
    rewrite Z.pow_1_l by lia. apply Z.mod_1_l. lia.
  - replace (2 ^ s * r) with (2 ^ j * r * (2 * 2 ^ (s - j - 1))).
    2:{ replace s with (j + 1 + (s - j - 1)) at 2 by lia.
        rewrite !Z.pow_add_r by lia. change (2 ^ 1) with 2. lia. }
    assert (0 ≤ 2 ^ j * r) by (pose proof (Z.pow_pos_nonneg 2 j); nia).
    assert (0 ≤ 2 ^ (s - j - 1)) by (apply Z.pow_nonneg; lia).
    rewrite Z.pow_mul_r, <- Z.mod_pow_l, Hm1 by lia.
    rewrite Z.pow_mul_r, <- Z.mod_pow_l by lia.
    replace ((n - 1) ^ 2) with (1 + (n - 2) * n) by (rewrite Z.pow_2_r; lia).
    rewrite Z.mod_add, Z.mod_1_l, Z.pow_1_l by lia. apply Z.mod_1_l. lia.
Qed.

(** X20.  [is_prime n k] returns [True] only if [n] is 2 or 3, or
    [n >= 5] is odd and passes the Miller-Rabin test to each of the [k]
    bases drawn; in particular [a ^ (n - 1) = 1] modulo [n] for each
    base [a] drawn. *)
Theorem is_prime_true_only_if (n k : Z) (t t' : tape) :
  is_prime n k t = Ret (true, t') →
  n = 2 ∨ n = 3 ∨
  (5 ≤ n ∧ Z.odd n = true ∧
   ∀ i, (i < Z.to_nat k)%nat →
     strong_probable_prime n (drawn_base n t i) ∧
     drawn_base n t i ^ (n - 1) `mod` n = 1).
Proof.
  unfold is_prime.
  destruct (Z.eqb_spec n 2); [by left|].
  destruct (Z.eqb_spec n 3); [by right; left|]. cbn [orb].
  destruct (Z.leb_spec n 1); [done|]. cbn [orb].
  destruct (Z.eqb_spec (n `mod` 2) 0) as [|Hmod]; [done|].
  assert (Hodd : Z.odd n = true).
  { rewrite Zmod_odd in Hmod. by destruct (Z.odd n). }
  assert (5 ≤ n).
  { destruct (Z.eq_dec n 4) as [->|]; [done|lia]. }
  destruct (is_prime_split n) as (s & r & Hsplit & Hs & Hr & Heq & Hrodd);
    [done|done|].
  cbv zeta. rewrite (M_bind_lift_run _ _ _ _ Hsplit).
  intros (c & t1 & Hrounds & Hc)%M_bind_ret.
  apply is_prime_rounds_inv in Hrounds; [|done|done|lia].
  destruct c as [u|b]; [|by injection Hc as -> _].
  right; right. split_and!; [done|done|].
  intros i Hi. unfold range in Hrounds.
  rewrite length_seqZ, Z.sub_0_r in Hrounds. specialize (Hrounds i Hi). split.
  - exists s, r. split_and!; (done || lia).
  - apply (strong_to_fermat n _ s r); (done || lia).
Qed.

Lemma is_prime_true_only_if_witness :
  is_prime 2047 128 zero_tape = Ret (true, zero_tape) ∧
  (2047 = 2 ∨ 2047 = 3 ∨
   (5 ≤ 2047 ∧ Z.odd 2047 = true ∧
    ∀ i, (i < Z.to_nat 128)%nat →
      strong_probable_prime 2047 (drawn_base 2047 zero_tape i) ∧
      drawn_base 2047 zero_tape i ^ (2047 - 1) `mod` 2047 = 1)).
Proof.
  assert (Hrun : is_prime 2047 128 zero_tape = Ret (true, zero_tape))
    by (vm_compute; reflexivity).
  exact (conj Hrun (is_prime_true_only_if 2047 128 zero_tape zero_tape Hrun)).
Defined.

(** The way to write a number as a power of two times an odd number is
    unique. *)
Lemma odd_part_unique (s s' r r' : Z) :
  0 ≤ s → 0 ≤ s' → Z.odd r = true → Z.odd r' = true →
  2 ^ s * r = 2 ^ s' * r' → s = s' ∧ r = r'.
Proof.
  intros Hs Hs' Hr Hr'. revert s' Hs'.
  assert (Heven : ∀ e x, 0 < e → Z.odd (2 ^ e * x) = false).
  { intros e x He. replace e with (1 + (e - 1)) by lia.
    rewrite Z.pow_add_r, Z.pow_1_r, <- Z.mul_assoc by lia.
    rewrite Z.odd_mul. done. }
  pattern s. apply natlike_ind; [| |done].
  - intros s' Hs' Heq. rewrite Z.pow_0_r, Z.mul_1_l in Heq.
    destruct (Z.eq_dec s' 0) as [->|]; [by rewrite Z.pow_0_r, Z.mul_1_l in Heq|].
    rewrite Heq, Heven in Hr by lia. done.
  - intros x Hx IH s' Hs' Heq.
    destruct (Z.eq_dec s' 0) as [->|].
    { rewrite Z.pow_0_r, Z.mul_1_l in Heq. rewrite <- Heq, Heven in Hr' by lia.
      done. }
    destruct (IH (s' - 1) ltac:(lia)) as [-> ->]; [|split; [lia|done]].
    replace s' with (Z.succ (s' - 1)) in Heq by lia.
    rewrite !Z.pow_succ_r in Heq by lia. lia.
Qed.

(** Squaring [-1] or [1] modulo [n] gives [1]. *)
Lemma pow2_of_minus_one (n y e : Z) :
  2 < n → 1 ≤ e → y `mod` n = n - 1 → y ^ 2 ^ e `mod` n = 1.
Proof.
  intros Hn He Hy. replace e with (1 + (e - 1)) by lia.
  assert (0 ≤ 2 ^ (e - 1)) by (apply Z.pow_nonneg; lia).
  rewrite Z.pow_add_r, Z.pow_1_r, Z.pow_mul_r by lia.
  rewrite <- Z.mod_pow_l, <- (Z.mod_pow_l y), Hy.
  replace ((n - 1) ^ 2) with (1 + (n - 2) * n) by (rewrite Z.pow_2_r; lia).
  rewrite Z.mod_add, Z.mod_1_l, Z.pow_1_l by lia. apply Z.mod_1_l. lia.
Qed.

Lemma pow2_of_one (n y e : Z) :
  1 < n → 0 ≤ e → y `mod` n = 1 → y ^ 2 ^ e `mod` n = 1.
Proof.
  intros Hn He Hy. assert (0 ≤ 2 ^ e) by (apply Z.pow_nonneg; lia).
  rewrite <- Z.mod_pow_l, Hy, Z.pow_1_l by lia. apply Z.mod_1_l. lia.
Qed.

(** The squaring loop on a base with [a ^ (2 ^ j * r) = -1]: it stops on
    [n - 1] without a [return False]. *)
Lemma is_prime_squarings_strong (n s a r j : Z) :
  2 < n → 0 ≤ r → 0 ≤ j < s →
  a ^ (2 ^ j * r) `mod` n = n - 1 →
  ∀ (m fuel : nat) (v : Z),
    Z.of_nat m = j - (v - 1) → 1 ≤ v → (m < fuel)%nat →
    ∃ v', while_ret fuel
            (λ '(j, x), (j <? s) && negb (x =? n - 1))
            (λ '(j, x),
               x ← pow x 2 n;
               if x =? 1 then Ret (inr false) else Ret (inl (j + 1, x)))
            (v, a ^ (2 ^ (v - 1) * r) `mod` n)
          = Ret (inl (v', n - 1)).
Proof.
  intros Hn Hr Hj Hminus m.
  assert (Hstep : ∀ i, 0 ≤ i < j →
            a ^ (2 ^ j * r) = (a ^ (2 ^ i * r)) ^ 2 ^ (j - i)).
  { intros i Hi. assert (0 ≤ 2 ^ i * r) by (pose proof (Z.pow_pos_nonneg 2 i); nia).
    assert (0 ≤ 2 ^ (j - i)) by (apply Z.pow_nonneg; lia).
    rewrite <- Z.pow_mul_r by lia. f_equal.
    replace j with (i + (j - i)) at 1 by lia. rewrite Z.pow_add_r by lia. lia. }
  induction m as [|m IH]; intros fuel v Hm Hv Hfuel;
    (destruct fuel as [|fuel]; [lia|]); rewrite while_ret_S; cbv beta iota.
  - replace (v - 1) with j by lia. rewrite Hminus, Z.eqb_refl.
    rewrite andb_false_r. by eauto.
  - destruct (Z.ltb_spec v s); [|lia]. cbn [andb].
    set (x := a ^ (2 ^ (v - 1) * r) `mod` n).
    assert (Hx : x ≠ n - 1).
    { intros Hx. rewrite (Hstep (v - 1)) in Hminus by lia.
      rewrite pow2_of_minus_one in Hminus; [lia|lia|lia|].
      exact Hx. }
    destruct (Z.eqb_spec x (n - 1)); [done|]. cbn [negb].
    rewrite pow_spec by lia. cbn [mbind outcome_bind].
    assert (Hsq : x ^ 2 `mod` n = a ^ (2 ^ (v + 1 - 1) * r) `mod` n).
    { subst x. assert (0 ≤ 2 ^ (v - 1) * r)
        by (pose proof (Z.pow_pos_nonneg 2 (v - 1)); nia).
      rewrite Z.mod_pow_l, <- Z.pow_mul_r by lia. f_equal. f_equal.
      replace (v + 1 - 1) with (v - 1 + 1) by lia.
      rewrite Z.pow_add_r by lia. lia. }
    rewrite Hsq.
    assert (Hne1 : a ^ (2 ^ (v + 1 - 1) * r) `mod` n ≠ 1).
    { intros H1. destruct (Z.eq_dec (v + 1 - 1) j) as [Heq|].
      - rewrite Heq in H1. lia.
      - rewrite (Hstep (v + 1 - 1)) in Hminus by lia.
        rewrite pow2_of_one in Hminus; lia. }
    destruct (Z.eqb_spec (a ^ (2 ^ (v + 1 - 1) * r) `mod` n) 1); [done|].
    apply IH; lia.
Qed.

(** One round on a base to which [n] is a strong probable prime goes on
    with the next round. *)
Lemma is_prime_round_strong (n s r : Z) (t : tape) :
  5 ≤ n → 1 ≤ s → 0 ≤ r → Z.odd r = true → n - 1 = 2 ^ s * r →
  strong_probable_prime n (drawn_base n t 0) →
  is_prime_round n s r t = Ret (inl (), tape_tail t).
Proof.
  intros Hn Hs Hr Hrodd Hsplit (s' & r' & Hs' & Hr' & Hsplit' & Hrodd' & Hstrong).
  destruct (odd_part_unique s s' r r') as [<- <-]; [lia|lia|done|done|congruence|].
  unfold is_prime_round, drawn_base in *.
  rewrite (M_bind_run _ _ _ _ _ (randrange_run 2 (n - 1) t ltac:(lia))).
  set (a := 2 + t 0%nat `mod` (n - 1 - 2)) in *.
  rewrite (M_bind_lift_run _ _ _ _ (pow_spec _ r n Hr ltac:(lia))).
  destruct (Z.eqb_spec (a ^ r `mod` n) 1) as [H1|H1]; [done|].
  destruct (Z.eqb_spec (a ^ r `mod` n) (n - 1)) as [Hn1|Hn1]; [done|].
  cbn [negb andb]. cbv zeta.
  destruct Hstrong as [?|(j & Hj & Hminus)]; [done|].
  assert (j ≠ 0).
  { intros ->. by rewrite Z.pow_0_r, Z.mul_1_l in Hminus. }
  destruct (is_prime_squarings_strong n s a r j ltac:(lia) Hr Hj Hminus
              (Z.to_nat j) (S (Z.to_nat s)) 1 ltac:(lia) ltac:(lia) ltac:(lia))
    as [v' Hloop].
  change (2 ^ (1 - 1) * r) with (1 * r) in Hloop. rewrite Z.mul_1_l in Hloop.
  rewrite (M_bind_lift_run _ _ _ _ Hloop). cbv beta iota.
  by rewrite Z.eqb_refl.
Qed.

(** X21.  Conversely, [is_prime n k] returns [True] for every odd
    [n >= 5] that passes the Miller-Rabin test to each of the [k] bases
    drawn, whether [n] is prime or not. *)
Theorem is_prime_true_if (n k : Z) (t : tape) :
  5 ≤ n → Z.odd n = true →
  (∀ i, (i < Z.to_nat k)%nat → strong_probable_prime n (drawn_base n t i)) →
  ∃ t', is_prime n k t = Ret (true, t').
Proof.
  intros Hn Hodd Hbases. unfold is_prime.
  destruct (Z.eqb_spec n 2); [lia|]. destruct (Z.eqb_spec n 3); [lia|].
  cbn [orb]. destruct (Z.leb_spec n 1); [lia|].
  assert (Hmod : n `mod` 2 = 1) by (by rewrite Zmod_odd, Hodd).
  rewrite Hmod. cbn [orb Z.eqb]. cbv zeta.
  destruct (is_prime_split n) as (s & r & Hsplit & Hs & Hr & Heq & Hrodd);
    [done|done|].
  rewrite (M_bind_lift_run _ _ _ _ Hsplit).
  assert (Hrounds : ∀ (l : list Z) t,
            (∀ i, (i < length l)%nat → strong_probable_prime n (drawn_base n t i)) →
            ∃ t', for_inM l (λ _ _, is_prime_round n s r) () t
                  = Ret (@inl () bool (), t')).
  { clear t Hbases. induction l as [|x l IH]; intros t Hall; [by eexists|].
    cbn [for_inM].
    rewrite (M_bind_run _ _ _ _ _
               (is_prime_round_strong n s r t Hn Hs ltac:(lia) Hrodd Heq
                  (Hall 0%nat ltac:(simpl; lia)))).
    apply IH. intros i Hi. apply (Hall (S i)). simpl. lia. }
  destruct (Hrounds (range 0 k) t) as [t' Hrun].
  { intros i Hi. apply Hbases. unfold range in Hi.
    by rewrite length_seqZ, Z.sub_0_r in Hi. }
  rewrite (M_bind_run _ _ _ _ _ Hrun). by exists t'.
Qed.

Lemma is_prime_true_if_witness :
  5 ≤ 2047 ∧ Z.odd 2047 = true ∧ ¬ Z.prime 2047 ∧
  ∃ t', is_prime 2047 128 zero_tape = Ret (true, t').
Proof.
  split; [lia|]. split; [reflexivity|]. split.
  { intros [_ Hprime]. apply (Hprime 23); [lia|]. exists 89. lia. }
  apply (is_prime_true_if 2047 128 zero_tape); [lia|reflexivity|].
  intros i _. exists 1, 1023. split; [lia|]. split; [lia|].
  split; [reflexivity|]. split; [reflexivity|]. left. vm_compute. reflexivity.
Defined.

(** A composite that passes every round, for any number of rounds, when
    each base drawn is 2: 2047 = 23 * 89. *)
Example is_prime_false_positive :
  ¬ Z.prime 2047 ∧
  ∀ k, is_prime 2047 k zero_tape = Ret (true, zero_tape).
Proof.
  split.
  - intros [_ Hprime]. apply (Hprime 23); [lia|]. exists 89. lia.
  - intros k.
    assert (Hsplit : while (S (Z.to_nat (Z.log2 2047)))
                       (λ '(s, r), Z.land r 1 =? 0)
                       (λ '(s, r), Ret (s + 1, r `div` 2))
                       (0, 2047 - 1)
                     = Ret (1, 1023)) by (vm_compute; reflexivity).
    assert (Hround : is_prime_round 2047 1 1023 zero_tape
                     = Ret (inl (), zero_tape)) by (vm_compute; reflexivity).
    assert (Hrounds : ∀ l : list Z,
              for_inM l (λ _ _, is_prime_round 2047 1 1023) () zero_tape
              = Ret (@inl () bool (), zero_tape)).
    { induction l as [|x l IH]; [done|]. cbn [for_inM].
      by rewrite (M_bind_run _ _ _ _ _ Hround). }
    unfold is_prime.
    change ((2047 =? 2) || (2047 =? 3)) with false.
    change ((2047 <=? 1) || (2047 `mod` 2 =? 0)) with false.
    cbv iota zeta.
    rewrite (M_bind_lift_run _ _ _ _ Hsplit).
    by rewrite (M_bind_run _ _ _ _ _ (Hrounds (range 0 k))).
Qed.

(** ** More on [__init__] and [return_all] *)

Lemma given_nonzero (x : option Z) (v : Z) : given x = Some v → v ≠ 0.
Proof.
  destruct x as [x|]; [|done]. cbn.
  by destruct (Z.eqb_spec x 0); [|intros [= <-]].
Qed.

Lemma bitcount_12 (n : Z) : bitcount 12 < bitcount n ↔ 16 ≤ n.
Proof.
  change (bitcount 12) with 4.
  destruct (bitcount_range n) as [H0 Hpos].
  destruct (Z.le_gt_cases n 0) as [Hn|Hn]; [rewrite H0 by done; lia|].
  destruct (Hpos Hn) as (Hb & Hlo & Hhi). split; intros H.
  - assert (2 ^ 4 ≤ 2 ^ (bitcount n - 1)) by (apply Z.pow_le_mono_r; lia).
    change (2 ^ 4) with 16 in *. lia.
  - destruct (Z.le_gt_cases (bitcount n) 4); [|done].
    assert (2 ^ bitcount n ≤ 2 ^ 4) by (apply Z.pow_le_mono_r; lia).
    change (2 ^ 4) with 16 in *. lia.
Qed.

(** A private key that [__init__] returned has its private attributes. *)
Lemma init_private_attrs (fuel : nat) (a : init_args) (t t' : tape)
    (self : RsaKeyPair) :
  __init__ fuel a t = Ret (self, t') → arg_only_pubkey a = false →
  ∃ p q phi d,
    key_p self = Some p ∧ key_q self = Some q ∧ key_phi self = Some phi ∧
    key_d self = Some d.
Proof.
  unfold __init__. destruct (_ && _); [done|]. intros H Hmode. rewrite Hmode in H.
  apply M_bind_ret in H as (p & t1 & _ & H). cbv zeta in H.
  apply M_bind_ret in H as (q & t2 & _ & H).
  apply M_bind_ret in H as (e & t3 & _ & H).
  apply M_bind_ret in H as (d & t4 & _ & H).
  apply M_bind_ret in H as ([] & t5 & _ & H).
  injection H as <- <-. by eexists _, _, _, _.
Qed.

Lemma get_e_gcd (phi e : Z) :
  get_e phi = Some e → 3 ≤ e ≤ 9999 ∧ Z.gcd e phi = 1.
Proof.
  unfold get_e. intros [Hin Hacc]%find_some.
  apply list_elem_of_In, range_step_odd in Hin as [_ Hrange].
  split; [done|]. apply get_e_test in Hacc; [done|lia].
Qed.

(** X25.  A private key that [__init__] returned has all its
    attributes, with [phi = (p - 1) * (q - 1)], [(e * d) mod phi = 1],
    [e] and [d] other than 0, [n >= 16], [nbits] and [pbits] the bit
    lengths of [n] and [p], and [p] and [q] neither 0 nor 1; [n = p * q]
    unless [n] was given; [e] is between 3 and 9999 and coprime to [phi]
    unless it was given; a generated [p] or [q] is odd with
    [keylength // 2] bits, and a generated [q] differs from [p]. *)
Theorem init_private_invariants (fuel : nat) (a : init_args) (t t' : tape)
    (self : RsaKeyPair) :
  __init__ fuel a t = Ret (self, t') → arg_only_pubkey a = false →
  ∃ p q d,
    key_p self = Some p ∧ key_q self = Some q ∧ key_d self = Some d ∧
    key_phi self = Some ((p - 1) * (q - 1)) ∧
    key_pbits self = Some (bitcount p) ∧
    key_nbits self = bitcount (key_n self) ∧
    (key_e self * d) `mod` ((p - 1) * (q - 1)) = 1 ∧
    key_e self ≠ 0 ∧ d ≠ 0 ∧ 16 ≤ key_n self ∧
    p ≠ 0 ∧ p ≠ 1 ∧ q ≠ 0 ∧ q ≠ 1 ∧
    (given (arg_n a) = None → key_n self = p * q) ∧
    (given (arg_e a) = None →
     3 ≤ key_e self ≤ 9999 ∧ Z.gcd (key_e self) ((p - 1) * (q - 1)) = 1) ∧
    (given (arg_p a) = None →
     Z.odd p = true ∧ bitcount p = arg_keylength a `div` 2) ∧
    (given (arg_q a) = None →
     q ≠ p ∧ Z.odd q = true ∧ bitcount q = arg_keylength a `div` 2).
Proof.
  unfold __init__. destruct (_ && _); [done|]. intros H Hmode. rewrite Hmode in H.
  apply M_bind_ret in H as (p & t1 & Hp & H). cbv zeta in H.
  apply M_bind_ret in H as (q & t2 & Hq & H).
  apply M_bind_ret in H as (e & t3 & He & H).
  apply M_bind_ret in H as (d & t4 & _ & H).
  apply M_bind_ret in H as ([] & t5 & Hqt & H).
  injection H as <- <-.
  apply quick_test_inv in Hqt as (d' & phi & c & Hd & Hphi & Hphi0 & Hed & Henc & Hdec).
  cbn in Hd, Hphi, Hed. injection Hd as <-. injection Hphi as <-.
  pose proof (_encrypt_ret_inv _ _ _ Henc) as (H12 & Hn & _).
  cbn in H12, Hn.
  assert (He0 : given (arg_e a) = None →
            3 ≤ e ≤ 9999 ∧ Z.gcd e ((p - 1) * (q - 1)) = 1).
  { intros Hge. rewrite Hge in He.
    destruct (get_e ((p - 1) * (q - 1))) as [e'|] eqn:Hget; [|done].
    injection He as <- _. by apply get_e_gcd. }
  assert (Hp0 : p ≠ 0 ∧ (given (arg_p a) = None →
            Z.odd p = true ∧ bitcount p = arg_keylength a `div` 2)).
  { destruct (given (arg_p a)) as [p'|] eqn:Hgp.
    - injection Hp as <- _. split; [by eapply given_nonzero|done].
    - apply (generate_prime_number_inv
               (λ p, Z.odd p = true ∧ bitcount p = arg_keylength a `div` 2))
        in Hp as [[Hodd Hbits] _].
      + split; [|done]. intros ->. done.
      + intros t0 p0 t0' Hc.
        by apply generate_prime_candidate_inv in Hc as (_ & ? & ? & _). }
  assert (Hq0 : q ≠ 0 ∧ (given (arg_q a) = None →
            q ≠ p ∧ Z.odd q = true ∧ bitcount q = arg_keylength a `div` 2)).
  { destruct (given (arg_q a)) as [q'|] eqn:Hgq.
    - injection Hq as <- _. split; [by eapply given_nonzero|done].
    - apply (whileM_ret_inv
               (λ q, Z.odd q = true ∧ bitcount q = arg_keylength a `div` 2))
        in Hq as [Hq (t0 & Hend)].
      + injection Hend as Hne%Z.eqb_neq _.
        destruct Hq as [->|[Hodd Hbits]]; [done|].
        split; [|done]. intros ->. done.
      + intros _ ta q1 tb Hgen.
        apply (generate_prime_number_inv
                 (λ q, Z.odd q = true ∧ bitcount q = arg_keylength a `div` 2))
          in Hgen as [? _]; [done|].
        intros t0 p0 t0' Hc.
        by apply generate_prime_candidate_inv in Hc as (_ & ? & ? & _). }
  exists p, q, d. cbn.
  split_and!; try done.
  - intros ->. by rewrite Z.mul_0_l, Zmod_0_l in Hed.
  - intros ->. by rewrite Z.mul_0_r, Zmod_0_l in Hed.
  - by apply bitcount_12.
  - by destruct Hp0.
  - intros ->. by rewrite Z.sub_diag, Z.mul_0_l in Hphi0.
  - by destruct Hq0.
  - intros ->. by rewrite Z.sub_diag, Z.mul_0_r in Hphi0.
  - by intros ->.
  - by destruct Hp0.
  - by destruct Hq0.
Qed.

Lemma init_private_invariants_witness :
  __init__ 100 toy_args zero_tape = Ret (toy_key, zero_tape) ∧
  arg_only_pubkey toy_args = false ∧
  ∃ p q d,
    key_p toy_key = Some p ∧ key_q toy_key = Some q ∧ key_d toy_key = Some d ∧
    key_phi toy_key = Some ((p - 1) * (q - 1)) ∧
    key_pbits toy_key = Some (bitcount p) ∧
    key_nbits toy_key = bitcount (key_n toy_key) ∧
    (key_e toy_key * d) `mod` ((p - 1) * (q - 1)) = 1 ∧
    key_e toy_key ≠ 0 ∧ d ≠ 0 ∧ 16 ≤ key_n toy_key ∧
    p ≠ 0 ∧ p ≠ 1 ∧ q ≠ 0 ∧ q ≠ 1 ∧
    (given (arg_n toy_args) = None → key_n toy_key = p * q) ∧
    (given (arg_e toy_args) = None →
     3 ≤ key_e toy_key ≤ 9999 ∧
     Z.gcd (key_e toy_key) ((p - 1) * (q - 1)) = 1) ∧
    (given (arg_p toy_args) = None →
     Z.odd p = true ∧ bitcount p = arg_keylength toy_args `div` 2) ∧
    (given (arg_q toy_args) = None →
     q ≠ p ∧ Z.odd q = true ∧ bitcount q = arg_keylength toy_args `div` 2).
Proof.
  split; [exact toy_key_constructed|]. split; [reflexivity|].
  exact (init_private_invariants 100 toy_args zero_tape zero_tape toy_key
           toy_key_constructed eq_refl).
Defined.

(** A blinding factor times 12 stays below a modulus of 1023 bits. *)
Lemma blinded_12_fits (n : Z) (t : tape) :
  1023 ≤ bitcount n → 12 * blinding_factor t < n.
Proof.
  intros Hbits. destruct (bitcount_range n) as [H0 Hpos].
  destruct (Z.le_gt_cases n 0) as [Hn|Hn]; [rewrite H0 in Hbits; lia|].
  destruct (Hpos Hn) as (_ & Hlo & _).
  assert (Hpow : 2 ^ 1022 ≤ 2 ^ (bitcount n - 1))
    by (apply Z.pow_le_mono_r; lia).
  pose proof (blinding_factor_range t) as [_ Hhi].
  assert (Hnum : 12 * 10 ^ 49 < 2 ^ 1022) by (apply Z.ltb_lt; vm_compute; reflexivity).
  lia.
Qed.

Lemma quick_test_proper (self : RsaKeyPair) (p q d : Z) (t : tape) :
  proper_key self p q d → key_phi self = Some ((p - 1) * (q - 1)) →
  16 ≤ key_n self →
  ∃ t', quick_test self t = Ret ((), t').
Proof.
  intros key_ok Hphi Hn.
  assert (H12 : bitcount 12 < key_nbits self).
  { rewrite (proper_nbits _ _ _ _ key_ok). by apply bitcount_12. }
  pose proof (_decrypt_encrypted self p q d key_ok 12 t ltac:(lia)) as Hdec.
  assert (Hdec' : ∃ t', _decrypt self (12 ^ key_e self `mod` key_n self) t
                        = Ret (12, t')).
  { rewrite Hdec. destruct (Z.leb_spec 1023 (key_nbits self)); [|by eauto].
    pose proof (blinding_factor_range t) as [Hlo _].
    change (10 ^ 46) with 10000000000000000000000000000000000000000000000 in Hlo.
    destruct (unblinded_exact (key_n self) 12 (blinding_factor t))
      as [Heq _]; [lia|lia|].
    rewrite Heq; [by eauto|]. apply blinded_12_fits.
    by rewrite <- (proper_nbits _ _ _ _ key_ok). }
  destruct Hdec' as [t' Hdec'].
  exists t'.
  apply (quick_test_run self d ((p - 1) * (q - 1))
           (12 ^ key_e self `mod` key_n self) t t').
  - by destruct key_ok.
  - done.
  - pose proof (Z.prime_ge_2 p (proper_p _ _ _ _ key_ok)).
    pose proof (Z.prime_ge_2 q (proper_q _ _ _ _ key_ok)). nia.
  - by destruct key_ok.
  - by apply (_encrypt_run self p q d key_ok).
  - done.
Qed.

(** X26.  [__init__] on two distinct primes [p] and [q] with
    [p * q >= 16], the rest left to the class, returns (with enough fuel,
    whatever is drawn) the key with [n = p * q], the [e] of [get_e] and
    the [d] of [get_d], which lies strictly between 0 and [phi], whenever
    [get_e] finds an exponent. *)
Theorem init_from_primes (a : init_args) (p q e : Z) :
  (arg_keylength a <? 1024) && negb (arg_ignore_warning a) = false →
  arg_only_pubkey a = false →
  given (arg_p a) = Some p → given (arg_q a) = Some q →
  given (arg_e a) = None → given (arg_n a) = None → given (arg_d a) = None →
  Z.prime p → Z.prime q → p ≠ q → 16 ≤ p * q →
  get_e ((p - 1) * (q - 1)) = Some e →
  ∃ d fuel0,
    0 < d < (p - 1) * (q - 1) ∧ (e * d) `mod` ((p - 1) * (q - 1)) = 1 ∧
    ∀ fuel t, (fuel0 ≤ fuel)%nat →
      ∃ t', __init__ fuel a t
            = Ret ({| key_only_pubkey := false; key_e := e; key_n := p * q;
                      key_nbits := bitcount (p * q);
                      key_p := Some p; key_pbits := Some (bitcount p);
                      key_q := Some q; key_phi := Some ((p - 1) * (q - 1));
                      key_d := Some d |}, t').
Proof.
  intros Hguard Hmode Hp Hq He Hn Hd Hpp Hqp Hpq Hbig Hget_e.
  pose proof (Z.prime_ge_2 p Hpp). pose proof (Z.prime_ge_2 q Hqp).
  set (phi := (p - 1) * (q - 1)) in *.
  assert (Hphi : 1 < phi) by (subst phi; nia).
  apply get_e_gcd in Hget_e as Hegcd. destruct Hegcd as [Herange Hgcd].
  destruct (get_d_loop_coprime phi e Hphi (Z.to_nat e) phi e phi 1)
    as (f0 & a' & x' & d & Hd0 & Hed & Hloop); [done|lia| |lia| | |].
  { by rewrite Z.gcd_comm. }
  { by rewrite Z.mul_1_l. }
  { by rewrite Z.mod_same, Z.mul_comm, Z.mod_mul by lia. }
  assert (Hget_d : ∀ fuel, (f0 ≤ fuel)%nat → get_d fuel phi e = Ret d).
  { intros fuel Hfuel. rewrite get_d_unfold, Hloop by done. done. }
  exists d, f0. split_and!.
  - destruct (Z.eq_dec d 0) as [->|]; [|lia].
    rewrite Z.mul_0_r, Z.mod_0_l in Hed; lia.
  - pose proof (get_d_loop_bounds phi f0 ltac:(lia) f0 phi e phi 1 a' 1 x' d
                  ltac:(lia) ltac:(lia) ltac:(lia) ltac:(lia)
                  (Hloop f0 f0 ltac:(done) ltac:(done))) as [_ Hle].
    destruct (Z.eq_dec d phi) as [->|]; [|lia].
    rewrite Z.mod_mul in Hed; lia.
  - done.
  - intros fuel t Hfuel.
    set (self := {| key_only_pubkey := false; key_e := e; key_n := p * q;
                    key_nbits := bitcount (p * q);
                    key_p := Some p; key_pbits := Some (bitcount p);
                    key_q := Some q; key_phi := Some phi;
                    key_d := Some d |}).
    assert (key_ok : proper_key self p q d).
    { split; cbn; (done || lia). }
    destruct (quick_test_proper self p q d t key_ok eq_refl Hbig) as [t' Hqt].
    exists t'.
    apply (init_run_from_primes fuel a p q e d t t'); try done.
    by apply Hget_d.
Qed.

(** X27.  On every key that [__init__] returned, [return_all] returns a
    dict with [e], [n] and [nbits], the bit length of [n]; on a
    public-only key these are its only keys, on a private key it has the
    seven keys with the attributes; and [__init__] in public-only mode on
    the [e] and [n] exported returns a key with the same [e], [n] and
    [nbits], drawing nothing. *)
Theorem return_all_of_constructed (fuel : nat) (a : init_args) (t t' : tape)
    (self : RsaKeyPair) :
  __init__ fuel a t = Ret (self, t') →
  ∃ m, return_all self = Ret m ∧
       m !! "e" = Some (key_e self) ∧ m !! "n" = Some (key_n self) ∧
       m !! "nbits" = Some (bitcount (key_n self)) ∧
       (if key_only_pubkey self
        then dom m = {["e"; "n"; "nbits"]}
        else dom m = {["p"; "q"; "e"; "phi"; "n"; "d"; "nbits"]} ∧
             m !! "p" = key_p self ∧ m !! "q" = key_q self ∧
             m !! "phi" = key_phi self ∧ m !! "d" = key_d self) ∧
       ∀ fuel' keylength ignore_warning t0,
         (keylength <? 1024) && negb ignore_warning = false →
         ∃ pub, __init__ fuel'
                  (public_args_of (key_e self) (key_n self)
                     keylength ignore_warning) t0
                = Ret (pub, t0) ∧
                key_only_pubkey pub = true ∧ key_e pub = key_e self ∧
                key_n pub = key_n self ∧ key_nbits pub = key_nbits self.
Proof.
  intros Hinit.
  pose proof (init_inv _ _ _ _ _ Hinit) as (Hbits & Hn & He & Hmode).
  assert (Hpub : ∀ fuel' keylength ignore_warning t0,
            (keylength <? 1024) && negb ignore_warning = false →
            ∃ pub, __init__ fuel'
                     (public_args_of (key_e self) (key_n self)
                        keylength ignore_warning) t0
                   = Ret (pub, t0) ∧
                   key_only_pubkey pub = true ∧ key_e pub = key_e self ∧
                   key_n pub = key_n self ∧ key_nbits pub = key_nbits self).
  { intros fuel' kl iw t0 Hguard. unfold __init__, public_args_of. cbn.
    rewrite Hguard.
    destruct (Z.eqb_spec (key_e self) 0); [done|].
    destruct (Z.eqb_spec (key_n self) 0); [done|].
    eexists. split; [done|]. by cbn. }
  unfold return_all. destruct (key_only_pubkey self) eqn:Hmodeb.
  - eexists. split; [done|]. rewrite <- Hbits. split_and!; try done.
    all: rewrite !dom_insert_L, dom_empty_L; set_solver.
  - destruct Hmode as [Hpriv _].
    destruct (init_private_attrs fuel a t t' self Hinit Hpriv)
      as (p & q & phi & d & Hp & Hq & Hphi & Hd).
    rewrite Hp, Hq, Hd, Hphi. cbn. eexists. split; [done|].
    rewrite <- Hbits. split_and!; try done.
    all: rewrite !dom_insert_L, dom_empty_L; set_solver.
Qed.

Lemma return_all_of_constructed_witness :
  __init__ 100 toy_args zero_tape = Ret (toy_key, zero_tape) ∧
  ∃ m, return_all toy_key = Ret m ∧
       dom m = {["p"; "q"; "e"; "phi"; "n"; "d"; "nbits"]} ∧
       m !! "e" = Some 7 ∧ m !! "n" = Some 3233 ∧ m !! "d" = Some 1783.
Proof.
  split; [exact toy_key_constructed|].
  destruct (return_all_of_constructed 100 toy_args zero_tape zero_tape toy_key
              toy_key_constructed)
    as (m & Hm & He & Hn & _ & Hpriv & _).
  cbn in Hpriv. destruct Hpriv as (Hdom & _ & _ & _ & Hd).
  exists m. split; [exact Hm|]. split; [exact Hdom|]. split; [exact He|].
  split; [exact Hn|exact Hd].
Defined.

(** ** Proth's criterion, and a key of 1369 bits from two primes *)

Lemma prime_divisor (n : Z) : 1 < n → ∃ q, Z.prime q ∧ (q | n).
Proof.
  induction (Z.lt_wf 0 n) as [n _ IH]. intros Hn.
  destruct (Znumtheory.prime_dec n) as [Hp|Hnp].
  - exists n. split; [by apply Znumtheory.prime_alt|apply Z.divide_refl].
  - apply Znumtheory.not_prime_divide in Hnp as (d & Hd & Hdn); [|lia].
    destruct (IH d ltac:(lia) ltac:(lia)) as (q & Hq & Hqd).
    exists q. split; [done|]. by apply (Z.divide_trans _ d).
Qed.

Lemma small_prime_divisor (n : Z) :
  1 < n → ¬ Z.prime n → ∃ q, Z.prime q ∧ (q | n) ∧ q * q ≤ n.
Proof.
  intros Hn Hnp. rewrite Znumtheory.prime_alt in Hnp.
  apply Znumtheory.not_prime_divide in Hnp as (d & Hd & [c Hc]); [|lia].
  assert (1 < c) by nia.
  assert (Hm : ∃ m, 1 < m ∧ (m | n) ∧ m * m ≤ n).
  { destruct (Z.le_gt_cases d c).
    - exists d. split_and!; [lia|by exists c|nia].
    - exists c. split_and!; [lia|exists d; lia|nia]. }
  destruct Hm as (m & Hm1 & Hmn & Hmm).
  destruct (prime_divisor m Hm1) as (q & Hq & Hqm).
  exists q. split_and!; [done|by apply (Z.divide_trans _ m)|].
  pose proof (Z.prime_ge_2 q Hq). pose proof (Z.divide_pos_le q m ltac:(lia) Hqm).
  nia.
Qed.

Lemma odd_part (n : Z) :
  0 < n → ∃ j u, 0 ≤ j ∧ Z.odd u = true ∧ n = 2 ^ j * u.
Proof.
  induction (Z.lt_wf 0 n) as [n _ IH]. intros Hn.
  destruct (Z.odd n) eqn:Hodd.
  - exists 0, n. split_and!; [done|done|]. rewrite Z.pow_0_r. lia.
  - rewrite <- Z.negb_even in Hodd. apply negb_false_iff, Z.even_spec in Hodd
      as [c ->].
    destruct (IH c ltac:(lia) ltac:(lia)) as (j & u & Hj & Hu & ->).
    exists (j + 1), u. split_and!; [lia|done|].
    rewrite Z.pow_add_r by lia. change (2 ^ 1) with 2. lia.
Qed.

Lemma minus_one_pow_odd (q u : Z) :
  1 < q → 0 ≤ u → Z.odd u = true → (q - 1) ^ u `mod` q = q - 1.
Proof.
  intros Hq Hu [v ->]%Z.odd_spec.
  rewrite Z.pow_add_r, Z.pow_1_r, Z.pow_mul_r by lia.
  rewrite Z.mul_mod, <- Z.mod_pow_l by lia.
  replace ((q - 1) ^ 2) with (1 + (q - 2) * q) by (rewrite Z.pow_2_r; lia).
  rewrite Z.mod_add, Z.mod_1_l, Z.pow_1_l, Z.mod_1_l, Z.mul_1_l by lia.
  rewrite Z.mod_mod by lia. apply Z.mod_small. lia.
Qed.

(** Proth: [k * 2 ^ m + 1] with [k < 2 ^ m] is prime when some [a] has
    [a ^ ((p - 1) / 2) = -1] modulo it. *)
Lemma proth (k m a : Z) :
  1 ≤ m → 0 < k < 2 ^ m →
  a ^ (k * 2 ^ (m - 1)) `mod` (k * 2 ^ m + 1) = k * 2 ^ m →
  Z.prime (k * 2 ^ m + 1).
Proof.
  intros Hm Hk Hpow. set (p := k * 2 ^ m + 1) in *.
  assert (Hpm : 0 < 2 ^ (m - 1)) by (apply Z.pow_pos_nonneg; lia).
  assert (H2m : 2 ^ m = 2 * 2 ^ (m - 1)).
  { replace m with (1 + (m - 1)) at 1 by lia. by rewrite Z.pow_add_r by lia. }
  assert (Hp : 1 < p) by (subst p; nia).
  destruct (Znumtheory.prime_dec p) as [Hprime|Hnp];
    [by apply Znumtheory.prime_alt|].
  exfalso. rewrite <- Znumtheory.prime_alt in Hnp.
  destruct (small_prime_divisor p Hp Hnp) as (q & Hq & Hqp & Hqq).
  pose proof (Z.prime_ge_2 q Hq) as Hq2.
  set (E := k * 2 ^ (m - 1)) in *.
  assert (HE : 0 < E) by (subst E; nia).
  (* modulo q *)
  assert (HpowE : a ^ E `mod` q = q - 1).
  { rewrite <- (Z.mod_mod_divide _ p q) by done.
    rewrite Hpow. destruct Hqp as [c Hc].
    replace (k * 2 ^ m) with (q - 1 + (c - 1) * q) by (subst p; lia).
    rewrite Z.mod_add by lia. apply Z.mod_small. lia. }
  assert (Hq3 : q ≠ 2).
  { intros ->. destruct Hqp as [c Hc]. subst p. lia. }
  assert (Hanz : a `mod` q ≠ 0).
  { intros H0. rewrite <- Z.mod_pow_l, H0, Z.pow_0_l, Z.mod_0_l in HpowE by lia.
    lia. }
  pose proof (Z.fermat_nz q a Hq Hanz) as Hfermat.
  destruct (odd_part (q - 1) ltac:(lia)) as (j & u & Hj & Hu & Hju).
  assert (Hupos : 0 < u).
  { pose proof (Z.pow_pos_nonneg 2 j ltac:(lia) Hj). nia. }
  destruct (Z.le_gt_cases m j) as [Hmj|Hjm].
  - (* 2 ^ m divides q - 1: q is too big *)
    assert (2 ^ m ≤ 2 ^ j) by (apply Z.pow_le_mono_r; lia).
    assert (2 ^ m ≤ q - 1).
    { rewrite Hju. transitivity (2 ^ j * 1); [lia|].
      apply Z.mul_le_mono_nonneg_l; lia. }
    assert ((2 ^ m + 1) * (2 ^ m + 1) ≤ q * q)
      by (apply Z.mul_le_mono_nonneg; lia).
    assert (k * 2 ^ m ≤ (2 ^ m - 1) * 2 ^ m)
      by (apply Z.mul_le_mono_nonneg_r; lia).
    subst p. lia.
  - assert (Hone : a ^ (E * u) `mod` q = 1).
    { replace (E * u) with ((q - 1) * (k * 2 ^ (m - 1 - j))).
      2:{ rewrite Hju. subst E.
          replace (m - 1) with (j + (m - 1 - j)) at 2 by lia.
          rewrite Z.pow_add_r by lia. lia. }
      assert (0 ≤ k * 2 ^ (m - 1 - j)).
      { pose proof (Z.pow_pos_nonneg 2 (m - 1 - j)). nia. }
      rewrite Z.pow_mul_r, <- Z.mod_pow_l, Hfermat, Z.pow_1_l by lia.
      apply Z.mod_1_l. lia. }
    assert (Hminus : a ^ (E * u) `mod` q = q - 1).
    { rewrite Z.pow_mul_r, <- Z.mod_pow_l, HpowE by lia.
      apply minus_one_pow_odd; (done || lia). }
    lia.
Qed.

Lemma proth_fast (k m a : Z) :
  1 ≤ m → 0 < k < 2 ^ m →
  fast_powmod a (k * 2 ^ (m - 1)) (k * 2 ^ m + 1) = k * 2 ^ m →
  Z.prime (k * 2 ^ m + 1).
Proof.
  intros Hm Hk Hpow. apply (proth k m a); [done|done|].
  assert (0 < 2 ^ (m - 1)) by (apply Z.pow_pos_nonneg; lia).
  rewrite <- fast_powmod_spec; [done|nia|lia].
Qed.

Lemma proth_p_prime : Z.prime proth_p.
Proof.
  apply (proth_fast 7 830 3).
  - lia.
  - split; [lia|]. apply Z.ltb_lt. vm_compute. reflexivity.
  - vm_compute. reflexivity.
Qed.

Lemma proth_q_prime : Z.prime proth_q.
Proof.
  apply (proth_fast 3 534 5).
  - lia.
  - split; [lia|]. apply Z.ltb_lt. vm_compute. reflexivity.
  - vm_compute. reflexivity.
Qed.

Lemma proth_key_bits : key_nbits proth_key = 1369.
Proof. vm_compute. reflexivity. Qed.

Lemma proth_key_proper : proper_key proth_key proth_p proth_q proth_d.
Proof.
  split.
  - reflexivity.
  - exact proth_p_prime.
  - exact proth_q_prime.
  - apply Z.eqb_neq. vm_compute. reflexivity.
  - reflexivity.
  - reflexivity.
  - reflexivity.
  - simpl. lia.
  - apply Z.leb_le. vm_compute. reflexivity.
  - vm_compute. reflexivity.
Qed.

Lemma init_from_primes_witness :
  ∃ d fuel0,
    0 < d < (proth_p - 1) * (proth_q - 1) ∧
    (5 * d) `mod` ((proth_p - 1) * (proth_q - 1)) = 1 ∧
    ∀ fuel t, (fuel0 ≤ fuel)%nat →
      ∃ t', __init__ fuel proth_args t
            = Ret ({| key_only_pubkey := false; key_e := 5;
                      key_n := proth_p * proth_q;
                      key_nbits := bitcount (proth_p * proth_q);
                      key_p := Some proth_p;
                      key_pbits := Some (bitcount proth_p);
                      key_q := Some proth_q;
                      key_phi := Some ((proth_p - 1) * (proth_q - 1));
                      key_d := Some d |}, t').
Proof.
  apply (init_from_primes proth_args proth_p proth_q 5).
  - reflexivity.
  - reflexivity.
  - vm_compute. reflexivity.
  - vm_compute. reflexivity.
  - reflexivity.
  - reflexivity.
  - reflexivity.
  - exact proth_p_prime.
  - exact proth_q_prime.
  - apply Z.eqb_neq. vm_compute. reflexivity.
  - apply Z.leb_le. vm_compute. reflexivity.
  - vm_compute. reflexivity.
Defined.

Lemma round_trip_proper_witness :
  ∃ c t1' t2', encrypt proth_key (PyStr (py "Hi")) zero_tape = Ret (c, t1') ∧
               decrypt proth_key c zero_tape = Ret (py "Hi", t2').
Proof.
  apply (round_trip_proper proth_key proth_p proth_q proth_d proth_key_proper
           (py "Hi") zero_tape zero_tape).
  - repeat (constructor; [simpl; lia|]). constructor.
  - simpl. lia.
  - rewrite proth_key_bits. vm_compute. reflexivity.
  - intros _. apply Z.ltb_lt. vm_compute. reflexivity.
Defined.

Lemma encrypt_fails_proper_witness :
  encrypt proth_key (PyStr message_92) zero_tape
  = Raise (ValueError not_same_after_decryption).
Proof.
  apply (encrypt_fails_proper proth_key proth_p proth_q proth_d proth_key_proper
           message_92 zero_tape).
  - apply Forall_replicate. lia.
  - unfold message_92. rewrite length_replicate. lia.
  - rewrite proth_key_bits. vm_compute. reflexivity.
  - rewrite proth_key_bits. lia.
  - apply Z.leb_le. vm_compute. reflexivity.
Defined.


(** X7.  The check that [encrypt] makes does not carry over to a later
    decryption.  On a proper key of 1023 bits or more and for a message
    of at most 1074 characters, when the encoded message times the
    blinding factor that [encrypt] draws stays below [n] while the
    encoded message times the factor drawn later reaches [n], [encrypt]
    returns the ciphertext and [_decrypt] of it returns less than the
    encoded message. *)
Theorem encrypt_check_is_not_enough (self : RsaKeyPair) (p q d : Z)
    (s : pystr) (t1 t2 : tape) :
  proper_key self p q d →
  Forall (λ c, 0 ≤ c < 10000) s →
  (length s ≤ 1074)%nat →
  bitcount (digits_value (encoded s)) < key_nbits self →
  1023 ≤ key_nbits self →
  digits_value (encoded s) * blinding_factor t1 < key_n self →
  key_n self ≤ digits_value (encoded s) * blinding_factor t2 →
  ∃ c, encrypt self (PyStr s) t1 = Ret (c, tape_tail t1) ∧
       ∃ m, _decrypt self c t2 = Ret (m, tape_tail t2) ∧
            m < digits_value (encoded s).
Proof.
  intros key_ok Hs Hlen Hbits Hblind Hfits Hwraps.
  assert (Hnn : Forall (λ c, 0 ≤ c) s)
    by (eapply Forall_impl; [exact Hs|]; simpl; lia).
  pose proof (short_encoded s Hs Hlen) as Hnum.
  set (toc := digits_value (encoded s)) in *.
  assert (Htoc : 0 ≤ toc < key_n self).
  { split; [apply digits_value_nonneg; by apply encoded_is_digits|].
    apply bitcount_lt; [apply digits_value_nonneg; by apply encoded_is_digits|].
    by rewrite <- (proper_nbits _ _ _ _ key_ok). }
  assert (Hpos : ∀ t, 0 < blinding_factor t).
  { intros t. pose proof (blinding_factor_range t) as [Hlo _].
    change (10 ^ 46) with 10000000000000000000000000000000000000000000000 in Hlo.
    lia. }
  assert (Hdec : ∀ t, _decrypt self (toc ^ key_e self `mod` key_n self) t
                      = Ret (unblinded (key_n self) toc (blinding_factor t),
                             tape_tail t)).
  { intros t. rewrite (_decrypt_encrypted self p q d key_ok) by done.
    by destruct (Z.leb_spec 1023 (key_nbits self)); [|lia]. }
  exists (toc ^ key_e self `mod` key_n self). split.
  - rewrite (encrypt_run self (PyStr s) s toc
               (toc ^ key_e self `mod` key_n self)
               (unblinded (key_n self) toc (blinding_factor t1)) t1
               (tape_tail t1));
      [|done|done|by apply (_encrypt_run self p q d key_ok)
       |by destruct key_ok|by apply Hdec].
    destruct (unblinded_exact (key_n self) toc (blinding_factor t1)
                (Hpos t1) Htoc) as [Heq _].
    by rewrite Heq, Z.eqb_refl.
  - eexists. split; [apply Hdec|].
    by apply (unblinded_exact (key_n self) toc (blinding_factor t2) (Hpos t2) Htoc).
Qed.

Lemma encrypt_check_is_not_enough_witness :
  ∃ c, encrypt proth_key (PyStr message_90) zero_tape
       = Ret (c, tape_tail zero_tape) ∧
       ∃ m, _decrypt proth_key c top_tape = Ret (m, tape_tail top_tape) ∧
            m < digits_value (encoded message_90).
Proof.
  apply (encrypt_check_is_not_enough proth_key proth_p proth_q proth_d
           message_90 zero_tape top_tape proth_key_proper).
  - apply Forall_replicate. lia.
  - unfold message_90. rewrite length_replicate. lia.
  - rewrite proth_key_bits. vm_compute. reflexivity.
  - rewrite proth_key_bits. lia.
  - apply Z.ltb_lt. vm_compute. reflexivity.
  - apply Z.leb_le. vm_compute. reflexivity.
Defined.
